(** * librsync: the map-pointer window buffer and the signature loader

    A shallow embedding of [mapptr.c] (the sliding window over a file
    descriptor, [_hs_map_ptr]) and of [readsums.c] (the resumable state
    machine that loads a signature), with the properties the specification
    states about them.

    Conventions.
    - [int] is a 32-bit two's complement integer.  A conversion from
      [hs_off_t] to [int] is written [to_int] and wraps; [int] arithmetic is
      exact where its result fits (signed overflow is undefined in C).
    - [hs_off_t] is declared outside these sources; file offsets are
      mathematical integers.
    - Memory is a function from an index to a byte.  [map->p] is [None] for
      the null pointer and [Some contents] for an allocation of [p_size]
      bytes, indexed from [p[0]]. *)

From Stdlib Require Import ZArith List Lia Bool.
From Stdlib Require Import Init.Byte Strings.Byte.
Import ListNotations.
Local Open Scope Z_scope.

(* ================================================================== *)
(** * Part I: definitions for [mapptr.c]                               *)
(* ================================================================== *)

(** ** Machine integers *)

Definition INT_MIN : Z := - 2 ^ 31.
Definition INT_MAX : Z := 2 ^ 31 - 1.

(** Conversion of a wider integer to [int]. *)
Definition to_int (z : Z) : Z := (z + 2 ^ 31) mod 2 ^ 32 - 2 ^ 31.

(** ** Constants of [mapptr.c] *)

Definition CHUNK_SIZE : Z := 32 * 1024.
Definition MAX_MAP_SIZE : Z := 256 * 1024.
Definition HS_MAP_TAG : Z := 189900.

(** ** The operating system seen through [read], [lseek] and [realloc]

    The descriptor reads from a byte source of known content and length.
    [fd_script] decides what each successive [read] does: fail, or transfer
    at most so many bytes (a short read); once the script is used up every
    read transfers as much as it can.  A read of a positive count transfers
    zero bytes only at end of input, and a failing read transfers nothing
    and leaves the cursor where it was.  [lseek] fails on a descriptor that
    cannot seek, and [realloc] fails beyond [heap_limit].  [fd_reads] and
    [fd_seeks] record every [read] and [lseek] issued, newest first. *)

Definition memory := Z -> byte.

Inductive read_ev : Type :=
| ReadFails
| ReadAtMost (n : positive).

Record rd_entry : Type := {
  rd_pos   : Z;   (* position of the cursor when the read was issued *)
  rd_count : Z;   (* bytes asked for *)
  rd_ret   : Z    (* return value: bytes transferred, or -1 *)
}.

Record os_state : Type := {
  fd_data     : Z -> byte;
  fd_size     : Z;
  fd_seekable : bool;
  heap_limit  : Z;
  fd_pos      : Z;
  fd_script   : list read_ev;
  fd_reads    : list rd_entry;
  fd_seeks    : list Z
}.

(** A descriptor just opened on a source, cursor at 0. *)
Definition open_fd (data : Z -> byte) (size : Z) (seekable : bool)
           (heap : Z) (script : list read_ev) : os_state :=
  {| fd_data := data; fd_size := size; fd_seekable := seekable;
     heap_limit := heap; fd_pos := 0; fd_script := script;
     fd_reads := []; fd_seeks := [] |}.

Definition mem_write (src : Z -> byte) (pos : Z) (buf : memory) (dst n : Z)
  : memory :=
  fun i => if (dst <=? i) && (i <? dst + n) then src (pos + (i - dst))
           else buf i.

(** [memmove(buf + dst, buf + src, n)]: the copy reads the old contents. *)
Definition memmove (buf : memory) (dst src n : Z) : memory :=
  fun i => if (dst <=? i) && (i <? dst + n) then buf (src + (i - dst))
           else buf i.

Definition sys_read (os : os_state) (buf : memory) (dst count : Z)
  : Z * os_state * memory :=
  let logged r :=
    {| rd_pos := fd_pos os; rd_count := count; rd_ret := r |} :: fd_reads os in
  match fd_script os with
  | ReadFails :: script =>
      (-1,
       {| fd_data := fd_data os; fd_size := fd_size os;
          fd_seekable := fd_seekable os; heap_limit := heap_limit os;
          fd_pos := fd_pos os; fd_script := script;
          fd_reads := logged (-1); fd_seeks := fd_seeks os |},
       buf)
  | script =>
      let limit := match script with
                   | ReadAtMost n :: _ => Z.pos n
                   | _ => count
                   end in
      let n := Z.max 0 (Z.min (Z.min count limit) (fd_size os - fd_pos os)) in
      (n,
       {| fd_data := fd_data os; fd_size := fd_size os;
          fd_seekable := fd_seekable os; heap_limit := heap_limit os;
          fd_pos := fd_pos os + n; fd_script := tl script;
          fd_reads := logged n; fd_seeks := fd_seeks os |},
       mem_write (fd_data os) (fd_pos os) buf dst n)
  end.

(** [lseek(fd, pos, SEEK_SET)]: the new position, or -1. *)
Definition sys_lseek (os : os_state) (pos : Z) : Z * os_state :=
  let ok := fd_seekable os && (0 <=? pos) in
  (if ok then pos else -1,
   {| fd_data := fd_data os; fd_size := fd_size os;
      fd_seekable := fd_seekable os; heap_limit := heap_limit os;
      fd_pos := if ok then pos else fd_pos os; fd_script := fd_script os;
      fd_reads := fd_reads os; fd_seeks := pos :: fd_seeks os |}).

(** [realloc(q, size)]: the old contents are kept; the new bytes are
    indeterminate.  [None] is the null pointer. *)
Definition realloc (os : os_state) (q : option memory) (size : Z)
  : option memory :=
  if (0 <? size) && (size <=? heap_limit os)
  then Some (match q with Some f => f | None => fun _ => x00 end)
  else None.

(** ** [struct hs_map] *)

Record hs_map : Type := {
  tag         : Z;
  p           : option memory;
  fd          : Z;
  p_size      : Z;
  p_len       : Z;
  p_offset    : Z;
  p_fd_offset : Z
}.

Definition buffer (map : hs_map) : memory :=
  match p map with Some f => f | None => fun _ => x00 end.

Definition _hs_map_file (fd0 : Z) : hs_map :=
  {| tag := HS_MAP_TAG; p := None; fd := fd0; p_size := 0; p_len := 0;
     p_offset := 0; p_fd_offset := 0 |}.

(** ** Pointers into the window and the result of a call *)

Inductive cptr : Type :=
| NullPtr
| BufPtr (k : Z)     (* map->p + k, map->p allocated *)
| WildPtr (k : Z).   (* NULL + k with k <> 0: not a valid pointer *)

Definition ptr_add (base : option memory) (k : Z) : cptr :=
  match base with
  | Some _ => BufPtr k
  | None => if k =? 0 then NullPtr else WildPtr k
  end.

Inductive errno_t : Type := EINVAL.

Record reply : Type := {
  r_ptr   : cptr;            (* the returned pointer *)
  r_len   : Z;               (* *len on return *)
  r_eof   : bool;            (* *reached_eof on return *)
  r_errno : option errno_t   (* errno, when the call set it *)
}.

Inductive abort_cause : Type := AssertFailure | OutOfMemory | SeekFailure.

Inductive outcome : Type :=
| Abort (why : abort_cause)
| Return (r : reply) (map : hs_map) (os : os_state)
| Unfinished.   (* the read loop ran out of fuel; see [_hs_map_ptr_total] *)

(** ** [_hs_map_ptr] *)

Definition window_start_of (offset : Z) : Z :=
  if offset >? 2 * CHUNK_SIZE
  then Z.land (offset - 2 * CHUNK_SIZE) (Z.lnot (CHUNK_SIZE - 1))
  else 0.

Definition window_size_of (offset len window_start : Z) : Z :=
  if offset + len >? window_start + MAX_MAP_SIZE
  then to_int ((offset + len) - window_start)
  else MAX_MAP_SIZE.

(** The [do ... while (total_read < read_size)] loop.  The result is the
    state of the descriptor, the buffer, [total_read] and whether the loop
    set [*reached_eof]. *)
Fixpoint fill (fuel : nat) (os : os_state) (buf : memory)
         (read_offset read_size total_read : Z)
  : option (os_state * memory * Z * bool) :=
  match fuel with
  | O => None
  | S fuel' =>
      let '(nread, os1, buf1) :=
        sys_read os buf (read_offset + total_read) (read_size - total_read) in
      if nread <? 0 then Some (os1, buf1, total_read, false)
      else
        let total_read := total_read + nread in
        if nread =? 0 then Some (os1, buf1, total_read, true)
        else if total_read <? read_size
             then fill fuel' os1 buf1 read_offset read_size total_read
             else Some (os1, buf1, total_read, false)
  end.

(** Is the request inside the resident window? (the fast path) *)
Definition resident (map : hs_map) (offset len : Z) : bool :=
  (offset >=? p_offset map) && (offset + len <=? p_offset map + p_len map).

(** Does the new window start inside the old one and reach its end? *)
Definition reuses (map : hs_map) (window_start window_size : Z) : bool :=
  (window_start >=? p_offset map)
  && (window_start <? p_offset map + p_len map)
  && (window_start + window_size >=? p_offset map + p_len map).

(** Where the read for a request starts. *)
Definition read_start_of (map : hs_map) (offset len : Z) : Z :=
  let window_start := window_start_of offset in
  let window_size := window_size_of offset len window_start in
  if reuses map window_start window_size
  then p_offset map + p_len map
  else window_start.

(** [_hs_map_ptr(map, offset, &len, &reached_eof)].  [abort()] and a failed
    [assert] end the process: [Abort].  The read loop gets as many rounds as
    it has bytes to read, which is enough since every round but the last
    transfers at least one byte.  (A window that is the null pointer and is
    not grown stays null; writing through it is undefined in C and does not
    happen in the states a caller can reach.) *)
Definition _hs_map_ptr (os : os_state) (map : hs_map) (offset len : Z)
  : outcome :=
  if negb (tag map =? HS_MAP_TAG) then Abort AssertFailure else
  (* *reached_eof = 0 *)
  if len =? 0 then
    Return {| r_ptr := NullPtr; r_len := len; r_eof := false;
              r_errno := Some EINVAL |} map os
  else if resident map offset len then
    Return {| r_ptr := ptr_add (p map) (offset - p_offset map);
              r_len := len; r_eof := false; r_errno := None |} map os
  else
    let window_start := window_start_of offset in
    let window_size := window_size_of offset len window_start in
    (* make sure we have allocated enough memory for the window *)
    let grown :=
      if window_size >? p_size map
      then match realloc os (p map) window_size with
           | Some q => Some (Some q, window_size)
           | None => None
           end
      else Some (p map, p_size map) in
    match grown with
    | None => Abort OutOfMemory
    | Some (p1, p_size1) =>
        let buf1 := match p1 with Some f => f | None => fun _ => x00 end in
        (* reuse bytes from the previous buffer *)
        let '(read_start, read_offset, read_size, buf2) :=
          if reuses map window_start window_size then
            let read_start := p_offset map + p_len map in
            let read_offset := to_int (read_start - window_start) in
            let read_size := window_size - read_offset in
            (read_start, read_offset, read_size,
             memmove buf1 0 (p_len map - read_offset) read_offset)
          else (window_start, 0, window_size, buf1) in
        let p2 := match p1 with Some _ => Some buf2 | None => None end in
        if read_size <=? 0 then
          Return {| r_ptr := NullPtr; r_len := len; r_eof := false;
                    r_errno := None |}
                 {| tag := tag map; p := p2; fd := fd map; p_size := p_size1;
                    p_len := p_len map; p_offset := p_offset map;
                    p_fd_offset := p_fd_offset map |}
                 os
        else
          let sought :=
            if negb (p_fd_offset map =? read_start)
            then let '(r, os1) := sys_lseek os read_start in
                 if negb (r =? read_start) then None
                 else Some (os1, read_start)
            else Some (os, p_fd_offset map) in
          match sought with
          | None => Abort SeekFailure
          | Some (os1, p_fd_offset1) =>
              match fill (Z.to_nat read_size) os1 buf2
                         read_offset read_size 0 with
              | None => Unfinished
              | Some (os2, buf3, total_read, eof) =>
                  let p_len3 := read_offset + total_read in
                  let map3 :=
                    {| tag := tag map;
                       p := match p1 with Some _ => Some buf3 | None => None end;
                       fd := fd map; p_size := p_size1;
                       p_len := p_len3; p_offset := window_start;
                       p_fd_offset := p_fd_offset1 + total_read |} in
                  if (total_read =? read_size) && negb (p_len3 =? window_size)
                  then Abort AssertFailure
                  else
                    let avail :=
                      to_int (p_len3 - (offset - window_start)) in
                    let len' := if avail <? len then avail else len in
                    Return {| r_ptr := ptr_add (p map3) (offset - window_start);
                              r_len := len'; r_eof := eof; r_errno := None |}
                           map3 os2
              end
          end
    end.

(** ** Sequences of calls *)

Record call : Type := { c_offset : Z; c_len : Z }.

(** The state after a sequence of calls, when every one of them returns. *)
Fixpoint run (os : os_state) (map : hs_map) (calls : list call)
  : option (os_state * hs_map) :=
  match calls with
  | [] => Some (os, map)
  | c :: rest =>
      match _hs_map_ptr os map (c_offset c) (c_len c) with
      | Return _ map' os' => run os' map' rest
      | _ => None
      end
  end.

(** The first call of a sequence that does not return, if there is one. *)
Fixpoint first_failure (os : os_state) (map : hs_map) (calls : list call)
  : option outcome :=
  match calls with
  | [] => None
  | c :: rest =>
      match _hs_map_ptr os map (c_offset c) (c_len c) with
      | Return _ map' os' => first_failure os' map' rest
      | o => Some o
      end
  end.

(** The calling contract of the header comment: the caller never moves
    backwards and never skips forwards without reading.  [lo] is the last
    requested offset and [hw] the end of the data handed out so far. *)
Fixpoint forward_only (lo hw : Z) (os : os_state) (map : hs_map)
         (calls : list call) : bool :=
  match calls with
  | [] => true
  | c :: rest =>
      (lo <=? c_offset c) && (c_offset c <=? hw)
      && match _hs_map_ptr os map (c_offset c) (c_len c) with
         | Return r map' os' =>
             forward_only (c_offset c)
                          (match r_ptr r with
                           | NullPtr => hw
                           | _ => Z.max hw (c_offset c + r_len r)
                           end)
                          os' map' rest
         | _ => true
         end
  end.

(** The arguments a caller can pass: a position in the file and an [int]. *)
Definition call_ok (c : call) : bool :=
  (0 <=? c_offset c) && (INT_MIN <=? c_len c) && (c_len c <=? INT_MAX).

(** The longest request whose window size fits an [int] at every offset. *)
Definition LEN_MAX : Z := INT_MAX - 3 * CHUNK_SIZE.

Definition script_clean (script : list read_ev) : bool :=
  forallb (fun e => match e with ReadFails => false | ReadAtMost _ => true end)
          script.

(** How many of the logged reads transferred the source byte at [x]. *)
Definition covers (e : rd_entry) (x : Z) : bool :=
  (rd_pos e <=? x) && (x <? rd_pos e + rd_ret e).

Definition times_read (log : list rd_entry) (x : Z) : nat :=
  length (filter (fun e => covers e x) log).


(** ** Invariants of the window *)

(** The descriptor still reads the same source. *)
Definition same_source (os os' : os_state) : Prop :=
  fd_data os' = fd_data os /\ fd_size os' = fd_size os /\
  fd_seekable os' = fd_seekable os /\ heap_limit os' = heap_limit os.

(** The resident region holds the bytes of the source at its place, and the
    stored cursor is the cursor of the descriptor. *)
Definition map_ok (os : os_state) (map : hs_map) : Prop :=
  tag map = HS_MAP_TAG /\
  0 <= p_offset map /\
  0 <= p_len map <= INT_MAX /\
  p_fd_offset map = fd_pos os /\
  (p map = None -> p_size map = 0 /\ p_len map = 0) /\
  forall i, 0 <= i < p_len map ->
            p_offset map + i < fd_size os /\
            buffer map i = fd_data os (p_offset map + i).

(** No byte of the source was transferred twice, and none at or after the
    cursor was transferred at all. *)
Definition read_once (os : os_state) : Prop :=
  forall x, (times_read (fd_reads os) x <= 1)%nat /\
            (fd_pos os <= x -> times_read (fd_reads os) x = 0%nat).

(** The state of a reader that kept to the calling contract: it never had
    to seek, the cursor is at the end of the resident region, and what was
    handed out ([hw]) lies inside what was read. *)
Definition sequential (os : os_state) (map : hs_map) (lo hw : Z) : Prop :=
  fd_seeks os = [] /\ read_once os /\
  p_fd_offset map = p_offset map + p_len map /\
  p_offset map <= window_start_of lo /\
  0 <= lo <= hw /\ hw <= p_offset map + p_len map.

(** ** A concrete scenario: a pipe carrying 100 bytes *)

Definition demo_data : Z -> byte :=
  fun i => match Byte.of_N (Z.to_N (i mod 256)) with
           | Some b => b
           | None => x00
           end.

Definition demo_os (script : list read_ev) : os_state :=
  open_fd demo_data 100 false (1024 * 1024) script.

Definition reply_of (o : outcome) : reply :=
  match o with
  | Return r _ _ => r
  | _ => {| r_ptr := NullPtr; r_len := 0; r_eof := false; r_errno := None |}
  end.

Definition map_of (o : outcome) : hs_map :=
  match o with Return _ map _ => map | _ => _hs_map_file 0 end.

Definition os_of (o : outcome) : os_state :=
  match o with Return _ _ os => os | _ => demo_os [] end.

(** The first ten bytes are requested, then ten bytes at offset 95. *)
Definition demo_first : outcome :=
  _hs_map_ptr (demo_os []) (_hs_map_file 3) 0 10.

Definition demo_second : outcome :=
  _hs_map_ptr (os_of demo_first) (map_of demo_first) 95 10.

Definition returned (o : outcome) : bool :=
  match o with Return _ _ _ => true | _ => false end.

Definition ran (o : option (os_state * hs_map)) : bool :=
  match o with Some _ => true | None => false end.

(** What the caller sees of an outcome. *)
Definition summary (o : outcome) : option (cptr * Z * bool * option errno_t) :=
  match o with
  | Return r _ _ => Some (r_ptr r, r_len r, r_eof r, r_errno r)
  | _ => None
  end.

(** After the first call the 100 bytes are resident and the end of input was
    seen.  Further requests on that state: *)
Definition demo_again : outcome :=      (* inside the resident window *)
  _hs_map_ptr (os_of demo_first) (map_of demo_first) 5 10.

Definition demo_beyond : outcome :=     (* starting past the end *)
  _hs_map_ptr (os_of demo_first) (map_of demo_first) 150 10.

Definition demo_negative : outcome :=   (* a negative length *)
  _hs_map_ptr (os_of demo_first) (map_of demo_first) 0 (-5).

Definition demo_negative_read : outcome :=
  _hs_map_ptr (os_of demo_first) (map_of demo_first) 200 (-5).

(** A request near the end of the source on a fresh window. *)
Definition demo_near : outcome :=
  _hs_map_ptr (demo_os []) (_hs_map_file 3) 95 10.

(** Descriptors whose reads fail: at once, or after 50 bytes. *)
Definition demo_failing : outcome :=
  _hs_map_ptr (demo_os [ReadFails]) (_hs_map_file 3) 0 10.

Definition demo_failing_late : outcome :=
  _hs_map_ptr (demo_os [ReadAtMost 50; ReadFails]) (_hs_map_file 3) 0 10.

(** ** A concrete scenario: a pipe carrying 600000 bytes, read forwards
    with short reads, so that the window has to slide *)

Definition big_os : os_state :=
  open_fd demo_data 600000 false (1024 * 1024)
          [ReadAtMost 4096; ReadAtMost 1; ReadAtMost 100000].

Definition big_calls : list call :=
  [ {| c_offset := 0; c_len := 1000 |};
    {| c_offset := 1000; c_len := 262144 |};
    {| c_offset := 200000; c_len := 100000 |} ].

Definition big_state : os_state * hs_map :=
  match run big_os (_hs_map_file 3) big_calls with
  | Some s => s
  | None => (big_os, _hs_map_file 3)
  end.

Definition big_next : outcome :=
  _hs_map_ptr (fst big_state) (snd big_state) 299000 150000.

(* ================================================================== *)
(** * Part II: definitions for [readsums.c]                            *)
(* ================================================================== *)

(** ** Results, states, the signature and the job *)

(** The values of [rs_result] the loader uses. *)
Inductive rs_result : Type :=
| RS_DONE
| RS_BLOCKED
| RS_RUNNING
| RS_INPUT_ENDED
| RS_CORRUPT.

(** [job->statefn] points at one of the five state functions below. *)
Inductive rs_statefn : Type :=
| S_MAGIC
| S_BLOCKLEN
| S_STRONGLEN
| S_WEAK
| S_STRONG.

Record rs_signature : Type := {
  sig_magic          : Z;
  sig_block_len      : Z;
  sig_strong_sum_len : Z;
  sig_size           : Z;                     (* the pre-sizing hint *)
  sig_blocks         : list (Z * list byte)   (* (weak, strong), in order *)
}.

Record rs_job : Type := {
  statefn          : rs_statefn;
  magic            : Z;
  block_len        : Z;
  strong_sum_len   : Z;
  weak_sig         : Z;
  sig_file_bytes   : Z;
  signature        : rs_signature;
  stats_sig_blocks : Z;
  stats_block_len  : Z;
  (* the input side of the job engine, from the specification (3, 4.2) *)
  input            : list byte;     (* bytes supplied and not yet consumed *)
  eof_in           : bool;          (* the supplier said: no more input *)
  consumed         : Z;             (* count of the bytes consumed *)
  final            : option rs_result   (* set once the job has ended *)
}.

Definition set_input (job : rs_job) (bs : list byte) (eof : bool) (n : Z)
  : rs_job :=
  {| statefn := statefn job; magic := magic job; block_len := block_len job;
     strong_sum_len := strong_sum_len job; weak_sig := weak_sig job;
     sig_file_bytes := sig_file_bytes job; signature := signature job;
     stats_sig_blocks := stats_sig_blocks job;
     stats_block_len := stats_block_len job;
     input := bs; eof_in := eof; consumed := n; final := final job |}.

Definition set_final (job : rs_job) (r : rs_result) : rs_job :=
  {| statefn := statefn job; magic := magic job; block_len := block_len job;
     strong_sum_len := strong_sum_len job; weak_sig := weak_sig job;
     sig_file_bytes := sig_file_bytes job; signature := signature job;
     stats_sig_blocks := stats_sig_blocks job;
     stats_block_len := stats_block_len job;
     input := input job; eof_in := eof_in job; consumed := consumed job;
     final := Some r |}.

(** ** The collaborators of [readsums.c] that are not in these sources *)

(** Modelled from the spec: [rs_scoop_read], the scoop primitive of the job
    engine (specification 4.2): "scoop(n) -> exactly n contiguous bytes, or
    blocked, or input-ended-cleanly-at-a-boundary"; zero available bytes at
    the end of the input is the clean end, some but not enough available
    bytes is always blocked. *)
Definition rs_scoop_read (job : rs_job) (len : Z)
  : rs_result * list byte * rs_job :=
  if (0 <=? len) && (len <=? Z.of_nat (length (input job))) then
    (RS_DONE, firstn (Z.to_nat len) (input job),
     set_input job (skipn (Z.to_nat len) (input job)) (eof_in job)
               (consumed job + len))
  else
    match input job with
    | _ :: _ => (RS_BLOCKED, [], job)
    | [] => if eof_in job then (RS_INPUT_ENDED, [], job)
            else (RS_BLOCKED, [], job)
    end.

(** A big-endian unsigned integer. *)
Definition be_decode (bs : list byte) : Z :=
  fold_left (fun acc b => acc * 256 + Z.of_N (Byte.to_N b)) bs 0.

(** Modelled from the spec: [rs_suck_n4], "a 4-byte unsigned-integer suck
    helper, a specialization [of the scoop] used for every length/magic
    field"; the integers are big-endian (specification 6).  The callers
    receive the value in an [int]. *)
Definition rs_suck_n4 (job : rs_job) : rs_result * Z * rs_job :=
  match rs_scoop_read job 4 with
  | (RS_DONE, bs, job') => (RS_DONE, to_int (be_decode bs), job')
  | (result, _, job') => (result, 0, job')
  end.

(** Modelled from the spec: [rs_signature_init], which "initializes
    signature table (using an optional total-byte-count hint to estimate
    record count for pre-sizing)". *)
Definition rs_signature_init (sig : rs_signature)
           (magic0 block_len0 strong_sum_len0 sig_fsize : Z)
  : rs_result * rs_signature :=
  (RS_DONE,
   {| sig_magic := magic0; sig_block_len := block_len0;
      sig_strong_sum_len := strong_sum_len0; sig_size := sig_fsize;
      sig_blocks := [] |}).

(** Modelled from the spec: [rs_signature_add_block], the append operation
    of the signature table, "one per decoded block". *)
Definition rs_signature_add_block (sig : rs_signature) (weak_sum : Z)
           (strong_sum : list byte) : rs_signature :=
  {| sig_magic := sig_magic sig; sig_block_len := sig_block_len sig;
     sig_strong_sum_len := sig_strong_sum_len sig; sig_size := sig_size sig;
     sig_blocks := sig_blocks sig ++ [(weak_sum, strong_sum)] |}.

(** ** The state functions of [readsums.c]

    [RS_MAX_STRONG_SUM_LENGTH] is declared outside these sources and is a
    parameter here.  [rs_weak_sum_t], the type of [job->weak_sig], is
    declared outside these sources too; following the specification it is
    an unsigned 32-bit value.  The tracing calls are left out. *)

Definition rs_loadsig_s_weak (job : rs_job) : rs_result * rs_job :=
  match rs_suck_n4 job with
  | (RS_DONE, l, job1) =>
      (RS_RUNNING,
       {| statefn := S_STRONG; magic := magic job1;
          block_len := block_len job1; strong_sum_len := strong_sum_len job1;
          weak_sig := l mod 2 ^ 32;
          sig_file_bytes := sig_file_bytes job1; signature := signature job1;
          stats_sig_blocks := stats_sig_blocks job1;
          stats_block_len := stats_block_len job1;
          input := input job1; eof_in := eof_in job1;
          consumed := consumed job1; final := final job1 |})
  | (RS_INPUT_ENDED, _, job1) => (RS_DONE, job1)   (* ending here is OK *)
  | (result, _, job1) => (result, job1)
  end.

Definition rs_loadsig_s_strong (job : rs_job) : rs_result * rs_job :=
  match rs_scoop_read job (sig_strong_sum_len (signature job)) with
  | (RS_DONE, strong_sum, job1) =>
      (RS_RUNNING,
       {| statefn := S_WEAK; magic := magic job1;
          block_len := block_len job1; strong_sum_len := strong_sum_len job1;
          weak_sig := weak_sig job1;
          sig_file_bytes := sig_file_bytes job1;
          signature := rs_signature_add_block (signature job1)
                                              (weak_sig job1) strong_sum;
          stats_sig_blocks := stats_sig_blocks job1 + 1;
          stats_block_len := stats_block_len job1;
          input := input job1; eof_in := eof_in job1;
          consumed := consumed job1; final := final job1 |})
  | (result, _, job1) => (result, job1)
  end.

Definition rs_loadsig_s_stronglen (RS_MAX_STRONG_SUM_LENGTH : Z)
           (job : rs_job) : rs_result * rs_job :=
  match rs_suck_n4 job with
  | (RS_DONE, l, job1) =>
      if (l <? 0) || (l >? RS_MAX_STRONG_SUM_LENGTH) then (RS_CORRUPT, job1)
      else
        let strong_sum_len1 := l in
        (* estimate the number of blocks if we know the sig filesize;
           the quotient is assigned to the [int] l *)
        let l := to_int (if sig_file_bytes job1 =? 0 then 0
                         else Z.quot (sig_file_bytes job1 - 12)
                                     (4 + strong_sum_len1)) in
        match rs_signature_init (signature job1) (magic job1)
                                (block_len job1) strong_sum_len1 l with
        | (RS_DONE, sig) =>
            (RS_RUNNING,
             {| statefn := S_WEAK; magic := magic job1;
                block_len := block_len job1;
                strong_sum_len := strong_sum_len1;
                weak_sig := weak_sig job1;
                sig_file_bytes := sig_file_bytes job1; signature := sig;
                stats_sig_blocks := stats_sig_blocks job1;
                stats_block_len := stats_block_len job1;
                input := input job1; eof_in := eof_in job1;
                consumed := consumed job1; final := final job1 |})
        | (result, _) =>
            (result,
             {| statefn := statefn job1; magic := magic job1;
                block_len := block_len job1;
                strong_sum_len := strong_sum_len1;
                weak_sig := weak_sig job1;
                sig_file_bytes := sig_file_bytes job1;
                signature := signature job1;
                stats_sig_blocks := stats_sig_blocks job1;
                stats_block_len := stats_block_len job1;
                input := input job1; eof_in := eof_in job1;
                consumed := consumed job1; final := final job1 |})
        end
  | (result, _, job1) => (result, job1)
  end.

Definition rs_loadsig_s_blocklen (job : rs_job) : rs_result * rs_job :=
  match rs_suck_n4 job with
  | (RS_DONE, l, job1) =>
      if l <? 1 then (RS_CORRUPT, job1)
      else
        (RS_RUNNING,
         {| statefn := S_STRONGLEN; magic := magic job1;
            block_len := l; strong_sum_len := strong_sum_len job1;
            weak_sig := weak_sig job1;
            sig_file_bytes := sig_file_bytes job1;
            signature := signature job1;
            stats_sig_blocks := stats_sig_blocks job1;
            stats_block_len := l;
            input := input job1; eof_in := eof_in job1;
            consumed := consumed job1; final := final job1 |})
  | (result, _, job1) => (result, job1)
  end.

Definition rs_loadsig_s_magic (job : rs_job) : rs_result * rs_job :=
  match rs_suck_n4 job with
  | (RS_DONE, l, job1) =>
      (RS_RUNNING,
       {| statefn := S_BLOCKLEN; magic := l;
          block_len := block_len job1; strong_sum_len := strong_sum_len job1;
          weak_sig := weak_sig job1;
          sig_file_bytes := sig_file_bytes job1; signature := signature job1;
          stats_sig_blocks := stats_sig_blocks job1;
          stats_block_len := stats_block_len job1;
          input := input job1; eof_in := eof_in job1;
          consumed := consumed job1; final := final job1 |})
  | (result, _, job1) => (result, job1)
  end.

(** Modelled from the spec: [rs_job_new] and [rs_alloc_struct], which give a
    new job in its initial state and a zeroed signature. *)
Definition rs_loadsig_begin : rs_job :=
  {| statefn := S_MAGIC; magic := 0; block_len := 0; strong_sum_len := 0;
     weak_sig := 0; sig_file_bytes := 0;
     signature := {| sig_magic := 0; sig_block_len := 0;
                     sig_strong_sum_len := 0; sig_size := 0;
                     sig_blocks := [] |};
     stats_sig_blocks := 0; stats_block_len := 0;
     input := []; eof_in := false; consumed := 0; final := None |}.

(** The caller may tell the job the total byte count of the signature
    source ([job->sig_file_bytes]). *)
Definition set_sig_file_bytes (job : rs_job) (n : Z) : rs_job :=
  {| statefn := statefn job; magic := magic job; block_len := block_len job;
     strong_sum_len := strong_sum_len job; weak_sig := weak_sig job;
     sig_file_bytes := n; signature := signature job;
     stats_sig_blocks := stats_sig_blocks job;
     stats_block_len := stats_block_len job;
     input := input job; eof_in := eof_in job; consumed := consumed job;
     final := final job |}.

(** ** The job engine

    Modelled from the spec (4.2, 7): the engine "exposes one operation,
    drive one step, which invokes the function bound to the job's current
    state exactly once per call"; a result other than running or blocked
    ends the job for good.  The caller passes in newly available input and
    advances the job, which runs steps until one does not report running. *)

(** The call through the function pointer [job->statefn]. *)
Definition rs_job_statefn (RS_MAX_STRONG_SUM_LENGTH : Z) (s : rs_statefn)
  : rs_job -> rs_result * rs_job :=
  match s with
  | S_MAGIC => rs_loadsig_s_magic
  | S_BLOCKLEN => rs_loadsig_s_blocklen
  | S_STRONGLEN => rs_loadsig_s_stronglen RS_MAX_STRONG_SUM_LENGTH
  | S_WEAK => rs_loadsig_s_weak
  | S_STRONG => rs_loadsig_s_strong
  end.

(** Modelled from the spec: the engine's "drive one step" (4.2).  The state
    function runs once; a job that has ended reports its result again
    ("the job becomes permanently failed"). *)
Definition rs_job_step (RS_MAX_STRONG_SUM_LENGTH : Z) (job : rs_job)
  : rs_result * rs_job :=
  match final job with
  | Some r => (r, job)
  | None =>
      let '(r, job') :=
        rs_job_statefn RS_MAX_STRONG_SUM_LENGTH (statefn job) job in
      match r with
      | RS_RUNNING | RS_BLOCKED => (r, job')
      | _ => (r, set_final job' r)
      end
  end.

(** Modelled from the spec: the engine "drives state transitions until
    input is exhausted, an error occurs, or the job completes" (2): steps
    are taken while they report running. *)
Fixpoint rs_job_steps (RS_MAX_STRONG_SUM_LENGTH : Z) (fuel : nat)
         (job : rs_job) : rs_result * rs_job :=
  match fuel with
  | O => (RS_RUNNING, job)
  | S fuel' =>
      let '(r, job') := rs_job_step RS_MAX_STRONG_SUM_LENGTH job in
      match r with
      | RS_RUNNING => rs_job_steps RS_MAX_STRONG_SUM_LENGTH fuel' job'
      | _ => (r, job')
      end
  end.

(** Every running step but one in two consumes input, so this many steps
    are enough ([rs_job_iter_ends]). *)
Definition steps_bound (job : rs_job) : nat := 2 * length (input job) + 2.

(** Modelled from the spec: one external "advance" call on the job (3). *)
Definition rs_job_iter (RS_MAX_STRONG_SUM_LENGTH : Z) (job : rs_job)
  : rs_result * rs_job :=
  rs_job_steps RS_MAX_STRONG_SUM_LENGTH (steps_bound job) job.

(** Modelled from the spec: the caller "passes in newly available input"
    (3), and says whether the input ends with it. *)
Definition rs_job_feed (bs : list byte) (eof : bool) (job : rs_job)
  : rs_job :=
  set_input job (input job ++ bs) eof (consumed job).

(** ** Loading a signature from a stream, in one piece or in pieces *)

Definition load_whole (RS_MAX_STRONG_SUM_LENGTH : Z) (job : rs_job)
           (bytes : list byte) : rs_result * rs_job :=
  rs_job_iter RS_MAX_STRONG_SUM_LENGTH (rs_job_feed bytes true job).

(** The job after each of the pieces was passed in and the job advanced. *)
Fixpoint feed_pieces (RS_MAX_STRONG_SUM_LENGTH : Z) (job : rs_job)
         (pieces : list (list byte)) : rs_job :=
  match pieces with
  | [] => job
  | bs :: rest =>
      feed_pieces RS_MAX_STRONG_SUM_LENGTH
        (snd (rs_job_iter RS_MAX_STRONG_SUM_LENGTH
                          (rs_job_feed bs false job)))
        rest
  end.

Definition load_pieces (RS_MAX_STRONG_SUM_LENGTH : Z) (job : rs_job)
           (pieces : list (list byte)) : rs_result * rs_job :=
  rs_job_iter RS_MAX_STRONG_SUM_LENGTH
    (rs_job_feed [] true (feed_pieces RS_MAX_STRONG_SUM_LENGTH job pieces)).

Definition load_bytewise (RS_MAX_STRONG_SUM_LENGTH : Z) (job : rs_job)
           (bytes : list byte) : rs_result * rs_job :=
  load_pieces RS_MAX_STRONG_SUM_LENGTH job (map (fun b => [b]) bytes).

(** ** The wire format (specification 6) *)

Definition byte_of (z : Z) : byte :=
  match Byte.of_N (Z.to_N (z mod 256)) with
  | Some b => b
  | None => x00
  end.

(** Four bytes, big-endian, of the low 32 bits of [v]. *)
Definition n4 (v : Z) : list byte :=
  let u := v mod 2 ^ 32 in
  [byte_of (u / 2 ^ 24); byte_of (u / 2 ^ 16); byte_of (u / 2 ^ 8);
   byte_of u].

Definition wire_blocks (blocks : list (Z * list byte)) : list byte :=
  flat_map (fun b => n4 (fst b) ++ snd b) blocks.

Definition wire_signature (sig : rs_signature) : list byte :=
  n4 (sig_magic sig) ++ n4 (sig_block_len sig)
  ++ n4 (sig_strong_sum_len sig) ++ wire_blocks (sig_blocks sig).

(** A signature table as the specification constrains it. *)
Definition sig_ok (RS_MAX_STRONG_SUM_LENGTH : Z) (sig : rs_signature)
  : Prop :=
  INT_MIN <= sig_magic sig <= INT_MAX /\
  1 <= sig_block_len sig <= INT_MAX /\
  0 <= sig_strong_sum_len sig <= RS_MAX_STRONG_SUM_LENGTH /\
  sig_strong_sum_len sig <= INT_MAX /\
  Forall (fun b => 0 <= fst b < 2 ^ 32 /\
                   Z.of_nat (length (snd b)) = sig_strong_sum_len sig)
         (sig_blocks sig).

(** The stream read so far, recovered from the state of the job. *)
Definition parsed (job : rs_job) : list byte :=
  match statefn job with
  | S_MAGIC => []
  | S_BLOCKLEN => n4 (magic job)
  | S_STRONGLEN => n4 (magic job) ++ n4 (block_len job)
  | S_WEAK => wire_signature (signature job)
  | S_STRONG => wire_signature (signature job) ++ n4 (weak_sig job)
  end.

(** The order of the states. *)
Definition next_state (s : rs_statefn) : rs_statefn :=
  match s with
  | S_MAGIC => S_BLOCKLEN
  | S_BLOCKLEN => S_STRONGLEN
  | S_STRONGLEN => S_WEAK
  | S_WEAK => S_STRONG
  | S_STRONG => S_WEAK
  end.

(** The signature of the specification's round-trip test. *)
Definition demo_sig : rs_signature :=
  {| sig_magic := 0x72730136; sig_block_len := 700;
     sig_strong_sum_len := 16; sig_size := 0;
     sig_blocks := [ (0x1, repeat x30 16); (0x2, repeat x31 16) ] |}.

(** ** Advancing a job, as a relation

    [runs MAX job r job']: steps from [job] report running until one
    reports [r], which is not running, and leaves [job']. *)
Inductive runs (RS_MAX_STRONG_SUM_LENGTH : Z)
  : rs_job -> rs_result -> rs_job -> Prop :=
| runs_stop job r job' :
    rs_job_step RS_MAX_STRONG_SUM_LENGTH job = (r, job') ->
    r <> RS_RUNNING ->
    runs RS_MAX_STRONG_SUM_LENGTH job r job'
| runs_step job job1 r job' :
    rs_job_step RS_MAX_STRONG_SUM_LENGTH job = (RS_RUNNING, job1) ->
    runs RS_MAX_STRONG_SUM_LENGTH job1 r job' ->
    runs RS_MAX_STRONG_SUM_LENGTH job r job'.

(** The pre-sizing hint computed by [rs_loadsig_s_stronglen], as stored in
    its [int l]. *)
Definition size_hint (sig_fsize strong_sum_len0 : Z) : Z :=
  to_int (if sig_fsize =? 0 then 0
          else Z.quot (sig_fsize - 12) (4 + strong_sum_len0)).

Definition with_size (sig : rs_signature) (n : Z) : rs_signature :=
  {| sig_magic := sig_magic sig; sig_block_len := sig_block_len sig;
     sig_strong_sum_len := sig_strong_sum_len sig; sig_size := n;
     sig_blocks := sig_blocks sig |}.

(** What the loader has verified of the table it is filling. *)
Definition table_ok (RS_MAX_STRONG_SUM_LENGTH : Z) (sig : rs_signature)
  : Prop :=
  1 <= sig_block_len sig /\
  0 <= sig_strong_sum_len sig <= RS_MAX_STRONG_SUM_LENGTH /\
  Forall (fun b => Z.of_nat (length (snd b)) = sig_strong_sum_len sig)
         (sig_blocks sig).

(** A measure that every running step decreases. *)
Definition potential (job : rs_job) : nat :=
  2 * length (input job)
  + match statefn job with S_STRONG => 1 | _ => 0 end.

(** The input read so far is the encoding of what the job holds, and what
    the job holds was validated. *)
Definition faithful (RS_MAX_STRONG_SUM_LENGTH : Z) (all : list byte)
           (job : rs_job) : Prop :=
  parsed job ++ input job = all /\
  match statefn job with
  | S_MAGIC | S_BLOCKLEN => True
  | S_STRONGLEN => 1 <= block_len job
  | S_WEAK | S_STRONG => table_ok RS_MAX_STRONG_SUM_LENGTH (signature job)
  end.

(** A job that has failed for good: it reports the failure again, whatever
    input it is given, and changes no more. *)
Definition failed_for_good (RS_MAX_STRONG_SUM_LENGTH : Z) (r : rs_result)
           (job : rs_job) : Prop :=
  final job = Some r /\
  forall more e,
    rs_job_iter RS_MAX_STRONG_SUM_LENGTH (rs_job_feed more e job)
    = (r, rs_job_feed more e job).


(* ================================================================== *)
(** * Part III: definitions for the further properties of [mapptr.c]   *)
(* ================================================================== *)

(** ** [_hs_unmap_file]

    The calls it makes to [free], in order: [free(map->p)] when the window
    was allocated, and [free(map)] after [memset] has zeroed the structure.
    [None] is the failed assertion on the tag.  Once it has returned, the
    structure is released: there is no mapping left to pass to another
    call. *)

Inductive free_ev : Type :=
| FreeWindow (contents : memory)   (* free(map->p) *)
| FreeMap (contents : hs_map).     (* free(map), with [*map] as it is then *)

(** [*map] after [map->p = NULL] and [memset(map, 0, sizeof *map)]. *)
Definition zeroed_map : hs_map :=
  {| tag := 0; p := None; fd := 0; p_size := 0; p_len := 0; p_offset := 0;
     p_fd_offset := 0 |}.

Definition _hs_unmap_file (map : hs_map) : option (list free_ev) :=
  if negb (tag map =? HS_MAP_TAG) then None
  else
    Some ((match p map with
           | Some f => [FreeWindow f]
           | None => []
           end) ++ [FreeMap zeroed_map]).

(** ** More invariants of the window *)

(** The valid bytes fit the allocation, which is either absent or at least
    [MAX_MAP_SIZE] long, and the cursor stands at the end of the window. *)
Definition window_fits (map : hs_map) : Prop :=
  0 <= p_len map <= p_size map /\
  (p map = None /\ p_size map = 0 \/
   p map <> None /\ MAX_MAP_SIZE <= p_size map) /\
  p_fd_offset map = p_offset map + p_len map.

(** Every [read] issued asked for a positive count that fits an [int], and
    returned -1 or no more than it was asked for. *)
Definition read_sane (e : rd_entry) : Prop :=
  0 < rd_count e <= INT_MAX /\ -1 <= rd_ret e <= rd_count e.

(** The window size a request needs when it fits an [int]. *)
Definition window_need (offset len : Z) : Z :=
  Z.max MAX_MAP_SIZE (offset + len - window_start_of offset).

(** The largest window a caller whose requests are at most [L] long can
    make the code allocate. *)
Definition window_bound (L : Z) : Z :=
  Z.max MAX_MAP_SIZE (L + 3 * CHUNK_SIZE).

(** A request of length at most [L]. *)
Definition len_at_most (L : Z) (c : call) : bool := c_len c <=? L.

(** The state of the window and of the read log after any calls. *)
Definition steady (os : os_state) (map : hs_map) : Prop :=
  map_ok os map /\ window_fits map /\ Forall read_sane (fd_reads os).

(** ** More scenarios *)




(** The call sequence of [demo_first]. *)
Definition demo_calls : list call := [ {| c_offset := 0; c_len := 10 |} ].

(** A seekable file of 600000 bytes read out of order, with one short
    read. *)
Definition disk_os : os_state :=
  open_fd demo_data 600000 true (1024 * 1024) [ReadAtMost 4096].

Definition disk_calls : list call :=
  [ {| c_offset := 300000; c_len := 100 |};
    {| c_offset := 0; c_len := 100 |};
    {| c_offset := 599990; c_len := 100 |} ].

(** On the pipe of [demo_first], a request far ahead of the window. *)
Definition demo_skip : outcome :=
  _hs_map_ptr (os_of demo_first) (map_of demo_first) 200000 10.

(** On a fresh window, a request too long for an [int] window size. *)
Definition demo_oversize : outcome :=
  _hs_map_ptr (demo_os []) (_hs_map_file 3) 100 INT_MAX.

(* ================================================================== *)
(** * Part IV: definitions for the further properties of [readsums.c]  *)
(* ================================================================== *)

(** ** What the job records about the table

    The header fields the job keeps are those it passed to
    [rs_signature_init], with the pre-sizing estimate computed from
    [sig_file_bytes], and [stats.sig_blocks] counts the records added. *)
Definition booked (job : rs_job) : Prop :=
  match statefn job with
  | S_MAGIC | S_BLOCKLEN => stats_sig_blocks job = 0
  | S_STRONGLEN =>
      stats_sig_blocks job = 0 /\ stats_block_len job = block_len job
  | S_WEAK | S_STRONG =>
      sig_magic (signature job) = magic job /\
      sig_block_len (signature job) = block_len job /\
      sig_strong_sum_len (signature job) = strong_sum_len job /\
      sig_size (signature job)
      = size_hint (sig_file_bytes job) (strong_sum_len job) /\
      stats_block_len job = block_len job /\
      stats_sig_blocks job = Z.of_nat (length (sig_blocks (signature job)))
  end.

(** The stream of [demo_sig] in two pieces, cut inside the first record,
    loaded with [sig_file_bytes] set to its length; and in one piece. *)
Definition demo_pieces : list (list byte) :=
  [ firstn 20 (wire_signature demo_sig); skipn 20 (wire_signature demo_sig) ].

Definition demo_loaded : rs_result * rs_job :=
  load_pieces 32 (set_sig_file_bytes rs_loadsig_begin 52) demo_pieces.

Definition demo_whole : rs_result * rs_job :=
  load_whole 32
    (set_sig_file_bytes rs_loadsig_begin
                        (Z.of_nat (length (wire_signature demo_sig))))
    (wire_signature demo_sig).

(* ================================================================== *)
(** * Part I: properties of [_hs_map_ptr]                              *)
(* ================================================================== *)

(** ** Integers and the window geometry *)

Lemma to_int_small z : INT_MIN <= z <= INT_MAX -> to_int z = z.
Proof.
  unfold to_int, INT_MIN, INT_MAX. intros H.
  rewrite Z.mod_small by lia. lia.
Qed.

Lemma chunk_mask x :
  Z.land x (Z.lnot (CHUNK_SIZE - 1)) = CHUNK_SIZE * (x / CHUNK_SIZE).
Proof.
  change (CHUNK_SIZE - 1) with (Z.ones 15).
  rewrite <- Z.ldiff_land, Z.ldiff_ones_r by lia.
  rewrite Z.shiftl_mul_pow2, Z.shiftr_div_pow2 by lia.
  change (2 ^ 15) with CHUNK_SIZE. lia.
Qed.

Lemma window_start_nonneg offset : 0 <= window_start_of offset.
Proof.
  unfold window_start_of. destruct (Z.gtb_spec offset (2 * CHUNK_SIZE)); [|lia].
  rewrite chunk_mask. unfold CHUNK_SIZE in *.
  assert (0 <= (offset - 2 * (32 * 1024)) / (32 * 1024))
    by (apply Z.div_pos; lia).
  lia.
Qed.

Lemma window_start_le offset :
  0 <= offset ->
  window_start_of offset <= offset < window_start_of offset + 3 * CHUNK_SIZE.
Proof.
  intros H. unfold window_start_of.
  destruct (Z.gtb_spec offset (2 * CHUNK_SIZE)).
  - rewrite chunk_mask. unfold CHUNK_SIZE in *.
    pose proof (Z.mul_div_le (offset - 2 * (32 * 1024)) (32 * 1024) eq_refl).
    pose proof (Z.mul_succ_div_gt (offset - 2 * (32 * 1024)) (32 * 1024)
                                  eq_refl).
    lia.
  - unfold CHUNK_SIZE in *. lia.
Qed.

Lemma window_start_mono o1 o2 :
  o1 <= o2 -> window_start_of o1 <= window_start_of o2.
Proof.
  intros H. unfold window_start_of.
  destruct (Z.gtb_spec o1 (2 * CHUNK_SIZE)),
           (Z.gtb_spec o2 (2 * CHUNK_SIZE)); try lia.
  - rewrite !chunk_mask.
    apply Z.mul_le_mono_nonneg_l; [unfold CHUNK_SIZE; lia|].
    apply Z.div_le_mono; unfold CHUNK_SIZE; lia.
  - fold (window_start_of o2).
    pose proof (window_start_nonneg o2) as Hn. unfold window_start_of in Hn.
    destruct (Z.gtb_spec o2 (2 * CHUNK_SIZE)); lia.
Qed.

Lemma window_size_spec offset len :
  0 <= offset ->
  offset + len - window_start_of offset <= INT_MAX ->
  let ws := window_start_of offset in
  window_size_of offset len ws = Z.max MAX_MAP_SIZE (offset + len - ws).
Proof.
  intros Ho Hl ws. unfold window_size_of. fold ws in Hl |- *.
  unfold INT_MAX, MAX_MAP_SIZE in *.
  destruct (Z.gtb_spec (offset + len) (ws + 256 * 1024)).
  - rewrite to_int_small by (unfold INT_MIN, INT_MAX; lia). lia.
  - lia.
Qed.

(** A request too long for the window size to fit an [int]. *)
Lemma window_size_overflow offset len :
  0 <= offset -> len <= INT_MAX ->
  INT_MAX < offset + len - window_start_of offset ->
  window_size_of offset len (window_start_of offset) < 0.
Proof.
  intros Ho Hl Hov. pose proof (window_start_le offset Ho) as Hws.
  unfold window_size_of, to_int, INT_MAX, MAX_MAP_SIZE, CHUNK_SIZE in *.
  destruct (Z.gtb_spec (offset + len)
                       (window_start_of offset + 256 * 1024)); [|lia].
  replace (offset + len - window_start_of offset + 2 ^ 31)
    with ((offset + len - window_start_of offset - 2 ^ 31) + 1 * 2 ^ 32)
    by lia.
  rewrite Z.mod_add by lia. rewrite Z.mod_small by lia. lia.
Qed.

(** ** The system calls *)

Ltac split_and := repeat match goal with |- _ /\ _ => split end.

Lemma same_source_refl os : same_source os os.
Proof. repeat split. Qed.

Lemma same_source_trans os1 os2 os3 :
  same_source os1 os2 -> same_source os2 os3 -> same_source os1 os3.
Proof.
  unfold same_source. intros (A & B & C & D) (A' & B' & C' & D').
  repeat split; congruence.
Qed.

Lemma sys_read_spec os buf dst count n os' buf' :
  sys_read os buf dst count = (n, os', buf') ->
  0 < count ->
  same_source os os' /\
  fd_seeks os' = fd_seeks os /\
  fd_reads os' =
    {| rd_pos := fd_pos os; rd_count := count; rd_ret := n |} :: fd_reads os /\
  (script_clean (fd_script os) = true ->
   script_clean (fd_script os') = true /\ 0 <= n) /\
  ((n = -1 /\ fd_pos os' = fd_pos os /\ buf' = buf) \/
   (0 <= n <= count /\ fd_pos os' = fd_pos os + n /\
    buf' = mem_write (fd_data os) (fd_pos os) buf dst n /\
    (n = 0 -> fd_size os <= fd_pos os) /\
    (0 < n -> fd_pos os + n <= fd_size os))).
Proof.
  unfold sys_read. intros H Hc.
  destruct (fd_script os) as [|[|k] script] eqn:Hs;
    inversion H; subst; clear H; cbn [fd_data fd_size fd_seekable heap_limit
      fd_pos fd_script fd_reads fd_seeks tl];
    (split; [repeat split|]); (split; [reflexivity|]);
    (split; [reflexivity|]).
  - split; [intros _; split; [reflexivity|lia]|]. right.
    repeat split; lia.
  - split; [cbn; discriminate|]. left. repeat split.
  - split; [cbn; intros Hcl; split; [exact Hcl|lia]|]. right.
    repeat split; lia.
Qed.

Lemma times_read_cons e log x :
  times_read (e :: log) x
  = ((if covers e x then 1 else 0) + times_read log x)%nat.
Proof. unfold times_read. cbn. destruct (covers e x); reflexivity. Qed.

Lemma read_once_read os os' count n :
  read_once os ->
  fd_reads os' =
    {| rd_pos := fd_pos os; rd_count := count; rd_ret := n |} :: fd_reads os ->
  fd_pos os' = fd_pos os + Z.max 0 n ->
  read_once os'.
Proof.
  intros Ho Hl Hp x. destruct (Ho x) as [H1 H2].
  rewrite Hl, times_read_cons. unfold covers. cbn [rd_pos rd_ret].
  destruct (Z.leb_spec (fd_pos os) x); cbn [andb].
  - rewrite (H2 ltac:(lia)).
    destruct (Z.ltb_spec x (fd_pos os + n)); split; try lia.
  - split; [lia|]. intros. lia.
Qed.

(** ** The read loop *)

Lemma fill_spec fuel : forall os buf roff rsize total os' buf' total' eof,
  0 <= total < rsize ->
  fill fuel os buf roff rsize total = Some (os', buf', total', eof) ->
  same_source os os' /\
  fd_seeks os' = fd_seeks os /\
  total <= total' <= rsize /\
  fd_pos os' = fd_pos os + (total' - total) /\
  (total < total' -> fd_pos os' <= fd_size os) /\
  (forall i, buf' i =
             if (roff + total <=? i) && (i <? roff + total')
             then fd_data os (fd_pos os + (i - (roff + total)))
             else buf i) /\
  (exists e new, fd_reads os' = e :: new ++ fd_reads os /\
                 (eof = true <-> rd_ret e = 0)) /\
  (eof = true -> fd_size os <= fd_pos os') /\
  (script_clean (fd_script os) = true ->
   script_clean (fd_script os') = true /\ (eof = false -> total' = rsize)) /\
  (read_once os -> read_once os').
Proof.
  induction fuel as [|fuel IH]; intros os buf roff rsize total os' buf' total'
    eof Ht H; [discriminate|].
  cbn [fill] in H.
  destruct (sys_read os buf (roff + total) (rsize - total))
    as [[n os1] buf1] eqn:Hr.
  destruct (sys_read_spec _ _ _ _ _ _ _ Hr ltac:(lia))
    as (Hsrc & Hsk & Hlog & Hcl & Hcase).
  assert (Hro : read_once os -> fd_pos os1 = fd_pos os + Z.max 0 n ->
                read_once os1)
    by (intros; eapply read_once_read; eauto).
  assert (Hone : exists e new, fd_reads os1 = e :: new ++ fd_reads os /\
                               rd_ret e = n).
  { eexists; exists []. cbn [app]. split; [exact Hlog|reflexivity]. }
  destruct (Z.ltb_spec n 0) as [Hneg|Hpos].
  - (* read error: break *)
    inversion H; subst; clear H.
    destruct Hcase as [(_ & Hp & Hb)|(? & _)]; [|lia]. subst buf'.
    split_and; auto; try lia.
    + intros i. destruct (Z.leb_spec (roff + total') i),
        (Z.ltb_spec i (roff + total')); cbn; try reflexivity; lia.
    + destruct Hone as (e & new & Hl & He). exists e, new.
      split; [exact Hl|]. rewrite He. split; [discriminate|lia].
    + intros Hc. apply Hcl in Hc. lia.
    + intros Ho. apply Hro; [exact Ho|lia].
  - destruct Hcase as [(? & _)|(Hn & Hp & Hb & Hz & Hin)]; [lia|].
    destruct (Z.eqb_spec n 0) as [Hn0|Hn0].
    + (* end of input *)
      inversion H; subst; clear H.
      split_and; auto; try lia.
      * intros i. unfold mem_write.
        destruct (Z.leb_spec (roff + total) i),
          (Z.ltb_spec i (roff + total + 0)),
          (Z.ltb_spec i (roff + (total + 0))); cbn; try reflexivity; lia.
      * destruct Hone as (e & new & Hl & He). exists e, new.
        split; [exact Hl|]. rewrite He. split; reflexivity.
      * intros Hc. apply Hcl in Hc. split; [tauto|discriminate].
    + destruct (Z.ltb_spec (total + n) rsize) as [Hmore|Hfull].
      * (* another round *)
        apply IH in H; [|lia].
        destruct H as (Hsrc' & Hsk' & Hbt & Hp' & Hle & Hbuf & Hlog' & Heof
                       & Hcl' & Hro').
        pose proof Hsrc as (S1 & S2 & S3 & S4).
        split; [eapply same_source_trans; eassumption|].
        split; [congruence|]. split; [lia|]. split; [lia|].
        split; [rewrite <- S2; intros; destruct (Z.eq_dec total' (total + n));
                  [lia|apply Hle; lia]|].
        split.
        { intros i. rewrite Hbuf, Hb, S1, Hp. unfold mem_write.
          destruct (Z.leb_spec (roff + (total + n)) i),
            (Z.ltb_spec i (roff + total')),
            (Z.leb_spec (roff + total) i),
            (Z.ltb_spec i (roff + total + n)); cbn; try reflexivity;
            try lia; f_equal; lia. }
        split.
        { destruct Hlog' as (e & new & Hl & He).
          exists e, (new ++ [{| rd_pos := fd_pos os;
                                rd_count := rsize - total; rd_ret := n |}]).
          split; [|exact He].
          rewrite Hl, Hlog, <- app_assoc. reflexivity. }
        split; [rewrite <- S2; exact Heof|].
        split; [intros Hc; apply Hcl in Hc; apply Hcl'; tauto|].
        intros Ho. apply Hro', Hro; [exact Ho|lia].
      * (* the window is full *)
        inversion H; subst; clear H.
        split_and; auto; try lia.
        -- intros i. unfold mem_write.
           destruct (Z.leb_spec (roff + total) i),
             (Z.ltb_spec i (roff + total + n)),
             (Z.ltb_spec i (roff + (total + n))); cbn; try reflexivity; lia.
        -- destruct Hone as (e & new & Hl & He). exists e, new.
           split; [exact Hl|]. rewrite He. split; [discriminate|lia].
        -- intros Hc. apply Hcl in Hc. split; [tauto|lia].
        -- intros Ho. apply Hro; [exact Ho|lia].
Qed.

(** The loop always ends: every round but the last transfers a byte. *)
Lemma fill_total fuel : forall os buf roff rsize total,
  0 <= total < rsize ->
  rsize - total <= Z.of_nat fuel ->
  fill fuel os buf roff rsize total <> None.
Proof.
  induction fuel as [|fuel IH]; intros os buf roff rsize total Ht Hf;
    [lia|].
  cbn [fill].
  destruct (sys_read os buf (roff + total) (rsize - total))
    as [[n os1] buf1] eqn:Hr.
  destruct (sys_read_spec _ _ _ _ _ _ _ Hr ltac:(lia))
    as (_ & _ & _ & _ & Hcase).
  destruct (Z.ltb_spec n 0); [discriminate|].
  destruct (Z.eqb_spec n 0); [discriminate|].
  destruct (Z.ltb_spec (total + n) rsize); [|discriminate].
  apply IH; lia.
Qed.

(** ** One call that has to read *)

Lemma map_ptr_slow os map offset len r map' os' :
  map_ok os map ->
  0 <= offset -> offset + len - window_start_of offset <= INT_MAX ->
  len <> 0 ->
  resident map offset len = false ->
  _hs_map_ptr os map offset len = Return r map' os' ->
  let ws := window_start_of offset in
  let wsz := Z.max MAX_MAP_SIZE (offset + len - ws) in
  let rs := read_start_of map offset len in
  exists total,
    0 <= total /\ ws <= rs /\ rs + total <= ws + wsz /\
    p_offset map' = ws /\ p_len map' = rs - ws + total /\
    fd_pos os' = rs + total /\
    map_ok os' map' /\ same_source os os' /\
    fd_seeks os' = (if p_fd_offset map =? rs then fd_seeks os
                    else rs :: fd_seeks os) /\
    r_ptr r = BufPtr (offset - ws) /\
    r_len r = Z.min len (rs + total - offset) /\
    (exists e new, fd_reads os' = e :: new ++ fd_reads os /\
                   (r_eof r = true <-> rd_ret e = 0)) /\
    (r_eof r = true -> fd_size os <= rs + total) /\
    (0 < total -> rs + total <= fd_size os) /\
    (script_clean (fd_script os) = true ->
     script_clean (fd_script os') = true /\
     (r_eof r = false -> rs + total = ws + wsz)) /\
    (read_once os -> p_fd_offset map = rs -> read_once os') /\
    (rs = ws /\ reuses map ws wsz = false \/
     rs = p_offset map + p_len map /\ p_offset map <= ws < rs).
Proof.
  intros (Htag & Hoff & Hlen & Hcur & Hnull & Hdata) Ho Hl Hl0 Hres H ws wsz.
  fold ws in Hl.
  pose proof (window_start_le offset Ho) as Hws. fold ws in Hws.
  pose proof (window_start_nonneg offset) as Hws0. fold ws in Hws0.
  assert (Hwsz : window_size_of offset len ws = wsz)
    by (apply window_size_spec; assumption).
  assert (Hrs : read_start_of map offset len
                = if reuses map ws wsz then p_offset map + p_len map else ws)
    by (unfold read_start_of; fold ws; rewrite Hwsz; reflexivity).
  intros rs0. remember rs0 as rs eqn:Ers. subst rs0. rewrite Hrs in Ers.
  clear Hrs.
  unfold _hs_map_ptr in H.
  rewrite Htag, Z.eqb_refl in H. cbn [negb] in H.
  rewrite (proj2 (Z.eqb_neq len 0) Hl0), Hres in H.
  fold ws in H. rewrite Hwsz in H.
  (* the buffer after growing *)
  match type of H with
  | (match ?g with _ => _ end = _) => set (grown := g) in H
  end.
  assert (Hg : grown = None \/
               exists q sz, grown = Some (Some q, sz) /\ q = buffer map).
  { subst grown. destruct (Z.gtb_spec wsz (p_size map)).
    - unfold realloc. destruct (_ && _); [right|left; reflexivity].
      eexists; eexists; split; reflexivity.
    - destruct (p map) as [f|] eqn:Hp.
      + right. exists f, (p_size map). split; [reflexivity|].
        unfold buffer. rewrite Hp. reflexivity.
      + exfalso. destruct (Hnull eq_refl) as [Hnull' _].
        unfold wsz, MAX_MAP_SIZE in *. lia. }
  destruct Hg as [Hg|(q & sz & Hg & Hq)]; rewrite Hg in H; [discriminate|].
  clear Hg grown.
  (* what is kept from the old window, and what is read *)
  match type of H with
  | context [if reuses map ws wsz then ?a else ?b] =>
      set (plan := if reuses map ws wsz then a else b) in H
  end.
  assert (Hplan : exists roff rsize buf2,
             plan = (rs, roff, rsize, buf2) /\
             roff = rs - ws /\ rsize = ws + wsz - rs /\
             0 <= roff /\ 0 < rsize /\
             forall i, 0 <= i < roff ->
                       ws + i < fd_size os /\ buf2 i = fd_data os (ws + i)).
  { subst plan. destruct (reuses map ws wsz) eqn:Hreuse.
    - unfold reuses in Hreuse. unfold resident in Hres.
      assert (Hr : p_offset map <= ws < p_offset map + p_len map /\
                   p_offset map + p_len map < ws + wsz).
      { unfold wsz in *. lia. }
      rewrite to_int_small by (unfold INT_MIN, INT_MAX in *; lia).
      do 3 eexists. split; [subst rs; reflexivity|].
      subst rs. split_and; try lia.
      intros i Hi. unfold memmove.
      destruct (Z.leb_spec 0 i); [|lia].
      destruct (Z.ltb_spec i (0 + (p_offset map + p_len map - ws)));
        [|lia]. cbn [andb]. subst q.
      destruct (Hdata (p_len map - (p_offset map + p_len map - ws)
                       + (i - 0)) ltac:(lia)) as [D1 D2].
      split; [lia|]. rewrite D2. f_equal. lia.
    - do 3 eexists. split; [subst rs; reflexivity|].
      subst rs. unfold wsz, MAX_MAP_SIZE. split_and; try lia. }
  destruct Hplan as (roff & rsize & buf2 & Hplan & Hroff & Hrsize & Hroff0
                     & Hrsize0 & Hkept).
  rewrite Hplan in H. cbv beta iota zeta in H. clear Hplan plan.
  destruct (Z.leb_spec rsize 0) as [|_]; [lia|].
  (* the cursor of the descriptor is brought to the start of the read *)
  match type of H with
  | (match ?g with _ => _ end = _) => set (sought := g) in H
  end.
  assert (Hs : sought = None \/
               exists os1, sought = Some (os1, rs) /\
                 fd_pos os1 = rs /\ same_source os os1 /\
                 fd_reads os1 = fd_reads os /\
                 fd_script os1 = fd_script os /\
                 fd_seeks os1 = (if p_fd_offset map =? rs then fd_seeks os
                                 else rs :: fd_seeks os) /\
                 (p_fd_offset map = rs -> os1 = os)).
  { subst sought. destruct (Z.eqb_spec (p_fd_offset map) rs) as [E|E];
      cbn [negb].
    - right. exists os. rewrite E. split_and; auto using same_source_refl.
      congruence.
    - unfold sys_lseek. destruct (fd_seekable os && (0 <=? rs)).
      + rewrite Z.eqb_refl. cbn [negb]. right. eexists.
        split; [reflexivity|]. cbn. split_and; auto.
        * repeat split.
        * intros; contradiction.
      + left. destruct (Z.eqb_spec (-1) rs); [lia|reflexivity]. }
  destruct Hs as [Hs|(os1 & Hs & Hpos1 & Hsrc1 & Hrd1 & Hscr1 & Hsk1 & Hsame)];
    rewrite Hs in H; [discriminate|]. clear Hs sought.
  (* the read loop *)
  destruct (fill (Z.to_nat rsize) os1 buf2 roff rsize 0)
    as [[[[os2 buf3] total] eof]|] eqn:Hfill; [|discriminate].
  apply fill_spec in Hfill; [|lia].
  destruct Hfill as (Hsrc2 & Hsk2 & Htot & Hpos2 & Hin & Hbuf & Hlog & Heof
                     & Hcl & Hro).
  replace ((total =? rsize) && negb (roff + total =? wsz)) with false in H.
  2:{ destruct (Z.eqb_spec total rsize); [|reflexivity].
      destruct (Z.eqb_spec (roff + total) wsz); [reflexivity|lia]. }
  assert (Hwszmax : wsz <= INT_MAX).
  { unfold wsz, INT_MAX, MAX_MAP_SIZE in *. lia. }
  rewrite to_int_small in H
    by (unfold INT_MIN, INT_MAX, CHUNK_SIZE in *; lia).
  inversion H; subst r map' os'; clear H.
  cbn [r_ptr r_len r_eof r_errno p p_len p_offset p_fd_offset tag].
  pose proof Hsrc1 as (A1 & A2 & A3 & A4).
  pose proof Hsrc2 as (B1 & B2 & B3 & B4).
  exists total. split_and; try lia.
  - (* map_ok *)
    unfold map_ok.
    cbn [r_ptr r_len r_eof r_errno p p_len p_offset p_fd_offset tag p_size].
    split_and; try lia; try discriminate.
    intros i Hi. unfold buffer. cbn [p]. rewrite Hbuf, B1, B2, A1, A2.
    destruct (Z.leb_spec (roff + 0) i), (Z.ltb_spec i (roff + total));
      cbn [andb]; try lia.
    + split; [lia|]. f_equal. lia.
    + apply Hkept. lia.
  - eapply same_source_trans; eassumption.
  - congruence.
  - reflexivity.
  - destruct (Z.ltb_spec (roff + total - (offset - ws)) len); lia.
  - rewrite <- Hrd1. exact Hlog.
  - intros E. apply Heof in E. lia.
  - rewrite <- Hscr1. intros C. apply Hcl in C. destruct C as [C1 C2].
    split; [exact C1|]. intros E. apply C2 in E. lia.
  - intros R E. apply Hsame in E. subst os1. auto.
  - destruct (reuses map ws wsz) eqn:Hre; [right|left; auto].
    unfold reuses in Hre. split; [assumption|]. lia.
Qed.

(** ** The calls that do not read *)

Lemma map_ptr_zero os map offset :
  tag map = HS_MAP_TAG ->
  _hs_map_ptr os map offset 0
  = Return {| r_ptr := NullPtr; r_len := 0; r_eof := false;
              r_errno := Some EINVAL |} map os.
Proof.
  intros Ht. unfold _hs_map_ptr. rewrite Ht, Z.eqb_refl. reflexivity.
Qed.

Lemma map_ptr_resident os map offset len :
  tag map = HS_MAP_TAG -> len <> 0 -> resident map offset len = true ->
  _hs_map_ptr os map offset len
  = Return {| r_ptr := ptr_add (p map) (offset - p_offset map);
              r_len := len; r_eof := false; r_errno := None |} map os.
Proof.
  intros Ht Hl Hr. unfold _hs_map_ptr.
  rewrite Ht, Z.eqb_refl, (proj2 (Z.eqb_neq len 0) Hl), Hr. reflexivity.
Qed.

Lemma map_ptr_tag os map offset len r map' os' :
  _hs_map_ptr os map offset len = Return r map' os' -> tag map = HS_MAP_TAG.
Proof.
  unfold _hs_map_ptr. destruct (Z.eqb_spec (tag map) HS_MAP_TAG); auto.
  discriminate.
Qed.

Lemma map_ptr_overflow os map offset len r map' os' :
  0 <= offset -> len <= INT_MAX ->
  INT_MAX < offset + len - window_start_of offset ->
  resident map offset len = false ->
  _hs_map_ptr os map offset len = Return r map' os' ->
  r = {| r_ptr := NullPtr; r_len := len; r_eof := false; r_errno := None |}
  /\ map' = map /\ os' = os.
Proof.
  intros Ho Hl Hov Hres H.
  pose proof (map_ptr_tag _ _ _ _ _ _ _ H) as Ht.
  pose proof (window_size_overflow offset len Ho Hl Hov) as Hneg.
  pose proof (window_start_le offset Ho) as Hws.
  unfold _hs_map_ptr in H. rewrite Ht, Z.eqb_refl, Hres in H.
  cbn [negb] in H.
  destruct (Z.eqb_spec len 0) as [E|_];
    [unfold INT_MAX, CHUNK_SIZE in *; lia|].
  set (ws := window_start_of offset) in *.
  set (wsz := window_size_of offset len ws) in *.
  assert (Hre : reuses map ws wsz = false).
  { unfold reuses. destruct (ws >=? p_offset map) eqn:E1;
      destruct (ws <? p_offset map + p_len map) eqn:E2;
      destruct (ws + wsz >=? p_offset map + p_len map) eqn:E3;
      cbn [andb]; auto. lia. }
  rewrite Hre in H.
  destruct (Z.gtb_spec wsz (p_size map)).
  - unfold realloc in H. destruct (Z.ltb_spec 0 wsz); [lia|].
    cbn [andb] in H. discriminate.
  - cbv beta iota zeta in H. destruct (Z.leb_spec wsz 0); [|lia].
    inversion H; subst; clear H. split_and; auto.
    destruct map as [t [f|] d s l o c]; cbn in *; subst; reflexivity.
Qed.

(** ** What every call does to the descriptor *)

Lemma log_grows_inv (e e0 : rd_entry) new new0 old :
  e :: new ++ old = e0 :: new0 ++ old -> e = e0.
Proof. intros H. inversion H. reflexivity. Qed.

Lemma log_grows_neq (e : rd_entry) new old : e :: new ++ old <> old.
Proof.
  intros H. apply (f_equal (@length _)) in H.
  cbn in H. rewrite length_app in H. lia.
Qed.

Lemma map_ptr_descriptor os map offset len r map' os' :
  _hs_map_ptr os map offset len = Return r map' os' ->
  let rs := read_start_of map offset len in
  (0 <= p_offset map + p_len map ->
   p_fd_offset map = fd_pos os -> p_fd_offset map' = fd_pos os') /\
  (fd_seeks os' = fd_seeks os \/
   fd_seeks os' = rs :: fd_seeks os /\ p_fd_offset map <> rs) /\
  (r_eof r = true <->
   exists e new, fd_reads os' = e :: new ++ fd_reads os /\ rd_ret e = 0) /\
  (resident map offset len = true -> os' = os /\ map' = map).
Proof.
  intros H rs.
  assert (Hnone : os' = os -> p_fd_offset map' = p_fd_offset map ->
                  r_eof r = false ->
    (0 <= p_offset map + p_len map ->
     p_fd_offset map = fd_pos os -> p_fd_offset map' = fd_pos os') /\
    (fd_seeks os' = fd_seeks os \/
     fd_seeks os' = rs :: fd_seeks os /\ p_fd_offset map <> rs) /\
    (r_eof r = true <->
     exists e new, fd_reads os' = e :: new ++ fd_reads os /\ rd_ret e = 0)).
  { intros -> Hm He. split_and; auto.
    - congruence.
    - rewrite He. split; [discriminate|].
      intros (e & new & Hl & _). symmetry in Hl.
      apply log_grows_neq in Hl. contradiction. }
  pose proof (map_ptr_tag _ _ _ _ _ _ _ H) as Ht.
  unfold _hs_map_ptr in H. rewrite Ht, Z.eqb_refl in H. cbn [negb] in H.
  destruct (Z.eqb_spec len 0) as [E|_].
  { inversion H; subst; clear H.
    destruct Hnone as (A & B & C); auto. }
  destruct (resident map offset len) eqn:Hres.
  { inversion H; subst; clear H.
    destruct Hnone as (A & B & C); auto. }
  cut ((0 <= p_offset map + p_len map ->
        p_fd_offset map = fd_pos os -> p_fd_offset map' = fd_pos os') /\
       (fd_seeks os' = fd_seeks os \/
        fd_seeks os' = rs :: fd_seeks os /\ p_fd_offset map <> rs) /\
       (r_eof r = true <->
        exists e new, fd_reads os' = e :: new ++ fd_reads os /\ rd_ret e = 0)).
  { intros (A & B & C). split_and; auto; discriminate. }
  assert (Hrs : 0 <= p_offset map + p_len map -> 0 <= rs).
  { intros. unfold rs, read_start_of.
    pose proof (window_start_nonneg offset).
    destruct (reuses _ _ _); lia. }
  unfold rs, read_start_of in *. clear rs.
  set (ws := window_start_of offset) in *.
  set (wsz := window_size_of offset len ws) in *.
  cbv zeta in Hnone, Hrs |- *.
  match type of H with
  | (match ?g with _ => _ end = _) => destruct g as [[p1 sz]|]
  end; [|discriminate].
  match type of H with
  | context [if reuses map ws wsz then ?a else ?b] =>
      set (plan := if reuses map ws wsz then a else b) in H
  end.
  remember (if reuses map ws wsz then p_offset map + p_len map else ws)
    as rs eqn:Ers.
  assert (Hplan : exists roff rsize buf2, plan = (rs, roff, rsize, buf2)).
  { subst plan rs. destruct (reuses map ws wsz); do 3 eexists; reflexivity. }
  destruct Hplan as (roff & rsize & buf2 & Hplan).
  rewrite Hplan in H. cbv beta iota zeta in H. clear Hplan plan.
  destruct (Z.leb_spec rsize 0) as [Hz|Hz].
  { inversion H; subst; clear H. apply Hnone; reflexivity. }
  clear Hnone.
  match type of H with
  | (match ?g with _ => _ end = _) => set (sought := g) in H
  end.
  assert (Hs : sought = None \/
               exists os1 c, sought = Some (os1, c) /\
                 fd_reads os1 = fd_reads os /\
                 (0 <= rs -> p_fd_offset map = fd_pos os -> c = fd_pos os1) /\
                 (fd_seeks os1 = fd_seeks os \/
                  fd_seeks os1 = rs :: fd_seeks os /\ p_fd_offset map <> rs)).
  { subst sought. destruct (Z.eqb_spec (p_fd_offset map) rs) as [E|E];
      cbn [negb].
    - right. exists os, (p_fd_offset map). split_and; auto.
    - unfold sys_lseek. destruct (fd_seekable os && (0 <=? rs)).
      + rewrite Z.eqb_refl. cbn [negb]. right. do 2 eexists.
        split; [reflexivity|]. cbn. split_and; auto.
      + destruct (Z.eqb_spec (-1) rs); cbn [negb]; [|left; reflexivity].
        right. do 2 eexists. split; [reflexivity|]. cbn.
        split_and; auto. intros; lia. }
  destruct Hs as [Hs|(os1 & c & Hs & Hrd1 & Hc & Hsk1)];
    rewrite Hs in H; [discriminate|]. clear Hs sought.
  destruct (fill (Z.to_nat rsize) os1 buf2 roff rsize 0)
    as [[[[os2 buf3] total] eof]|] eqn:Hfill; [|discriminate].
  apply fill_spec in Hfill; [|lia].
  destruct Hfill as (_ & Hsk & _ & Hpos & _ & _ & Hlog & _).
  match type of H with
  | (if ?c then _ else _) = _ => destruct c; [discriminate|]
  end.
  inversion H; subst r map' os'; clear H.
  cbn [r_eof p_fd_offset fd_pos fd_seeks fd_reads] in *.
  destruct Hlog as (e & new & Hlog & Heof). rewrite Hrd1 in Hlog.
  split_and.
  - intros H0 Hcur. rewrite (Hc (Hrs H0) Hcur). lia.
  - rewrite Hsk. exact Hsk1.
  - rewrite Heof. split.
    + intros E; exists e, new; split; [exact Hlog|exact E].
    + intros (e' & new' & Hl' & E'). rewrite Hlog in Hl'.
      apply log_grows_inv in Hl'. congruence.
Qed.

(** The read loop of a call always ends: [_hs_map_ptr] returns or aborts. *)
Lemma _hs_map_ptr_total os map offset len :
  _hs_map_ptr os map offset len <> Unfinished.
Proof.
  unfold _hs_map_ptr.
  destruct (negb (tag map =? HS_MAP_TAG)); [discriminate|].
  destruct (len =? 0); [discriminate|].
  destruct (resident map offset len); [discriminate|].
  set (ws := window_start_of offset).
  set (wsz := window_size_of offset len ws).
  match goal with
  | |- (match ?g with _ => _ end <> _) => destruct g as [[p1 sz]|]
  end; [|discriminate].
  match goal with
  | |- context [if reuses map ws wsz then ?a else ?b] =>
      destruct (if reuses map ws wsz then a else b)
        as [[[rs roff] rsize] buf2]
  end.
  destruct (Z.leb_spec rsize 0); [discriminate|].
  match goal with
  | |- (match ?g with _ => _ end <> _) => destruct g as [[os1 c]|]
  end; [|discriminate].
  pose proof (fill_total (Z.to_nat rsize) os1 buf2 roff rsize 0
                         ltac:(lia) ltac:(lia)) as Hf.
  destruct (fill (Z.to_nat rsize) os1 buf2 roff rsize 0)
    as [[[[os2 buf3] total] eof]|]; [|contradiction].
  match goal with
  | |- ((if ?c then _ else _) <> _) => destruct c; discriminate
  end.
Qed.

(** ** The window invariant *)

Lemma map_ok_init data size seekable heap script fd0 :
  map_ok (open_fd data size seekable heap script) (_hs_map_file fd0).
Proof.
  unfold map_ok, INT_MAX. cbn. split_and; auto; try lia.
Qed.

Lemma map_ptr_ok os map offset len r map' os' :
  map_ok os map -> 0 <= offset -> len <= INT_MAX ->
  _hs_map_ptr os map offset len = Return r map' os' ->
  map_ok os' map' /\ same_source os os' /\
  (forall k, r_ptr r = BufPtr k ->
             forall i, 0 <= i < r_len r ->
                       offset + i < fd_size os /\
                       buffer map' (k + i) = fd_data os (offset + i)) /\
  (forall k, r_ptr r = WildPtr k -> r_len r < 0).
Proof.
  intros Hok Ho Hl H.
  pose proof Hok as (Htag & Hoff & Hlen & Hcur & Hnull & Hdata).
  destruct (Z.eq_dec len 0) as [->|Hl0].
  { rewrite map_ptr_zero in H by assumption. inversion H; subst; clear H.
    split_and; auto using same_source_refl; discriminate. }
  destruct (resident map offset len) eqn:Hres.
  { rewrite map_ptr_resident in H by assumption.
    inversion H; subst; clear H. cbn [r_ptr r_len].
    unfold resident in Hres.
    split_and; auto using same_source_refl.
    - intros k Hk i Hi. unfold ptr_add in Hk.
      destruct (p map') eqn:Hp; [|destruct (_ =? _); discriminate].
      inversion Hk; subst k.
      destruct (Hdata (offset - p_offset map' + i) ltac:(lia)) as [D1 D2].
      split; [lia|]. rewrite D2. f_equal. lia.
    - intros k Hk. unfold ptr_add in Hk.
      destruct (p map') eqn:Hp; [discriminate|].
      destruct (Hnull eq_refl) as [_ Hz]. lia. }
  destruct (Z_le_gt_dec (offset + len - window_start_of offset) INT_MAX)
    as [Hfit|Hov].
  - destruct (map_ptr_slow _ _ _ _ _ _ _ Hok Ho Hfit Hl0 Hres H)
      as (total & Ht & Hrs & Hend & Hpo & Hpl & Hpos & Hok' & Hsrc & _ & Hptr
          & Hrl & _).
    split_and; auto; [|intros k Hk; congruence].
    intros k Hk i Hi. rewrite Hptr in Hk. inversion Hk; subst k.
    pose proof (window_start_le offset Ho) as Hws.
    destruct Hok' as (_ & _ & _ & _ & _ & Hdata').
    destruct (Hdata' (offset - window_start_of offset + i) ltac:(lia))
      as [D1 D2].
    destruct Hsrc as (S1 & S2 & _). rewrite S2 in D1. rewrite S1 in D2.
    rewrite Hpo in D1, D2.
    split; [lia|]. rewrite D2. f_equal. lia.
  - destruct (map_ptr_overflow _ _ _ _ _ _ _ Ho Hl ltac:(lia) Hres H)
      as (-> & -> & ->).
    split_and; auto using same_source_refl; discriminate.
Qed.

Lemma run_ok calls : forall os map os' map',
  map_ok os map ->
  forallb call_ok calls = true ->
  run os map calls = Some (os', map') ->
  map_ok os' map' /\ same_source os os'.
Proof.
  induction calls as [|c calls IH]; intros os map os' map' Hok Hc H.
  - inversion H; subst. auto using same_source_refl.
  - cbn [run] in H. cbn [forallb] in Hc.
    apply andb_prop in Hc. destruct Hc as [Hc Hcs].
    unfold call_ok in Hc.
    destruct (_hs_map_ptr os map (c_offset c) (c_len c))
      as [|r map1 os1|] eqn:Hcall; try discriminate.
    apply map_ptr_ok in Hcall; [|assumption|lia|lia].
    destruct Hcall as (Hok1 & Hsrc1 & _).
    destruct (IH _ _ _ _ Hok1 Hcs H) as (Hok' & Hsrc').
    split; [assumption|]. eapply same_source_trans; eassumption.
Qed.

(** ** A caller that keeps to the contract *)

Lemma sequential_init data size seekable heap script fd0 :
  sequential (open_fd data size seekable heap script) (_hs_map_file fd0) 0 0.
Proof.
  unfold sequential, read_once. cbn. split_and; auto; lia.
Qed.

Lemma map_ptr_sequential os map lo hw offset len r map' os' :
  map_ok os map -> sequential os map lo hw ->
  lo <= offset <= hw -> len <= INT_MAX ->
  _hs_map_ptr os map offset len = Return r map' os' ->
  sequential os' map' offset
             (match r_ptr r with
              | NullPtr => hw
              | _ => Z.max hw (offset + r_len r)
              end).
Proof.
  intros Hok (Hsk & Hro & Hcur & Hpo & Hlo & Hhw) Hoff Hl H.
  pose proof Hok as (Htag & Hoff0 & Hlen & Hcur' & Hnull & Hdata).
  assert (Ho : 0 <= offset) by lia.
  pose proof (window_start_mono lo offset ltac:(lia)) as Hmono.
  pose proof (window_start_le offset Ho) as Hws.
  assert (Hsame : forall hw', hw <= hw' <= p_offset map + p_len map ->
                              sequential os map offset hw').
  { intros hw' Hh. unfold sequential. split_and; auto; lia. }
  destruct (Z.eq_dec len 0) as [->|Hl0].
  { rewrite map_ptr_zero in H by assumption. inversion H; subst; clear H.
    cbn [r_ptr]. apply Hsame. lia. }
  destruct (resident map offset len) eqn:Hres.
  { rewrite map_ptr_resident in H by assumption.
    inversion H; subst; clear H. cbn [r_ptr r_len].
    unfold resident in Hres.
    destruct (ptr_add _ _); apply Hsame; lia. }
  destruct (Z_le_gt_dec (offset + len - window_start_of offset) INT_MAX)
    as [Hfit|Hov].
  - destruct (map_ptr_slow _ _ _ _ _ _ _ Hok Ho Hfit Hl0 Hres H)
      as (total & Ht & Hrs & Hend & Hpo' & Hpl & Hpos & Hok' & Hsrc & Hsk'
          & Hptr & Hrl & _ & _ & _ & _ & Hro' & Hcase).
    set (ws := window_start_of offset) in *.
    set (rs := read_start_of map offset len) in *.
    assert (Hnoseek : p_fd_offset map = rs).
    { destruct Hcase as [[E Hre]|[E _]]; [|congruence].
      unfold reuses, resident in *.
      destruct (ws >=? p_offset map) eqn:E1;
        destruct (ws <? p_offset map + p_len map) eqn:E2;
        destruct (ws + Z.max MAX_MAP_SIZE (offset + len - ws)
                  >=? p_offset map + p_len map) eqn:E3;
        cbn [andb] in Hre; try discriminate; lia. }
    destruct Hok' as (_ & _ & _ & Hcur2 & _).
    rewrite Hnoseek, Z.eqb_refl in Hsk'.
    unfold sequential. split_and; auto; try lia; try congruence.
    all: destruct (r_ptr r); lia.
  - destruct (map_ptr_overflow _ _ _ _ _ _ _ Ho Hl ltac:(lia) Hres H)
      as (-> & -> & ->).
    cbn [r_ptr]. apply Hsame. lia.
Qed.

Lemma run_sequential calls : forall os map lo hw os' map',
  map_ok os map -> sequential os map lo hw ->
  forallb call_ok calls = true ->
  forward_only lo hw os map calls = true ->
  run os map calls = Some (os', map') ->
  exists lo' hw', sequential os' map' lo' hw'.
Proof.
  induction calls as [|c calls IH]; intros os map lo hw os' map' Hok Hseq Hc
    Hf H.
  - inversion H; subst. eauto.
  - cbn [run] in H. cbn [forallb] in Hc. cbn [forward_only] in Hf.
    apply andb_prop in Hc. destruct Hc as [Hc Hcs]. unfold call_ok in Hc.
    destruct (_hs_map_ptr os map (c_offset c) (c_len c))
      as [|r map1 os1|] eqn:Hcall; try discriminate.
    apply andb_prop in Hf. destruct Hf as [Hb Hf].
    assert (H0 : 0 <= c_offset c) by lia.
    assert (H1 : c_len c <= INT_MAX) by lia.
    assert (H2 : lo <= c_offset c <= hw) by lia.
    pose proof (map_ptr_ok _ _ _ _ _ _ _ Hok H0 H1 Hcall) as (Hok1 & _).
    pose proof (map_ptr_sequential _ _ _ _ _ _ _ _ _ Hok Hseq H2 H1 Hcall)
      as Hseq1.
    eapply IH; eassumption.
Qed.

Lemma sequential_no_seek os map lo hw offset len :
  map_ok os map -> sequential os map lo hw ->
  lo <= offset <= hw ->
  offset + len - window_start_of offset <= INT_MAX ->
  resident map offset len = false ->
  p_fd_offset map = read_start_of map offset len.
Proof.
  intros Hok (Hsk & Hro & Hcur & Hpo & Hlo & Hhw) Hoff Hfit Hres.
  assert (Ho : 0 <= offset) by lia.
  pose proof (window_start_mono lo offset ltac:(lia)) as Hmono.
  pose proof (window_start_le offset Ho) as Hws.
  unfold read_start_of. rewrite window_size_spec by assumption.
  set (ws := window_start_of offset) in *.
  unfold reuses, resident in *.
  destruct (ws >=? p_offset map) eqn:E1;
    destruct (ws <? p_offset map + p_len map) eqn:E2;
    destruct (ws + Z.max MAX_MAP_SIZE (offset + len - ws)
              >=? p_offset map + p_len map) eqn:E3;
    cbn [andb]; lia.
Qed.

(** Why a call can abort. *)
Lemma map_ptr_abort_inv os map offset len why :
  _hs_map_ptr os map offset len = Abort why ->
  let ws := window_start_of offset in
  let wsz := window_size_of offset len ws in
  (why = AssertFailure /\ tag map <> HS_MAP_TAG) \/
  why = OutOfMemory \/
  (why = SeekFailure /\ len <> 0 /\ resident map offset len = false /\
   p_fd_offset map <> read_start_of map offset len /\
   0 < (if reuses map ws wsz
        then wsz - to_int (p_offset map + p_len map - ws) else wsz)).
Proof.
  intros H ws wsz. unfold _hs_map_ptr in H.
  destruct (Z.eqb_spec (tag map) HS_MAP_TAG) as [Ht|Ht]; cbn [negb] in H;
    [|inversion H; auto].
  destruct (Z.eqb_spec len 0) as [|Hl0]; [discriminate|].
  destruct (resident map offset len) eqn:Hres; [discriminate|].
  fold ws in H. fold wsz in H.
  match type of H with
  | (match ?g with _ => _ end = _) => destruct g as [[p1 sz]|]
  end; [|inversion H; auto].
  unfold read_start_of. fold ws. fold wsz.
  destruct (reuses map ws wsz); cbv beta iota zeta in H |- *.
  all: match type of H with
       | (if ?c <=? 0 then _ else _) = _ =>
           destruct (Z.leb_spec c 0) as [Hz|Hz]; [discriminate|]
       end.
  all: match type of H with
       | (match ?g with _ => _ end = _) => destruct g as [[os1 c]|] eqn:Hs
       end.
  all: try (match type of H with
            | (match ?f with _ => _ end = _) =>
                destruct f as [[[[os2 buf3] total] eof]|] eqn:Hfill;
                [|discriminate]
            end;
            match type of H with
            | (if ?c then _ else _) = _ => destruct c eqn:Hassert;
                                           [|discriminate]
            end;
            exfalso;
            apply andb_prop in Hassert; destruct Hassert as [A1 A2];
            apply Z.eqb_eq in A1; apply negb_true_iff, Z.eqb_neq in A2; lia).
  all: inversion H; subst why; right; right; split_and; auto.
  - destruct (Z.eqb_spec (p_fd_offset map) (p_offset map + p_len map));
      cbn [negb] in Hs; [discriminate Hs|assumption].
  - clearbody wsz ws.
    destruct (Z.eqb_spec (p_fd_offset map) ws);
      cbn [negb] in Hs; [discriminate Hs|assumption].
Qed.

(** A caller that keeps to the contract can only be stopped by a failed
    allocation: the window never has to seek. *)
Lemma map_ptr_sequential_returns os map lo hw offset len :
  map_ok os map -> sequential os map lo hw ->
  lo <= offset <= hw -> len <= INT_MAX ->
  (exists r map' os', _hs_map_ptr os map offset len = Return r map' os') \/
  _hs_map_ptr os map offset len = Abort OutOfMemory.
Proof.
  intros Hok Hseq Hoff Hl.
  destruct (_hs_map_ptr os map offset len) as [why|r map' os'|] eqn:H.
  - right. pose proof Hok as (Htag & _).
    pose proof Hseq as (_ & _ & _ & _ & Hlo & _).
    apply map_ptr_abort_inv in H.
    destruct H as [[_ Ht]|[->|(_ & Hl0 & Hres & Hseek & Hsz)]];
      [contradiction|reflexivity|exfalso].
    destruct (Z_le_gt_dec (offset + len - window_start_of offset) INT_MAX)
      as [Hfit|Hov].
    + apply Hseek. eapply sequential_no_seek; eassumption.
    + pose proof (window_size_overflow offset len ltac:(lia) Hl ltac:(lia))
        as Hneg.
      set (ws := window_start_of offset) in *.
      set (wsz := window_size_of offset len ws) in *.
      assert (Hre : reuses map ws wsz = false).
      { unfold reuses. destruct (ws >=? p_offset map) eqn:E1;
          destruct (ws <? p_offset map + p_len map) eqn:E2;
          destruct (ws + wsz >=? p_offset map + p_len map) eqn:E3;
          cbn [andb]; auto. lia. }
      rewrite Hre in Hsz. lia.
  - left. eauto.
  - exfalso. exact (_hs_map_ptr_total _ _ _ _ H).
Qed.


Lemma map_ptr_clean os map offset len r map' os' :
  map_ok os map -> 0 <= offset -> len <= INT_MAX ->
  script_clean (fd_script os) = true ->
  _hs_map_ptr os map offset len = Return r map' os' ->
  script_clean (fd_script os') = true.
Proof.
  intros Hok Ho Hl Hc H. pose proof Hok as (Htag & _).
  destruct (Z.eq_dec len 0) as [->|Hl0].
  { rewrite map_ptr_zero in H by assumption. inversion H; subst. exact Hc. }
  destruct (resident map offset len) eqn:Hres.
  { rewrite map_ptr_resident in H by assumption.
    inversion H; subst. exact Hc. }
  destruct (Z_le_gt_dec (offset + len - window_start_of offset) INT_MAX)
    as [Hfit|Hov].
  - destruct (map_ptr_slow _ _ _ _ _ _ _ Hok Ho Hfit Hl0 Hres H)
      as (total & _ & _ & _ & _ & _ & _ & _ & _ & _ & _ & _ & _ & _ & _ & Hcl
          & _).
    apply Hcl, Hc.
  - destruct (map_ptr_overflow _ _ _ _ _ _ _ Ho Hl ltac:(lia) Hres H)
      as (_ & _ & ->). exact Hc.
Qed.

Lemma run_clean calls : forall os map os' map',
  map_ok os map ->
  forallb call_ok calls = true ->
  script_clean (fd_script os) = true ->
  run os map calls = Some (os', map') ->
  script_clean (fd_script os') = true.
Proof.
  induction calls as [|c calls IH]; intros os map os' map' Hok Hc Hs H.
  - inversion H; subst. exact Hs.
  - cbn [run] in H. cbn [forallb] in Hc.
    apply andb_prop in Hc. destruct Hc as [Hc Hcs]. unfold call_ok in Hc.
    destruct (_hs_map_ptr os map (c_offset c) (c_len c))
      as [|r map1 os1|] eqn:Hcall; try discriminate.
    assert (H0 : 0 <= c_offset c) by lia.
    assert (H1 : c_len c <= INT_MAX) by lia.
    pose proof (map_ptr_ok _ _ _ _ _ _ _ Hok H0 H1 Hcall) as (Hok1 & _).
    pose proof (map_ptr_clean _ _ _ _ _ _ _ Hok H0 H1 Hs Hcall) as Hs1.
    eapply IH; eassumption.
Qed.

(** The states a caller can reach from a freshly opened descriptor. *)
Lemma run_from_start data size seekable heap script fd0 calls os map :
  forallb call_ok calls = true ->
  run (open_fd data size seekable heap script) (_hs_map_file fd0) calls
  = Some (os, map) ->
  map_ok os map /\ fd_data os = data /\ fd_size os = size /\
  (script_clean script = true -> script_clean (fd_script os) = true).
Proof.
  intros Hc H.
  pose proof (map_ok_init data size seekable heap script fd0) as Hok0.
  destruct (run_ok _ _ _ _ _ Hok0 Hc H) as (Hok & S1 & S2 & _).
  split_and; auto.
  intros Hs. exact (run_clean calls _ _ _ _ Hok0 Hc Hs H).
Qed.

Lemma run_forward_failure calls : forall os map lo hw,
  map_ok os map -> sequential os map lo hw ->
  forallb call_ok calls = true ->
  forward_only lo hw os map calls = true ->
  first_failure os map calls = None \/
  first_failure os map calls = Some (Abort OutOfMemory).
Proof.
  induction calls as [|c calls IH]; intros os map lo hw Hok Hseq Hc Hf.
  - left. reflexivity.
  - cbn [first_failure]. cbn [forallb] in Hc. cbn [forward_only] in Hf.
    apply andb_prop in Hc. destruct Hc as [Hc Hcs]. unfold call_ok in Hc.
    apply andb_prop in Hf. destruct Hf as [Hb Hf].
    assert (H0 : 0 <= c_offset c) by lia.
    assert (H1 : c_len c <= INT_MAX) by lia.
    assert (H2 : lo <= c_offset c <= hw) by lia.
    destruct (map_ptr_sequential_returns _ _ _ _ _ _ Hok Hseq H2 H1)
      as [(r & map1 & os1 & Hcall)|Hcall]; rewrite Hcall in *; auto.
    pose proof (map_ptr_ok _ _ _ _ _ _ _ Hok H0 H1 Hcall) as (Hok1 & _).
    pose proof (map_ptr_sequential _ _ _ _ _ _ _ _ _ Hok Hseq H2 H1 Hcall)
      as Hseq1.
    eapply IH; eassumption.
Qed.

Lemma outcome_eta o :
  returned o = true -> o = Return (reply_of o) (map_of o) (os_of o).
Proof. destruct o; cbn; intros H; try discriminate; reflexivity. Qed.

Lemma run_eta (o : option (os_state * hs_map)) d :
  ran o = true ->
  o = Some (fst (match o with Some s => s | None => d end),
            snd (match o with Some s => s | None => d end)).
Proof.
  destruct o as [[os map]|]; cbn; intros H; try discriminate; reflexivity.
Qed.

(** ** The properties of the specification *)

(** C1 (window correctness).  After any sequence of calls on a freshly
    mapped descriptor -- forward-only or not, with whatever short reads and
    read errors the descriptor produces -- every call that returns a pointer
    into the window returns one whose first [*len] bytes are the bytes of
    the source at the requested offset, and these lie inside the source.
    (The only other non-null returns are those of a request of negative
    length on a window that was never allocated; they hand out no byte.) *)
Theorem map_ptr_window_correct
        data size seekable heap script fd0 calls os map offset len
        r map' os' :
  forallb call_ok calls = true ->
  run (open_fd data size seekable heap script) (_hs_map_file fd0) calls
  = Some (os, map) ->
  call_ok {| c_offset := offset; c_len := len |} = true ->
  _hs_map_ptr os map offset len = Return r map' os' ->
  (forall k, r_ptr r = BufPtr k ->
             forall i, 0 <= i < r_len r ->
                       offset + i < size /\
                       buffer map' (k + i) = data (offset + i)) /\
  (forall k, r_ptr r = WildPtr k -> r_len r < 0).
Proof.
  intros Hc Hrun Hcall H.
  destruct (run_from_start _ _ _ _ _ _ _ _ _ Hc Hrun) as (Hok & S1 & S2 & _).
  unfold call_ok in Hcall. cbn [c_offset c_len] in Hcall.
  assert (H0 : 0 <= offset) by lia.
  assert (H1 : len <= INT_MAX) by lia.
  destruct (map_ptr_ok _ _ _ _ _ _ _ Hok H0 H1 H) as (_ & _ & Hbytes & Hwild).
  rewrite <- S1, <- S2. auto.
Qed.

Lemma map_ptr_window_correct_witness :
  299000 + 7 < 600000 /\
  buffer (map_of big_next) (69624 + 7) = demo_data (299000 + 7).
Proof.
  assert (Hrun : run big_os (_hs_map_file 3) big_calls
                 = Some (fst big_state, snd big_state))
    by (apply run_eta; vm_compute; reflexivity).
  assert (Hcall : _hs_map_ptr (fst big_state) (snd big_state) 299000 150000
                  = Return (reply_of big_next) (map_of big_next)
                           (os_of big_next))
    by (apply outcome_eta; vm_compute; reflexivity).
  destruct (map_ptr_window_correct
              demo_data 600000 false (1024 * 1024)
              [ReadAtMost 4096; ReadAtMost 1; ReadAtMost 100000] 3 big_calls
              (fst big_state) (snd big_state) 299000 150000
              (reply_of big_next) (map_of big_next) (os_of big_next)
              eq_refl Hrun eq_refl Hcall) as [H _].
  apply (H 69624).
  - vm_compute. reflexivity.
  - vm_compute. split; [discriminate|reflexivity].
Defined.






(** Outside the contract: once the 100 bytes are resident, a request at
    offset 150, ahead of everything handed out, comes back with the length
    -50, not 0. *)
Lemma map_ptr_past_end_unclamped :
  summary demo_beyond = Some (BufPtr 150, -50, true, None).
Proof. vm_compute. reflexivity. Qed.

(** C5, at the failing input: when the first [read] fails, the call returns
    a pointer into the window with [*len] cut to 0 and the end-of-input flag
    clear; when a later [read] fails, the bytes read so far are handed out
    as an ordinary mapping.  Neither return tells the caller of the error. *)
Lemma map_ptr_read_error_not_reported :
  summary demo_failing = Some (BufPtr 0, 0, false, None) /\
  summary demo_failing_late = Some (BufPtr 0, 10, false, None) /\
  map (fun e => rd_ret e) (fd_reads (os_of demo_failing_late)) = [-1; 50].
Proof. vm_compute. repeat split. Qed.

(** C7 (overlap reuse).  A caller that keeps to the forward-only contract
    never makes the window read a byte of the source twice: the window
    never seeks (so the calls return, unless an allocation fails), and in
    the log of the descriptor every byte was transferred at most once. *)
Theorem map_ptr_reads_once
        data size seekable heap script fd0 calls :
  forallb call_ok calls = true ->
  forward_only 0 0 (open_fd data size seekable heap script)
               (_hs_map_file fd0) calls = true ->
  (first_failure (open_fd data size seekable heap script)
                 (_hs_map_file fd0) calls = None \/
   first_failure (open_fd data size seekable heap script)
                 (_hs_map_file fd0) calls = Some (Abort OutOfMemory)) /\
  forall os map,
    run (open_fd data size seekable heap script) (_hs_map_file fd0) calls
    = Some (os, map) ->
    forall x, (times_read (fd_reads os) x <= 1)%nat.
Proof.
  intros Hc Hf.
  pose proof (map_ok_init data size seekable heap script fd0) as Hok.
  pose proof (sequential_init data size seekable heap script fd0) as Hseq.
  split; [exact (run_forward_failure calls _ _ 0 0 Hok Hseq Hc Hf)|].
  intros os map Hrun x.
  destruct (run_sequential calls _ _ 0 0 _ _ Hok Hseq Hc Hf Hrun)
    as (lo & hw & _ & Hro & _).
  apply Hro.
Qed.

Lemma map_ptr_reads_once_witness :
  first_failure big_os (_hs_map_file 3) big_calls = None /\
  (times_read (fd_reads (fst big_state)) 262500 <= 1)%nat.
Proof.
  assert (Hrun : run big_os (_hs_map_file 3) big_calls
                 = Some (fst big_state, snd big_state))
    by (apply run_eta; vm_compute; reflexivity).
  assert (Hf : forward_only 0 0 big_os (_hs_map_file 3) big_calls = true)
    by (vm_compute; reflexivity).
  destruct (map_ptr_reads_once
              demo_data 600000 false (1024 * 1024)
              [ReadAtMost 4096; ReadAtMost 1; ReadAtMost 100000] 3 big_calls
              eq_refl Hf) as [_ H].
  split; [vm_compute; reflexivity|].
  exact (H _ _ Hrun 262500).
Defined.

(** C8, as the code has it.  A request of length zero fails with [EINVAL]:
    it returns the null pointer, reads nothing and leaves the window as it
    was; so a call that returns a pointer was given a length other than
    zero.  (The guard tests for zero only.) *)
Theorem map_ptr_zero_length os map offset :
  tag map = HS_MAP_TAG ->
  _hs_map_ptr os map offset 0
  = Return {| r_ptr := NullPtr; r_len := 0; r_eof := false;
              r_errno := Some EINVAL |} map os
  /\ forall len r map' os',
       _hs_map_ptr os map offset len = Return r map' os' ->
       r_ptr r <> NullPtr -> len <> 0.
Proof.
  intros Ht. split; [apply map_ptr_zero; assumption|].
  intros len r map' os' H Hp ->.
  rewrite map_ptr_zero in H by assumption.
  inversion H; subst. apply Hp. reflexivity.
Qed.

Lemma map_ptr_zero_length_witness :
  _hs_map_ptr (demo_os []) (_hs_map_file 3) 7 0
  = Return {| r_ptr := NullPtr; r_len := 0; r_eof := false;
              r_errno := Some EINVAL |} (_hs_map_file 3) (demo_os [])
  /\ forall len r map' os',
       _hs_map_ptr (demo_os []) (_hs_map_file 3) 7 len = Return r map' os' ->
       r_ptr r <> NullPtr -> len <> 0.
Proof.
  apply (map_ptr_zero_length (demo_os []) (_hs_map_file 3) 7).
  reflexivity.
Defined.

(** C8, the claim as stated fails: a negative length is not rejected.
    With the 100 bytes resident, a request of length -5 at offset 0 returns
    a pointer into the window and sets no error, and a request of length -5
    at offset 200 makes the window read from the descriptor. *)
Lemma map_ptr_zero_length_counterexample :
  summary demo_negative = Some (BufPtr 0, -5, false, None) /\
  summary demo_negative_read = Some (BufPtr 200, -100, true, None) /\
  length (fd_reads (os_of demo_negative_read))
  = S (length (fd_reads (os_of demo_first))) /\
  ~ (exists l e, summary demo_negative = Some (NullPtr, l, e, Some EINVAL)).
Proof.
  assert (H : summary demo_negative = Some (BufPtr 0, -5, false, None))
    by (vm_compute; reflexivity).
  split_and; try (vm_compute; reflexivity).
  intros (l & e & H'). rewrite H in H'. discriminate H'.
Qed.

(** C9 (the stored cursor).  In every state a caller can reach, the stored
    cursor [p_fd_offset] is the cursor of the descriptor, before a call and
    after it, and a call seeks at most once, to the start of its read, and
    only when the stored cursor differs from it.  A caller that keeps to
    the forward-only contract never causes a seek: no call of his aborts
    for a failed seek, and the log of seeks stays empty. *)
Theorem map_ptr_cursor data size seekable heap script fd0 calls :
  forallb call_ok calls = true ->
  (forall os map offset len r map' os',
      run (open_fd data size seekable heap script) (_hs_map_file fd0) calls
      = Some (os, map) ->
      _hs_map_ptr os map offset len = Return r map' os' ->
      p_fd_offset map = fd_pos os /\
      p_fd_offset map' = fd_pos os' /\
      (fd_seeks os' = fd_seeks os \/
       fd_seeks os' = read_start_of map offset len :: fd_seeks os /\
       p_fd_offset map <> read_start_of map offset len)) /\
  (forward_only 0 0 (open_fd data size seekable heap script)
                (_hs_map_file fd0) calls = true ->
   (first_failure (open_fd data size seekable heap script)
                  (_hs_map_file fd0) calls = None \/
    first_failure (open_fd data size seekable heap script)
                  (_hs_map_file fd0) calls = Some (Abort OutOfMemory)) /\
   forall os map,
     run (open_fd data size seekable heap script) (_hs_map_file fd0) calls
     = Some (os, map) ->
     fd_seeks os = []).
Proof.
  intros Hc.
  pose proof (map_ok_init data size seekable heap script fd0) as Hok0.
  pose proof (sequential_init data size seekable heap script fd0) as Hseq0.
  split.
  - intros os map offset len r map' os' Hrun H.
    destruct (run_from_start _ _ _ _ _ _ _ _ _ Hc Hrun) as (Hok & _).
    pose proof Hok as (_ & Hoff & Hlen & Hcur & _).
    destruct (map_ptr_descriptor _ _ _ _ _ _ _ H) as (Hc' & Hs & _).
    split_and; auto. apply Hc'; [lia|assumption].
  - intros Hf.
    split; [exact (run_forward_failure calls _ _ 0 0 Hok0 Hseq0 Hc Hf)|].
    intros os map Hrun.
    destruct (run_sequential calls _ _ 0 0 _ _ Hok0 Hseq0 Hc Hf Hrun)
      as (lo & hw & Hsk & _).
    exact Hsk.
Qed.

Lemma map_ptr_cursor_witness :
  (p_fd_offset (snd big_state) = fd_pos (fst big_state) /\
   p_fd_offset (map_of big_next) = fd_pos (os_of big_next) /\
   (fd_seeks (os_of big_next) = fd_seeks (fst big_state) \/
    fd_seeks (os_of big_next)
    = read_start_of (snd big_state) 299000 150000 :: fd_seeks (fst big_state)
    /\ p_fd_offset (snd big_state)
       <> read_start_of (snd big_state) 299000 150000)) /\
  fd_seeks (fst big_state) = [].
Proof.
  assert (Hrun : run big_os (_hs_map_file 3) big_calls
                 = Some (fst big_state, snd big_state))
    by (apply run_eta; vm_compute; reflexivity).
  assert (Hcall : _hs_map_ptr (fst big_state) (snd big_state) 299000 150000
                  = Return (reply_of big_next) (map_of big_next)
                           (os_of big_next))
    by (apply outcome_eta; vm_compute; reflexivity).
  assert (Hf : forward_only 0 0 big_os (_hs_map_file 3) big_calls = true)
    by (vm_compute; reflexivity).
  destruct (map_ptr_cursor
              demo_data 600000 false (1024 * 1024)
              [ReadAtMost 4096; ReadAtMost 1; ReadAtMost 100000] 3 big_calls
              eq_refl) as [H1 H2].
  split.
  - exact (H1 _ _ _ _ _ _ _ Hrun Hcall).
  - exact (proj2 (H2 Hf) _ _ Hrun).
Defined.

(** C10 (the end-of-input flag belongs to the call).  A call served from
    the resident window reports the flag clear and touches neither window
    nor descriptor, whatever the calls before it saw; and a call reports
    the flag set exactly when it issued reads and the last of them
    transferred zero bytes. *)
Theorem map_ptr_eof_flag os map offset len r map' os' :
  _hs_map_ptr os map offset len = Return r map' os' ->
  (resident map offset len = true ->
   r_eof r = false /\ map' = map /\ os' = os) /\
  (r_eof r = true <->
   exists e new, fd_reads os' = e :: new ++ fd_reads os /\ rd_ret e = 0).
Proof.
  intros H.
  destruct (map_ptr_descriptor _ _ _ _ _ _ _ H) as (_ & _ & Heof & Hres).
  split; [|exact Heof].
  intros Hr. destruct (Hres Hr) as [-> ->]. split_and; auto.
  destruct (r_eof r); [|reflexivity].
  destruct (proj1 Heof eq_refl) as (e & new & Hl & _).
  symmetry in Hl. apply log_grows_neq in Hl. contradiction.
Qed.

Lemma map_ptr_eof_flag_witness :
  r_eof (reply_of demo_first) = true /\
  r_eof (reply_of demo_again) = false /\
  map_of demo_again = map_of demo_first /\
  os_of demo_again = os_of demo_first.
Proof.
  assert (Hcall : _hs_map_ptr (os_of demo_first) (map_of demo_first) 5 10
                  = Return (reply_of demo_again) (map_of demo_again)
                           (os_of demo_again))
    by (apply outcome_eta; vm_compute; reflexivity).
  destruct (map_ptr_eof_flag _ _ _ _ _ _ _ Hcall) as [H _].
  split; [vm_compute; reflexivity|].
  apply H. vm_compute. reflexivity.
Defined.

(* ================================================================== *)
(** * Part II: properties of the signature loader                      *)
(* ================================================================== *)

(** ** Bytes and big-endian integers *)

Lemma byte_of_to_N b : byte_of (Z.of_N (Byte.to_N b)) = b.
Proof.
  unfold byte_of. pose proof (Byte.to_N_bounded b) as Hb.
  rewrite Z.mod_small by lia. rewrite N2Z.id, Byte.of_to_N. reflexivity.
Qed.

Lemma to_N_byte_of z : Z.of_N (Byte.to_N (byte_of z)) = z mod 256.
Proof.
  unfold byte_of. pose proof (Z.mod_pos_bound z 256 eq_refl) as Hz.
  pose proof (Byte.to_of_N_option_map (Z.to_N (z mod 256))) as H.
  destruct (Byte.of_N (Z.to_N (z mod 256))) as [b|]; cbn in H.
  - destruct (N.leb_spec (Z.to_N (z mod 256)) 255); [|discriminate].
    inversion H as [H']. rewrite H'. lia.
  - destruct (N.leb_spec (Z.to_N (z mod 256)) 255); [discriminate|lia].
Qed.

Lemma byte_range b : 0 <= Z.of_N (Byte.to_N b) < 256.
Proof. pose proof (Byte.to_N_bounded b). lia. Qed.

Lemma be_decode_4 b0 b1 b2 b3 :
  be_decode [b0; b1; b2; b3]
  = ((Z.of_N (Byte.to_N b0) * 256 + Z.of_N (Byte.to_N b1)) * 256
     + Z.of_N (Byte.to_N b2)) * 256 + Z.of_N (Byte.to_N b3).
Proof. reflexivity. Qed.

Lemma be_decode_range b0 b1 b2 b3 : 0 <= be_decode [b0; b1; b2; b3] < 2 ^ 32.
Proof.
  rewrite be_decode_4.
  pose proof (byte_range b0). pose proof (byte_range b1).
  pose proof (byte_range b2). pose proof (byte_range b3). lia.
Qed.

Lemma n4_small u :
  0 <= u < 2 ^ 32 ->
  n4 u = [byte_of (u / 2 ^ 24); byte_of (u / 2 ^ 16); byte_of (u / 2 ^ 8);
          byte_of u].
Proof. intros H. unfold n4. rewrite Z.mod_small by lia. reflexivity. Qed.

Lemma byte_of_mod z : byte_of (z mod 256) = byte_of z.
Proof. unfold byte_of. rewrite Z.mod_mod by lia. reflexivity. Qed.

Lemma n4_be_decode b0 b1 b2 b3 :
  n4 (be_decode [b0; b1; b2; b3]) = [b0; b1; b2; b3].
Proof.
  rewrite n4_small by apply be_decode_range. rewrite be_decode_4.
  pose proof (byte_range b0). pose proof (byte_range b1).
  pose proof (byte_range b2). pose proof (byte_range b3).
  set (x0 := Z.of_N (Byte.to_N b0)) in *.
  set (x1 := Z.of_N (Byte.to_N b1)) in *.
  set (x2 := Z.of_N (Byte.to_N b2)) in *.
  set (x3 := Z.of_N (Byte.to_N b3)) in *.
  rewrite <- (byte_of_to_N b0), <- (byte_of_to_N b1),
    <- (byte_of_to_N b2), <- (byte_of_to_N b3).
  fold x0 x1 x2 x3.
  rewrite <- (byte_of_mod (_ / 2 ^ 16)), <- (byte_of_mod (_ / 2 ^ 8)),
    <- (byte_of_mod (((x0 * 256 + x1) * 256 + x2) * 256 + x3)).
  repeat f_equal.
  - change (2 ^ 24) with 16777216. symmetry.
    apply (Z.div_unique _ _ _ ((x1 * 256 + x2) * 256 + x3)); lia.
  - change (2 ^ 16) with 65536.
    rewrite <- (Z.div_unique _ 65536 (x0 * 256 + x1) (x2 * 256 + x3)) by lia.
    symmetry. apply (Z.mod_unique _ _ x0); lia.
  - change (2 ^ 8) with 256.
    rewrite <- (Z.div_unique _ 256 ((x0 * 256 + x1) * 256 + x2) x3) by lia.
    symmetry. apply (Z.mod_unique _ _ (x0 * 256 + x1)); lia.
  - symmetry. apply (Z.mod_unique _ _ ((x0 * 256 + x1) * 256 + x2)); lia.
Qed.

Lemma be_decode_n4 v : be_decode (n4 v) = v mod 2 ^ 32.
Proof.
  unfold n4. pose proof (Z.mod_pos_bound v (2 ^ 32) eq_refl) as Hu.
  set (u := v mod 2 ^ 32) in *. rewrite be_decode_4, !to_N_byte_of.
  change (2 ^ 24) with 16777216. change (2 ^ 16) with 65536.
  change (2 ^ 8) with 256. change (2 ^ 32) with 4294967296 in Hu.
  Z.div_mod_to_equations. lia.
Qed.

Lemma to_int_mod u : to_int u mod 2 ^ 32 = u mod 2 ^ 32.
Proof.
  unfold to_int.
  replace ((u + 2 ^ 31) mod 2 ^ 32 - 2 ^ 31)
    with ((u + 2 ^ 31) mod 2 ^ 32 + (- 2 ^ 31)) by lia.
  rewrite Zplus_mod_idemp_l. f_equal. lia.
Qed.

Lemma n4_to_int u : n4 (to_int u) = n4 u.
Proof. unfold n4. rewrite to_int_mod. reflexivity. Qed.

Lemma n4_mod u : n4 (u mod 2 ^ 32) = n4 u.
Proof. unfold n4. rewrite Z.mod_mod by lia. reflexivity. Qed.

Lemma to_int_unsigned v :
  INT_MIN <= v <= INT_MAX -> to_int (v mod 2 ^ 32) = v.
Proof.
  intros H. unfold to_int, INT_MIN, INT_MAX in *.
  rewrite Zplus_mod_idemp_l. rewrite Z.mod_small by lia. lia.
Qed.

(** ** The scoop *)

Lemma firstn_skipn_exact (bs rest : list byte) :
  firstn (length bs) (bs ++ rest) = bs /\
  skipn (length bs) (bs ++ rest) = rest.
Proof.
  induction bs as [|b bs [IH1 IH2]]; cbn; [auto|].
  rewrite IH1, IH2. auto.
Qed.

Lemma scoop_read_app job bs rest :
  input job = bs ++ rest ->
  rs_scoop_read job (Z.of_nat (length bs))
  = (RS_DONE, bs,
     set_input job rest (eof_in job) (consumed job + Z.of_nat (length bs))).
Proof.
  intros H. unfold rs_scoop_read. rewrite H, length_app, Nat2Z.id.
  destruct (firstn_skipn_exact bs rest) as [-> ->].
  destruct (Z.leb_spec 0 (Z.of_nat (length bs))); [|lia].
  destruct (Z.leb_spec (Z.of_nat (length bs))
                       (Z.of_nat (length bs + length rest))); [|lia].
  reflexivity.
Qed.

(** The scoop hands out its bytes or leaves the job as it was. *)
Lemma scoop_read_cases job len res s job1 :
  rs_scoop_read job len = (res, s, job1) ->
  (res = RS_DONE /\ input job = s ++ input job1 /\
   Z.of_nat (length s) = len /\
   job1 = set_input job (input job1) (eof_in job) (consumed job + len)) \/
  (res = RS_BLOCKED /\ job1 = job /\
   (input job = [] -> eof_in job = false)) \/
  (res = RS_INPUT_ENDED /\ job1 = job /\ input job = [] /\
   eof_in job = true).
Proof.
  unfold rs_scoop_read. intros H.
  destruct (Z.leb_spec 0 len); cbn [andb] in H;
    [destruct (Z.leb_spec len (Z.of_nat (length (input job))))|].
  - inversion H; subst; clear H. left. cbn [input].
    split_and; auto.
    + symmetry. apply firstn_skipn.
    + rewrite length_firstn. lia.
  - destruct (input job) eqn:Hi; [destruct (eof_in job) eqn:He|];
      inversion H; subst; auto 10. right. left. split_and; auto. discriminate.
  - destruct (input job) eqn:Hi; [destruct (eof_in job) eqn:He|];
      inversion H; subst; auto 10. right. left. split_and; auto. discriminate.
Qed.

Lemma scoop_read_feed job len s job1 bs e :
  rs_scoop_read job len = (RS_DONE, s, job1) ->
  rs_scoop_read (rs_job_feed bs e job) len
  = (RS_DONE, s, rs_job_feed bs e job1).
Proof.
  unfold rs_scoop_read, rs_job_feed. cbn [input consumed eof_in set_input].
  intros H.
  destruct (Z.leb_spec 0 len); cbn [andb] in H |- *;
    [destruct (Z.leb_spec len (Z.of_nat (length (input job))))|].
  - inversion H; subst; clear H. cbn [input consumed eof_in set_input].
    rewrite length_app.
    destruct (Z.leb_spec len (Z.of_nat (length (input job) + length bs)));
      [|lia].
    rewrite firstn_app, skipn_app.
    replace (Z.to_nat len - length (input job))%nat with 0%nat by lia.
    cbn [firstn skipn]. rewrite app_nil_r. reflexivity.
  - destruct (input job); [destruct (eof_in job)|]; discriminate.
  - destruct (input job); [destruct (eof_in job)|]; discriminate.
Qed.

Lemma suck_n4_cases job res l job1 :
  rs_suck_n4 job = (res, l, job1) ->
  (exists b0 b1 b2 b3,
      res = RS_DONE /\ input job = b0 :: b1 :: b2 :: b3 :: input job1 /\
      l = to_int (be_decode [b0; b1; b2; b3]) /\
      job1 = set_input job (input job1) (eof_in job) (consumed job + 4)) \/
  (res = RS_BLOCKED /\ job1 = job /\
   (input job = [] -> eof_in job = false)) \/
  (res = RS_INPUT_ENDED /\ job1 = job /\ input job = [] /\
   eof_in job = true).
Proof.
  unfold rs_suck_n4. intros H.
  destruct (rs_scoop_read job 4) as [[res' s] job'] eqn:Hs.
  apply scoop_read_cases in Hs.
  destruct Hs as [(-> & Hi & Hl & Hj)|[(-> & -> & He)|(-> & -> & Hi & He)]];
    inversion H; subst; clear H; auto 10.
  left. destruct s as [|b0 [|b1 [|b2 [|b3 [|b4 s]]]]]; cbn in Hl; try lia.
  exists b0, b1, b2, b3. auto.
Qed.

Lemma suck_n4_app job b0 b1 b2 b3 rest :
  input job = b0 :: b1 :: b2 :: b3 :: rest ->
  rs_suck_n4 job
  = (RS_DONE, to_int (be_decode [b0; b1; b2; b3]),
     set_input job rest (eof_in job) (consumed job + 4)).
Proof.
  intros H. unfold rs_suck_n4.
  change 4 with (Z.of_nat (length [b0; b1; b2; b3])) at 1.
  rewrite (scoop_read_app job [b0; b1; b2; b3] rest H). reflexivity.
Qed.

Lemma suck_n4_feed job l job1 bs e :
  rs_suck_n4 job = (RS_DONE, l, job1) ->
  rs_suck_n4 (rs_job_feed bs e job) = (RS_DONE, l, rs_job_feed bs e job1).
Proof.
  unfold rs_suck_n4. intros H.
  destruct (rs_scoop_read job 4) as [[res s] job'] eqn:Hs.
  destruct res; inversion H; subst; clear H.
  rewrite (scoop_read_feed _ _ _ _ bs e Hs). reflexivity.
Qed.

Section Loader.

Variable RS_MAX_STRONG_SUM_LENGTH : Z.

Local Abbreviation step := (rs_job_step RS_MAX_STRONG_SUM_LENGTH).
Local Abbreviation iter := (rs_job_iter RS_MAX_STRONG_SUM_LENGTH).
Local Abbreviation Runs := (runs RS_MAX_STRONG_SUM_LENGTH).

(** ** One step of the job *)

Lemma step_final job r : final job = Some r -> step job = (r, job).
Proof. intros H. unfold rs_job_step. rewrite H. reflexivity. Qed.

(** Everything a step of a live job can do. *)
Lemma step_inv job r job' :
  final job = None ->
  step job = (r, job') ->
  (r = RS_BLOCKED /\ job' = job /\ (input job = [] -> eof_in job = false)) \/
  (r = RS_DONE /\ statefn job = S_WEAK /\ input job = [] /\
   eof_in job = true /\ job' = set_final job RS_DONE) \/
  (r = RS_INPUT_ENDED /\ statefn job <> S_WEAK /\ input job = [] /\
   eof_in job = true /\ job' = set_final job RS_INPUT_ENDED) \/
  (r = RS_CORRUPT /\
   exists b0 b1 b2 b3 rest,
     input job = b0 :: b1 :: b2 :: b3 :: rest /\
     job' = set_final (set_input job rest (eof_in job) (consumed job + 4))
                      RS_CORRUPT /\
     (statefn job = S_BLOCKLEN /\ to_int (be_decode [b0; b1; b2; b3]) < 1 \/
      statefn job = S_STRONGLEN /\
      (to_int (be_decode [b0; b1; b2; b3]) < 0 \/
       RS_MAX_STRONG_SUM_LENGTH < to_int (be_decode [b0; b1; b2; b3])))) \/
  (r = RS_RUNNING /\
   exists s,
     input job = s ++ input job' /\
     statefn job' = next_state (statefn job) /\
     eof_in job' = eof_in job /\ final job' = None /\
     consumed job' = consumed job + Z.of_nat (length s) /\
     sig_file_bytes job' = sig_file_bytes job /\
     match statefn job with
     | S_MAGIC =>
         length s = 4%nat /\ magic job' = to_int (be_decode s) /\
         signature job' = signature job
     | S_BLOCKLEN =>
         length s = 4%nat /\ block_len job' = to_int (be_decode s) /\
         1 <= block_len job' /\ magic job' = magic job /\
         signature job' = signature job
     | S_STRONGLEN =>
         length s = 4%nat /\
         0 <= to_int (be_decode s) <= RS_MAX_STRONG_SUM_LENGTH /\
         signature job'
         = {| sig_magic := magic job; sig_block_len := block_len job;
              sig_strong_sum_len := to_int (be_decode s);
              sig_size := size_hint (sig_file_bytes job)
                                    (to_int (be_decode s));
              sig_blocks := [] |}
     | S_WEAK =>
         length s = 4%nat /\
         weak_sig job' = to_int (be_decode s) mod 2 ^ 32 /\
         signature job' = signature job
     | S_STRONG =>
         Z.of_nat (length s) = sig_strong_sum_len (signature job) /\
         signature job'
         = rs_signature_add_block (signature job) (weak_sig job) s
     end).
Proof.
  intros Hf H. unfold rs_job_step in H. rewrite Hf in H.
  destruct (statefn job) eqn:Hst; cbn [rs_job_statefn] in H.
  - (* magic *)
    unfold rs_loadsig_s_magic in H.
    destruct (rs_suck_n4 job) as [[res l] job1] eqn:Hs.
    apply suck_n4_cases in Hs.
    destruct Hs as [(b0 & b1 & b2 & b3 & -> & Hi & -> & Hj)
                   |[(-> & -> & He)|(-> & -> & Hi & He)]].
    + inversion H; subst r job'; clear H. do 4 right. split; [reflexivity|].
      exists [b0; b1; b2; b3]. rewrite Hj. cbn. rewrite Hf. auto 10.
    + inversion H; subst. auto.
    + inversion H; subst. right. right. left. split_and; auto. discriminate.
  - (* block length *)
    unfold rs_loadsig_s_blocklen in H.
    destruct (rs_suck_n4 job) as [[res l] job1] eqn:Hs.
    apply suck_n4_cases in Hs.
    destruct Hs as [(b0 & b1 & b2 & b3 & -> & Hi & -> & Hj)
                   |[(-> & -> & He)|(-> & -> & Hi & He)]].
    + destruct (Z.ltb_spec (to_int (be_decode [b0; b1; b2; b3])) 1).
      * inversion H; subst r job'; clear H. do 3 right. left.
        split; [reflexivity|]. exists b0, b1, b2, b3, (input job1).
        split; [exact Hi|]. split; [rewrite <- Hj; reflexivity|]. auto.
      * inversion H; subst r job'; clear H. do 4 right.
        split; [reflexivity|].
        exists [b0; b1; b2; b3]. rewrite Hj. cbn. rewrite Hf.
        split_and; auto.
    + inversion H; subst. auto.
    + inversion H; subst. right. right. left. split_and; auto. discriminate.
  - (* strong sum length *)
    unfold rs_loadsig_s_stronglen in H.
    destruct (rs_suck_n4 job) as [[res l] job1] eqn:Hs.
    apply suck_n4_cases in Hs.
    destruct Hs as [(b0 & b1 & b2 & b3 & -> & Hi & -> & Hj)
                   |[(-> & -> & He)|(-> & -> & Hi & He)]].
    + destruct (Z.ltb_spec (to_int (be_decode [b0; b1; b2; b3])) 0);
        [|destruct (Z.gtb_spec (to_int (be_decode [b0; b1; b2; b3]))
                               RS_MAX_STRONG_SUM_LENGTH)];
        cbn [orb] in H.
      * inversion H; subst r job'; clear H. do 3 right. left.
        split; [reflexivity|]. exists b0, b1, b2, b3, (input job1).
        split; [exact Hi|]. split; [rewrite <- Hj; reflexivity|]. auto.
      * inversion H; subst r job'; clear H. do 3 right. left.
        split; [reflexivity|]. exists b0, b1, b2, b3, (input job1).
        split; [exact Hi|]. split; [rewrite <- Hj; reflexivity|]. auto.
      * cbn [rs_signature_init] in H.
        inversion H; subst r job'; clear H. do 4 right.
        split; [reflexivity|].
        exists [b0; b1; b2; b3]. rewrite Hj. cbn. rewrite Hf.
        split_and; auto.
    + inversion H; subst. auto.
    + inversion H; subst. right. right. left. split_and; auto. discriminate.
  - (* weak checksum *)
    unfold rs_loadsig_s_weak in H.
    destruct (rs_suck_n4 job) as [[res l] job1] eqn:Hs.
    apply suck_n4_cases in Hs.
    destruct Hs as [(b0 & b1 & b2 & b3 & -> & Hi & -> & Hj)
                   |[(-> & -> & He)|(-> & -> & Hi & He)]].
    + inversion H; subst r job'; clear H. do 4 right. split; [reflexivity|].
      exists [b0; b1; b2; b3]. rewrite Hj. cbn. rewrite Hf. auto 10.
    + inversion H; subst. auto.
    + inversion H; subst. right. left. auto 10.
  - (* strong checksum *)
    unfold rs_loadsig_s_strong in H.
    destruct (rs_scoop_read job (sig_strong_sum_len (signature job)))
      as [[res s] job1] eqn:Hs.
    apply scoop_read_cases in Hs.
    destruct Hs as [(-> & Hi & Hl & Hj)|[(-> & -> & He)|(-> & -> & Hi & He)]].
    + inversion H; subst r job'; clear H. do 4 right. split; [reflexivity|].
      exists s. rewrite Hj. cbn. rewrite Hf. split_and; auto; lia.
    + inversion H; subst. auto.
    + inversion H; subst. right. right. left. split_and; auto. discriminate.
Qed.

(** The results of the scoop are done, blocked and input-ended only. *)
Lemma suck_n4_results job res l job1 :
  rs_suck_n4 job = (res, l, job1) ->
  res = RS_DONE \/ res = RS_BLOCKED \/ res = RS_INPUT_ENDED.
Proof.
  intros H. apply suck_n4_cases in H.
  destruct H as [(b0 & b1 & b2 & b3 & -> & _)|[(-> & _)|(-> & _)]]; auto.
Qed.

Lemma scoop_read_results job len res s job1 :
  rs_scoop_read job len = (res, s, job1) ->
  res = RS_DONE \/ res = RS_BLOCKED \/ res = RS_INPUT_ENDED.
Proof.
  intros H. apply scoop_read_cases in H.
  destruct H as [(-> & _)|[(-> & _)|(-> & _)]]; auto.
Qed.

(** A step that consumed input does the same when more input follows. *)
Lemma step_feed job r job' bs e :
  step job = (r, job') ->
  (final job = None -> r = RS_RUNNING \/ r = RS_CORRUPT) ->
  step (rs_job_feed bs e job) = (r, rs_job_feed bs e job').
Proof.
  intros H Hr. destruct (final job) as [r0|] eqn:Hf.
  { rewrite (step_final _ _ Hf) in H. inversion H; subst.
    apply step_final. exact Hf. }
  specialize (Hr eq_refl).
  unfold rs_job_step in *. cbn [final rs_job_feed set_input statefn].
  rewrite Hf in *.
  destruct (statefn job) eqn:Hst; cbn [rs_job_statefn] in *;
    unfold rs_loadsig_s_magic, rs_loadsig_s_blocklen, rs_loadsig_s_stronglen,
      rs_loadsig_s_weak, rs_loadsig_s_strong in *.
  1-4: destruct (rs_suck_n4 job) as [[res l] job1] eqn:Hs;
       pose proof (suck_n4_results _ _ _ _ Hs) as Hres;
       destruct res;
       try (exfalso; destruct Hres as [?|[?|?]]; discriminate);
       try (inversion H; subst; destruct Hr; discriminate);
       fold (rs_job_feed bs e job);
       rewrite (suck_n4_feed _ _ _ bs e Hs).
  5: destruct (rs_scoop_read job (sig_strong_sum_len (signature job)))
       as [[res s] job1] eqn:Hs;
     pose proof (scoop_read_results _ _ _ _ _ Hs) as Hres;
     destruct res;
     try (exfalso; destruct Hres as [?|[?|?]]; discriminate);
     try (inversion H; subst; destruct Hr; discriminate);
     fold (rs_job_feed bs e job);
     change (signature (rs_job_feed bs e job)) with (signature job);
     rewrite (scoop_read_feed _ _ _ _ bs e Hs).
  - inversion H; subst. reflexivity.
  - destruct (l <? 1); inversion H; subst; reflexivity.
  - destruct ((l <? 0) || (l >? RS_MAX_STRONG_SUM_LENGTH));
      cbn [rs_signature_init] in *; inversion H; subst; reflexivity.
  - inversion H; subst. reflexivity.
  - inversion H; subst. reflexivity.
Qed.

(** ** Advancing the job *)

Lemma step_potential job job' :
  final job = None ->
  step job = (RS_RUNNING, job') ->
  (potential job' < potential job)%nat /\ final job' = None.
Proof.
  intros Hf H. apply step_inv in H; [|exact Hf].
  destruct H as [(E & _)|[(E & _)|[(E & _)|[(E & _)|(_ & s & Hi & Hst & _ & Hf'
                 & _ & _ & Hcase)]]]]; try discriminate.
  split; [|exact Hf']. unfold potential. rewrite Hi, Hst, length_app.
  destruct (statefn job); cbn [next_state];
    try (destruct Hcase as (Hl & _); rewrite Hl); lia.
Qed.

Lemma step_settled job r job' :
  final job <> Some RS_RUNNING ->
  step job = (r, job') ->
  final job' <> Some RS_RUNNING /\ (r = RS_RUNNING -> final job = None).
Proof.
  intros Hs H. destruct (final job) as [r0|] eqn:Hf.
  { rewrite (step_final _ _ Hf) in H. inversion H; subst.
    rewrite Hf. split; [exact Hs|]. intros ->. contradiction. }
  split; [|reflexivity].
  apply step_inv in H; [|exact Hf].
  destruct H as [(_ & -> & _)|[(_ & _ & _ & _ & ->)|[(_ & _ & _ & _ & ->)
                 |[(_ & b0 & b1 & b2 & b3 & rest & _ & -> & _)
                  |(_ & s & _ & _ & _ & Hf' & _)]]]];
    cbn [final set_final]; try discriminate; congruence.
Qed.

Lemma steps_runs fuel : forall job,
  final job <> Some RS_RUNNING ->
  (potential job < fuel)%nat ->
  Runs job (fst (rs_job_steps RS_MAX_STRONG_SUM_LENGTH fuel job))
       (snd (rs_job_steps RS_MAX_STRONG_SUM_LENGTH fuel job)).
Proof.
  induction fuel as [|fuel IH]; intros job Hs Hp; [lia|].
  cbn [rs_job_steps].
  destruct (step job) as [r job1] eqn:Hstep.
  destruct (step_settled _ _ _ Hs Hstep) as [Hs1 Hnone].
  destruct r; try (cbn [fst snd]; apply runs_stop; [exact Hstep|discriminate]).
  destruct (step_potential _ _ (Hnone eq_refl) Hstep) as [Hlt _].
  eapply runs_step; [exact Hstep|]. apply IH; [exact Hs1|lia].
Qed.

Lemma runs_det job r job' :
  Runs job r job' -> forall r2 job2, Runs job r2 job2 -> r = r2 /\ job' = job2.
Proof.
  induction 1 as [job r job' Hstep Hr|job job1 r job' Hstep Hruns IH];
    intros r2 job2 H2; inversion H2; subst.
  - rewrite Hstep in H. inversion H; subst. auto.
  - rewrite Hstep in H. inversion H; subst. contradiction.
  - rewrite Hstep in H. inversion H; subst. contradiction.
  - rewrite Hstep in H. inversion H; subst. apply IH. assumption.
Qed.

Lemma iter_runs job :
  final job <> Some RS_RUNNING ->
  Runs job (fst (iter job)) (snd (iter job)).
Proof.
  intros Hs. apply steps_runs; [exact Hs|].
  unfold potential, steps_bound. destruct (statefn job); lia.
Qed.

Lemma runs_iter job r job' :
  final job <> Some RS_RUNNING -> Runs job r job' -> iter job = (r, job').
Proof.
  intros Hs H. pose proof (iter_runs job Hs) as H'.
  destruct (runs_det _ _ _ H' _ _ H) as [E1 E2].
  destruct (iter job); cbn [fst snd] in *. congruence.
Qed.

Lemma runs_result job r job' : Runs job r job' -> r <> RS_RUNNING.
Proof. induction 1; auto. Qed.

(** Advancing a job always ends: it never reports running. *)
Lemma rs_job_iter_ends job :
  final job <> Some RS_RUNNING -> fst (iter job) <> RS_RUNNING.
Proof. intros Hs. exact (runs_result _ _ _ (iter_runs job Hs)). Qed.

Lemma runs_settled job r job' :
  Runs job r job' ->
  final job <> Some RS_RUNNING -> final job' <> Some RS_RUNNING.
Proof.
  induction 1 as [job r job' Hstep Hr|job job1 r job' Hstep Hruns IH];
    intros Hs.
  - apply (step_settled _ _ _ Hs Hstep).
  - apply IH. apply (step_settled _ _ _ Hs Hstep).
Qed.

(** ** Input in pieces *)

Lemma feed_feed bs e bs' e' job :
  rs_job_feed bs' e' (rs_job_feed bs e job) = rs_job_feed (bs ++ bs') e' job.
Proof.
  unfold rs_job_feed, set_input. cbn. rewrite app_assoc. reflexivity.
Qed.

Lemma step_eof job r job' :
  step job = (r, job') -> eof_in job' = eof_in job.
Proof.
  intros H. destruct (final job) as [r0|] eqn:Hf.
  { rewrite (step_final _ _ Hf) in H. inversion H; subst. reflexivity. }
  apply step_inv in H; [|exact Hf].
  destruct H as [(_ & -> & _)|[(_ & _ & _ & _ & ->)|[(_ & _ & _ & _ & ->)
                 |[(_ & b0 & b1 & b2 & b3 & rest & _ & -> & _)
                  |(_ & s & _ & _ & He & _)]]]]; auto.
Qed.

(** What a job does with a first piece of input and then with the rest, it
    does with both at once. *)
Lemma runs_feed job r job' :
  Runs job r job' ->
  eof_in job = false ->
  forall bs e r2 job2,
    Runs (rs_job_feed bs e job') r2 job2 ->
    Runs (rs_job_feed bs e job) r2 job2.
Proof.
  induction 1 as [job r job' Hstep Hr|job job1 r job' Hstep Hruns IH];
    intros He bs e r2 job2 H2.
  - destruct (final job) as [r0|] eqn:Hf.
    { rewrite (step_final _ _ Hf) in Hstep. inversion Hstep; subst.
      exact H2. }
    pose proof Hstep as Hinv. apply step_inv in Hinv; [|exact Hf].
    destruct Hinv as [(_ & -> & _)|[(_ & _ & _ & E & _)|[(_ & _ & _ & E & _)
                     |[(-> & b0 & b1 & b2 & b3 & rest & _ & Hj & _)
                      |(-> & _)]]]];
      try congruence.
    assert (Hstep' : step (rs_job_feed bs e job)
                     = (RS_CORRUPT, rs_job_feed bs e job'))
      by (apply step_feed; auto).
    assert (Hlatched : final (rs_job_feed bs e job') = Some RS_CORRUPT)
      by (subst job'; reflexivity).
    inversion H2; subst; rewrite (step_final _ _ Hlatched) in H;
      inversion H; subst.
    apply runs_stop; [exact Hstep'|discriminate].
  - eapply runs_step.
    + apply step_feed; [exact Hstep|auto].
    + apply IH; [|exact H2]. rewrite (step_eof _ _ _ Hstep). exact He.
Qed.

Lemma load_pieces_whole pieces : forall job,
  final job <> Some RS_RUNNING ->
  load_pieces RS_MAX_STRONG_SUM_LENGTH job pieces
  = load_whole RS_MAX_STRONG_SUM_LENGTH job (concat pieces).
Proof.
  induction pieces as [|bs pieces IH]; intros job Hs.
  - reflexivity.
  - unfold load_pieces. cbn [feed_pieces concat].
    set (job_a := rs_job_feed bs false job).
    assert (Hsa : final job_a <> Some RS_RUNNING) by exact Hs.
    pose proof (iter_runs job_a Hsa) as Ha.
    set (job1 := snd (iter job_a)) in *.
    assert (Hs1 : final job1 <> Some RS_RUNNING)
      by (eapply runs_settled; eassumption).
    fold (load_pieces RS_MAX_STRONG_SUM_LENGTH job1 pieces).
    rewrite (IH job1 Hs1). unfold load_whole.
    set (job_b := rs_job_feed (concat pieces) true job1).
    assert (Hsb : final job_b <> Some RS_RUNNING) by exact Hs1.
    pose proof (iter_runs job_b Hsb) as Hb.
    pose proof (runs_feed _ _ _ Ha eq_refl _ _ _ _ Hb) as Hab.
    unfold job_a in Hab. rewrite feed_feed in Hab.
    rewrite (runs_iter (rs_job_feed (bs ++ concat pieces) true job) _ _
                       Hs Hab).
    destruct (iter job_b); reflexivity.
Qed.

(** ** Steps on input that is there *)

Lemma step_magic_app job b0 b1 b2 b3 rest :
  final job = None -> statefn job = S_MAGIC ->
  input job = b0 :: b1 :: b2 :: b3 :: rest ->
  exists job',
    step job = (RS_RUNNING, job') /\
    final job' = None /\ statefn job' = S_BLOCKLEN /\ input job' = rest /\
    eof_in job' = eof_in job /\ consumed job' = consumed job + 4 /\
    sig_file_bytes job' = sig_file_bytes job /\
    magic job' = to_int (be_decode [b0; b1; b2; b3]).
Proof.
  intros Hf Hst Hi. eexists. split.
  - unfold rs_job_step. rewrite Hf, Hst. cbn [rs_job_statefn].
    unfold rs_loadsig_s_magic. rewrite (suck_n4_app _ _ _ _ _ _ Hi).
    reflexivity.
  - cbn. rewrite Hf. auto 10.
Qed.

Lemma step_blocklen_app job b0 b1 b2 b3 rest :
  final job = None -> statefn job = S_BLOCKLEN ->
  input job = b0 :: b1 :: b2 :: b3 :: rest ->
  1 <= to_int (be_decode [b0; b1; b2; b3]) ->
  exists job',
    step job = (RS_RUNNING, job') /\
    final job' = None /\ statefn job' = S_STRONGLEN /\ input job' = rest /\
    eof_in job' = eof_in job /\ consumed job' = consumed job + 4 /\
    sig_file_bytes job' = sig_file_bytes job /\
    magic job' = magic job /\
    block_len job' = to_int (be_decode [b0; b1; b2; b3]).
Proof.
  intros Hf Hst Hi Hl. eexists. split.
  - unfold rs_job_step. rewrite Hf, Hst. cbn [rs_job_statefn].
    unfold rs_loadsig_s_blocklen. rewrite (suck_n4_app _ _ _ _ _ _ Hi).
    destruct (Z.ltb_spec (to_int (be_decode [b0; b1; b2; b3])) 1); [lia|].
    reflexivity.
  - cbn. rewrite Hf. auto 10.
Qed.

Lemma step_stronglen_app job b0 b1 b2 b3 rest :
  final job = None -> statefn job = S_STRONGLEN ->
  input job = b0 :: b1 :: b2 :: b3 :: rest ->
  0 <= to_int (be_decode [b0; b1; b2; b3]) <= RS_MAX_STRONG_SUM_LENGTH ->
  exists job',
    step job = (RS_RUNNING, job') /\
    final job' = None /\ statefn job' = S_WEAK /\ input job' = rest /\
    eof_in job' = eof_in job /\ consumed job' = consumed job + 4 /\
    signature job'
    = {| sig_magic := magic job; sig_block_len := block_len job;
         sig_strong_sum_len := to_int (be_decode [b0; b1; b2; b3]);
         sig_size := size_hint (sig_file_bytes job)
                               (to_int (be_decode [b0; b1; b2; b3]));
         sig_blocks := [] |}.
Proof.
  intros Hf Hst Hi Hl. eexists. split.
  - unfold rs_job_step. rewrite Hf, Hst. cbn [rs_job_statefn].
    unfold rs_loadsig_s_stronglen. rewrite (suck_n4_app _ _ _ _ _ _ Hi).
    destruct (Z.ltb_spec (to_int (be_decode [b0; b1; b2; b3])) 0); [lia|].
    destruct (Z.gtb_spec (to_int (be_decode [b0; b1; b2; b3]))
                         RS_MAX_STRONG_SUM_LENGTH); [lia|].
    reflexivity.
  - cbn. rewrite Hf. auto 10.
Qed.

Lemma step_weak_app job b0 b1 b2 b3 rest :
  final job = None -> statefn job = S_WEAK ->
  input job = b0 :: b1 :: b2 :: b3 :: rest ->
  exists job',
    step job = (RS_RUNNING, job') /\
    final job' = None /\ statefn job' = S_STRONG /\ input job' = rest /\
    eof_in job' = eof_in job /\ consumed job' = consumed job + 4 /\
    signature job' = signature job /\
    weak_sig job' = to_int (be_decode [b0; b1; b2; b3]) mod 2 ^ 32.
Proof.
  intros Hf Hst Hi. eexists. split.
  - unfold rs_job_step. rewrite Hf, Hst. cbn [rs_job_statefn].
    unfold rs_loadsig_s_weak. rewrite (suck_n4_app _ _ _ _ _ _ Hi).
    reflexivity.
  - cbn. rewrite Hf. auto 10.
Qed.

Lemma step_strong_app job s rest :
  final job = None -> statefn job = S_STRONG ->
  input job = s ++ rest ->
  Z.of_nat (length s) = sig_strong_sum_len (signature job) ->
  exists job',
    step job = (RS_RUNNING, job') /\
    final job' = None /\ statefn job' = S_WEAK /\ input job' = rest /\
    eof_in job' = eof_in job /\
    consumed job' = consumed job + Z.of_nat (length s) /\
    signature job'
    = rs_signature_add_block (signature job) (weak_sig job) s.
Proof.
  intros Hf Hst Hi Hl. eexists. split.
  - unfold rs_job_step. rewrite Hf, Hst. cbn [rs_job_statefn].
    unfold rs_loadsig_s_strong. rewrite <- Hl.
    rewrite (scoop_read_app _ _ _ Hi). reflexivity.
  - cbn. rewrite Hf. auto 10.
Qed.

Lemma step_weak_end job :
  final job = None -> statefn job = S_WEAK ->
  input job = [] -> eof_in job = true ->
  step job = (RS_DONE, set_final job RS_DONE).
Proof.
  intros Hf Hst Hi He.
  unfold rs_job_step. rewrite Hf, Hst. cbn [rs_job_statefn].
  unfold rs_loadsig_s_weak, rs_suck_n4, rs_scoop_read. rewrite Hi, He.
  reflexivity.
Qed.

(** ** Decoding a well-formed stream *)

Lemma wire_blocks_app bl1 bl2 :
  wire_blocks (bl1 ++ bl2) = wire_blocks bl1 ++ wire_blocks bl2.
Proof. unfold wire_blocks. apply flat_map_app. Qed.

Lemma n4_cons v : exists b0 b1 b2 b3, n4 v = [b0; b1; b2; b3].
Proof. unfold n4. eauto. Qed.

Lemma runs_blocks blocks : forall job,
  final job = None -> statefn job = S_WEAK -> eof_in job = true ->
  input job = wire_blocks blocks ->
  Forall (fun b => 0 <= fst b < 2 ^ 32 /\
                   Z.of_nat (length (snd b))
                   = sig_strong_sum_len (signature job)) blocks ->
  exists job',
    Runs job RS_DONE job' /\
    statefn job' = S_WEAK /\ input job' = [] /\
    consumed job' = consumed job + Z.of_nat (length (wire_blocks blocks)) /\
    signature job'
    = {| sig_magic := sig_magic (signature job);
         sig_block_len := sig_block_len (signature job);
         sig_strong_sum_len := sig_strong_sum_len (signature job);
         sig_size := sig_size (signature job);
         sig_blocks := sig_blocks (signature job) ++ blocks |}.
Proof.
  induction blocks as [|[w s] blocks IH]; intros job Hf Hst He Hi Hall.
  - exists (set_final job RS_DONE). split.
    + apply runs_stop; [|discriminate]. apply step_weak_end; assumption.
    + cbn. rewrite app_nil_r. split_and; auto; try lia.
      destruct (signature job); reflexivity.
  - inversion Hall as [|? ? [Hw Hs] Hall']; subst. cbn [fst snd] in *.
    cbn [wire_blocks flat_map fst snd] in Hi.
    fold (wire_blocks blocks) in Hi.
    destruct (n4_cons w) as (b0 & b1 & b2 & b3 & Hn4).
    rewrite Hn4 in Hi. cbn [app] in Hi.
    destruct (step_weak_app _ _ _ _ _ _ Hf Hst Hi)
      as (job1 & Hstep1 & Hf1 & Hst1 & Hi1 & He1 & Hc1 & Hsig1 & Hw1).
    assert (Hs1 : Z.of_nat (length s) = sig_strong_sum_len (signature job1))
      by congruence.
    destruct (step_strong_app _ _ _ Hf1 Hst1 Hi1 Hs1)
      as (job2 & Hstep2 & Hf2 & Hst2 & Hi2 & He2 & Hc2 & Hsig2).
    assert (Hweak : weak_sig job1 = w).
    { rewrite Hw1, <- Hn4, be_decode_n4, to_int_mod, Z.mod_mod by lia.
      apply Z.mod_small. lia. }
    rewrite Hweak, Hsig1 in Hsig2.
    destruct (IH job2 Hf2 Hst2 ltac:(congruence) Hi2)
      as (job' & Hruns & Hst' & Hi' & Hc' & Hsig').
    { rewrite Hsig2. cbn [rs_signature_add_block sig_strong_sum_len].
      exact Hall'. }
    exists job'. split; [eapply runs_step; [exact Hstep1|];
                         eapply runs_step; [exact Hstep2|]; exact Hruns|].
    split_and; auto.
    + rewrite Hc', Hc2, Hc1. cbn [wire_blocks flat_map fst snd].
      fold (wire_blocks blocks). rewrite Hn4, !length_app. cbn [length]. lia.
    + rewrite Hsig', Hsig2. cbn. rewrite <- app_assoc. reflexivity.
Qed.

Lemma load_whole_wire sig n :
  sig_ok RS_MAX_STRONG_SUM_LENGTH sig ->
  exists job',
    load_whole RS_MAX_STRONG_SUM_LENGTH
               (set_sig_file_bytes rs_loadsig_begin n) (wire_signature sig)
    = (RS_DONE, job') /\
    signature job' = with_size sig (size_hint n (sig_strong_sum_len sig)) /\
    statefn job' = S_WEAK /\ input job' = [] /\
    consumed job' = Z.of_nat (length (wire_signature sig)).
Proof.
  intros (Hm & Hb & Hs & Hs' & Hall). unfold load_whole.
  set (job0 := rs_job_feed (wire_signature sig) true
                           (set_sig_file_bytes rs_loadsig_begin n)).
  assert (Hi0 : input job0 = wire_signature sig) by reflexivity.
  unfold wire_signature in Hi0.
  destruct (n4_cons (sig_magic sig)) as (a0 & a1 & a2 & a3 & Ha).
  destruct (n4_cons (sig_block_len sig)) as (b0 & b1 & b2 & b3 & Hb4).
  destruct (n4_cons (sig_strong_sum_len sig)) as (c0 & c1 & c2 & c3 & Hc).
  rewrite Ha, Hb4, Hc in Hi0. cbn [app] in Hi0.
  assert (Va : to_int (be_decode [a0; a1; a2; a3]) = sig_magic sig)
    by (rewrite <- Ha, be_decode_n4; apply to_int_unsigned; assumption).
  assert (Vb : to_int (be_decode [b0; b1; b2; b3]) = sig_block_len sig)
    by (rewrite <- Hb4, be_decode_n4; apply to_int_unsigned;
        unfold INT_MIN; lia).
  assert (Vc : to_int (be_decode [c0; c1; c2; c3]) = sig_strong_sum_len sig)
    by (rewrite <- Hc, be_decode_n4; apply to_int_unsigned;
        unfold INT_MIN; lia).
  destruct (step_magic_app job0 _ _ _ _ _ eq_refl eq_refl Hi0)
    as (job1 & Hstep1 & Hf1 & Hst1 & Hi1 & He1 & Hc1 & Hn1 & Hm1).
  assert (Vb1 : 1 <= to_int (be_decode [b0; b1; b2; b3])) by lia.
  destruct (step_blocklen_app job1 _ _ _ _ _ Hf1 Hst1 Hi1 Vb1)
    as (job2 & Hstep2 & Hf2 & Hst2 & Hi2 & He2 & Hc2 & Hn2 & Hm2 & Hb2).
  assert (Vc1 : 0 <= to_int (be_decode [c0; c1; c2; c3])
                <= RS_MAX_STRONG_SUM_LENGTH) by lia.
  destruct (step_stronglen_app job2 _ _ _ _ _ Hf2 Hst2 Hi2 Vc1)
    as (job3 & Hstep3 & Hf3 & Hst3 & Hi3 & He3 & Hc3 & Hsig3).
  rewrite Vc, Hm2, Hm1, Va, Hb2, Vb, Hn2, Hn1 in Hsig3.
  change (sig_file_bytes job0) with n in Hsig3.
  destruct (runs_blocks (sig_blocks sig) job3 Hf3 Hst3) as
    (job' & Hruns & Hst' & Hi' & Hc' & Hsig').
  { rewrite He3, He2, He1. reflexivity. }
  { exact Hi3. }
  { rewrite Hsig3. cbn [sig_strong_sum_len]. exact Hall. }
  exists job'. split.
  - apply runs_iter; [discriminate|].
    eapply runs_step; [exact Hstep1|]. eapply runs_step; [exact Hstep2|].
    eapply runs_step; [exact Hstep3|]. exact Hruns.
  - split_and; auto.
    + rewrite Hsig', Hsig3. reflexivity.
    + rewrite Hc', Hc3, Hc2, Hc1. unfold wire_signature.
      rewrite Ha, Hb4, Hc, !length_app. change (consumed job0) with 0.
      cbn [length]. lia.
Qed.

(** ** Only a well-formed stream loads *)

Lemma length_4 (s : list byte) :
  length s = 4%nat -> exists b0 b1 b2 b3, s = [b0; b1; b2; b3].
Proof.
  destruct s as [|b0 [|b1 [|b2 [|b3 [|b4 s]]]]]; cbn; intros H;
    try discriminate. eauto.
Qed.

Lemma n4_field (s : list byte) :
  length s = 4%nat -> n4 (to_int (be_decode s)) = s.
Proof.
  intros H. destruct (length_4 s H) as (b0 & b1 & b2 & b3 & ->).
  rewrite n4_to_int. apply n4_be_decode.
Qed.

Lemma step_faithful all job job' :
  final job = None ->
  step job = (RS_RUNNING, job') ->
  faithful RS_MAX_STRONG_SUM_LENGTH all job ->
  faithful RS_MAX_STRONG_SUM_LENGTH all job'.
Proof.
  intros Hf H [Hp Hv]. apply step_inv in H; [|exact Hf].
  destruct H as [(E & _)|[(E & _)|[(E & _)|[(E & _)|(_ & s & Hi & Hst & _ & _
                 & _ & _ & Hcase)]]]]; try discriminate.
  unfold faithful, parsed in *. rewrite Hst. rewrite Hi in Hp.
  destruct (statefn job); cbn [next_state].
  - destruct Hcase as (Hl & Hm & Hsig).
    rewrite Hm, (n4_field s Hl). auto.
  - destruct Hcase as (Hl & Hb & Hb1 & Hm & Hsig).
    rewrite Hb in Hb1 |- *.
    rewrite Hm, (n4_field s Hl), <- app_assoc. auto.
  - destruct Hcase as (Hl & Hr & Hsig). rewrite Hsig.
    unfold wire_signature, table_ok.
    cbn [sig_magic sig_block_len sig_strong_sum_len sig_blocks wire_blocks
         flat_map].
    rewrite (n4_field s Hl), app_nil_r.
    rewrite <- !app_assoc in Hp |- *. split; [exact Hp|].
    split_and; auto; lia.
  - destruct Hcase as (Hl & Hw & Hsig).
    rewrite Hsig, Hw, n4_mod, (n4_field s Hl), <- app_assoc. auto.
  - destruct Hcase as (Hl & Hsig). rewrite Hsig.
    destruct Hv as (V1 & V2 & V3).
    unfold wire_signature, table_ok, rs_signature_add_block in *.
    cbn [sig_magic sig_block_len sig_strong_sum_len sig_blocks].
    rewrite wire_blocks_app. cbn [wire_blocks flat_map fst snd].
    rewrite app_nil_r. split.
    + rewrite <- Hp. rewrite <- !app_assoc. reflexivity.
    + split; [exact V1|]. split; [exact V2|].
      apply Forall_app. split; [exact V3|].
      constructor; [exact Hl|constructor].
Qed.

Lemma runs_faithful all job r job' :
  Runs job r job' ->
  final job = None ->
  faithful RS_MAX_STRONG_SUM_LENGTH all job ->
  r = RS_DONE ->
  all = wire_signature (signature job') /\
  table_ok RS_MAX_STRONG_SUM_LENGTH (signature job') /\
  statefn job' = S_WEAK /\ input job' = [].
Proof.
  induction 1 as [job r job' Hstep Hr|job job1 r job' Hstep Hruns IH];
    intros Hf Hfa ->.
  - apply step_inv in Hstep; [|exact Hf].
    destruct Hstep as [(E & _)|[(_ & Hst & Hi & He & ->)|[(E & _)|[(E & _)
                      |(E & _)]]]]; try discriminate.
    destruct Hfa as [Hp Hv]. unfold parsed in Hp. rewrite Hst in Hp, Hv.
    rewrite Hi, app_nil_r in Hp. cbn. auto.
  - apply IH; auto.
    + apply (step_potential _ _ Hf Hstep).
    + eapply step_faithful; eassumption.
Qed.

Lemma load_whole_done n bytes job' :
  load_whole RS_MAX_STRONG_SUM_LENGTH
             (set_sig_file_bytes rs_loadsig_begin n) bytes
  = (RS_DONE, job') ->
  bytes = wire_signature (signature job') /\
  table_ok RS_MAX_STRONG_SUM_LENGTH (signature job') /\
  statefn job' = S_WEAK /\ input job' = [].
Proof.
  unfold load_whole. intros H.
  set (job0 := rs_job_feed bytes true
                           (set_sig_file_bytes rs_loadsig_begin n)) in *.
  pose proof (iter_runs job0 ltac:(discriminate)) as Hruns.
  rewrite H in Hruns. cbn [fst snd] in Hruns.
  apply (runs_faithful bytes _ _ _ Hruns); auto.
  split; [reflexivity|exact I].
Qed.

(** ** Corrupt length fields *)

Lemma step_blocklen_corrupt job b0 b1 b2 b3 rest :
  final job = None -> statefn job = S_BLOCKLEN ->
  input job = b0 :: b1 :: b2 :: b3 :: rest ->
  to_int (be_decode [b0; b1; b2; b3]) < 1 ->
  step job
  = (RS_CORRUPT,
     set_final (set_input job rest (eof_in job) (consumed job + 4))
               RS_CORRUPT).
Proof.
  intros Hf Hst Hi Hl.
  unfold rs_job_step. rewrite Hf, Hst. cbn [rs_job_statefn].
  unfold rs_loadsig_s_blocklen. rewrite (suck_n4_app _ _ _ _ _ _ Hi).
  destruct (Z.ltb_spec (to_int (be_decode [b0; b1; b2; b3])) 1); [|lia].
  reflexivity.
Qed.

Lemma step_stronglen_corrupt job b0 b1 b2 b3 rest :
  final job = None -> statefn job = S_STRONGLEN ->
  input job = b0 :: b1 :: b2 :: b3 :: rest ->
  to_int (be_decode [b0; b1; b2; b3]) < 0 \/
  RS_MAX_STRONG_SUM_LENGTH < to_int (be_decode [b0; b1; b2; b3]) ->
  step job
  = (RS_CORRUPT,
     set_final (set_input job rest (eof_in job) (consumed job + 4))
               RS_CORRUPT).
Proof.
  intros Hf Hst Hi Hl.
  unfold rs_job_step. rewrite Hf, Hst. cbn [rs_job_statefn].
  unfold rs_loadsig_s_stronglen. rewrite (suck_n4_app _ _ _ _ _ _ Hi).
  destruct (Z.ltb_spec (to_int (be_decode [b0; b1; b2; b3])) 0);
    [reflexivity|].
  destruct (Z.gtb_spec (to_int (be_decode [b0; b1; b2; b3]))
                       RS_MAX_STRONG_SUM_LENGTH); [reflexivity|lia].
Qed.

Lemma latched_failed job r :
  final job = Some r -> r <> RS_RUNNING ->
  failed_for_good RS_MAX_STRONG_SUM_LENGTH r job.
Proof.
  intros Hf Hr. split; [exact Hf|]. intros more e.
  assert (Hf' : final (rs_job_feed more e job) = Some r) by exact Hf.
  apply runs_iter; [rewrite Hf'; congruence|].
  apply runs_stop; [apply step_final; exact Hf'|exact Hr].
Qed.

(** ** The properties of the specification *)

(** C2 (the loader's state machine).  A step that reports running moves to
    the next state in the order magic, block length, strong-sum length,
    then weak and strong in turn; a strong step appends one record, made of
    the weak checksum read before it and the bytes it consumed, to the end
    of the table, and no other step after the table is set up touches it;
    a step that does not report running stays in its state.  A step
    reports [RS_DONE] exactly when it is the weak state, no input is left
    and the input has ended.  So the stream of a well-formed table loads
    with [RS_DONE] into that table, record for record, and a load that
    ends with [RS_DONE] has read exactly the encoding of the table it
    holds: a stream that ends inside a record is not reported as done. *)
Theorem loadsig_state_machine :
  (forall job r job',
      final job = None ->
      step job = (r, job') ->
      (r = RS_RUNNING -> statefn job' = next_state (statefn job)) /\
      (r <> RS_RUNNING ->
       statefn job' = statefn job /\ signature job' = signature job) /\
      (r = RS_RUNNING -> statefn job = S_STRONG ->
       exists strong,
         input job = strong ++ input job' /\
         Z.of_nat (length strong) = sig_strong_sum_len (signature job) /\
         sig_blocks (signature job')
         = sig_blocks (signature job) ++ [(weak_sig job, strong)]) /\
      (r = RS_RUNNING -> statefn job <> S_STRONG ->
       statefn job <> S_STRONGLEN -> signature job' = signature job) /\
      (r = RS_DONE <->
       statefn job = S_WEAK /\ input job = [] /\ eof_in job = true)) /\
  (forall sig n,
      sig_ok RS_MAX_STRONG_SUM_LENGTH sig ->
      exists job',
        load_whole RS_MAX_STRONG_SUM_LENGTH
                   (set_sig_file_bytes rs_loadsig_begin n)
                   (wire_signature sig)
        = (RS_DONE, job') /\
        signature job'
        = with_size sig (size_hint n (sig_strong_sum_len sig))) /\
  (forall n bytes job',
      load_whole RS_MAX_STRONG_SUM_LENGTH
                 (set_sig_file_bytes rs_loadsig_begin n) bytes
      = (RS_DONE, job') ->
      bytes = wire_signature (signature job') /\
      table_ok RS_MAX_STRONG_SUM_LENGTH (signature job') /\
      statefn job' = S_WEAK /\ input job' = []).
Proof.
  split_and.
  - intros job r job' Hf H. pose proof H as Hinv.
    apply step_inv in Hinv; [|exact Hf].
    destruct Hinv as [(-> & -> & Hb)
                     |[(-> & Hst & Hi & He & ->)
                      |[(-> & Hst & Hi & He & ->)
                       |[(-> & b0 & b1 & b2 & b3 & rest & Hi & -> & Hc)
                        |(-> & s & Hi & Hst & He & Hf' & Hc & Hn & Hcase)]]]].
    + split_and; try discriminate; auto; try tauto.
      split; [discriminate|]. intros (_ & Hi & He).
      rewrite (Hb Hi) in He. discriminate.
    + split_and; try discriminate; auto. tauto.
    + split_and; try discriminate; auto.
      split; [discriminate|]. intros (Hw & _). contradiction.
    + split_and; try discriminate; auto.
      split; [discriminate|]. intros (_ & Hi' & _). congruence.
    + split_and; auto; try contradiction.
      * intros _ Hs. rewrite Hs in Hcase. destruct Hcase as [Hl Hsig].
        exists s. rewrite Hsig. auto.
      * intros _ H1 H2. destruct (statefn job); try contradiction;
          destruct Hcase as (_ & ? & ?); try tauto.
      * split; [discriminate|]. intros (Hw & Hi' & _).
        rewrite Hw in Hcase. destruct Hcase as (Hl & _).
        rewrite Hi' in Hi. destruct s; cbn in *; discriminate.
  - intros sig n Hok.
    destruct (load_whole_wire sig n Hok) as (job' & H & Hsig & _).
    eauto.
  - intros n bytes job'. apply load_whole_done.
Qed.

(** C3 (resumability).  Feeding the loader a stream one byte at a time,
    advancing the job after each byte, or in any other pieces, leaves the
    same result and the same job, table included, as feeding the stream at
    once; a step that reports blocked changes nothing in the job; and for
    the stream of a well-formed table both ways end with [RS_DONE] and that
    table. *)
Theorem loadsig_resumable :
  (forall n bytes,
      load_bytewise RS_MAX_STRONG_SUM_LENGTH
                    (set_sig_file_bytes rs_loadsig_begin n) bytes
      = load_whole RS_MAX_STRONG_SUM_LENGTH
                   (set_sig_file_bytes rs_loadsig_begin n) bytes) /\
  (forall n pieces,
      load_pieces RS_MAX_STRONG_SUM_LENGTH
                  (set_sig_file_bytes rs_loadsig_begin n) pieces
      = load_whole RS_MAX_STRONG_SUM_LENGTH
                   (set_sig_file_bytes rs_loadsig_begin n) (concat pieces)) /\
  (forall job job', step job = (RS_BLOCKED, job') -> job' = job) /\
  (forall sig n,
      sig_ok RS_MAX_STRONG_SUM_LENGTH sig ->
      exists job',
        load_bytewise RS_MAX_STRONG_SUM_LENGTH
                      (set_sig_file_bytes rs_loadsig_begin n)
                      (wire_signature sig)
        = (RS_DONE, job') /\
        signature job'
        = with_size sig (size_hint n (sig_strong_sum_len sig))).
Proof.
  assert (Hpieces : forall n pieces,
      load_pieces RS_MAX_STRONG_SUM_LENGTH
                  (set_sig_file_bytes rs_loadsig_begin n) pieces
      = load_whole RS_MAX_STRONG_SUM_LENGTH
                   (set_sig_file_bytes rs_loadsig_begin n) (concat pieces))
    by (intros; apply load_pieces_whole; discriminate).
  assert (Hbytes : forall n bytes,
      load_bytewise RS_MAX_STRONG_SUM_LENGTH
                    (set_sig_file_bytes rs_loadsig_begin n) bytes
      = load_whole RS_MAX_STRONG_SUM_LENGTH
                   (set_sig_file_bytes rs_loadsig_begin n) bytes).
  { intros n bytes. unfold load_bytewise. rewrite Hpieces. f_equal.
    induction bytes as [|b bytes IH]; cbn; [reflexivity|].
    rewrite IH. reflexivity. }
  split_and; auto.
  - intros job job' H. destruct (final job) as [r0|] eqn:Hf.
    { rewrite (step_final _ _ Hf) in H. inversion H; reflexivity. }
    apply step_inv in H; [|exact Hf].
    destruct H as [(_ & -> & _)|[(E & _)|[(E & _)|[(E & _)|(E & _)]]]];
      try discriminate. reflexivity.
  - intros sig n Hok. rewrite Hbytes.
    destruct (load_whole_wire sig n Hok) as (job' & H & Hsig & _).
    eauto.
Qed.

(** C6 (corruption rejection).  When the block-length field of a stream is
    less than 1 the loader reports [RS_CORRUPT] having consumed the 8 bytes
    up to and including that field, and when the strong-sum-length field is
    negative or above the maximum it reports [RS_CORRUPT] having consumed
    the 12 bytes of the header; what follows the field is left unread, and
    the job has failed for good. *)
Theorem loadsig_corrupt n m0 m1 m2 m3 l0 l1 l2 l3 rest e :
  let job0 := set_sig_file_bytes rs_loadsig_begin n in
  (to_int (be_decode [l0; l1; l2; l3]) < 1 ->
   exists job',
     iter (rs_job_feed ([m0; m1; m2; m3] ++ [l0; l1; l2; l3] ++ rest) e job0)
     = (RS_CORRUPT, job') /\
     consumed job' = 8 /\ input job' = rest /\
     failed_for_good RS_MAX_STRONG_SUM_LENGTH RS_CORRUPT job') /\
  (forall s0 s1 s2 s3,
      1 <= to_int (be_decode [l0; l1; l2; l3]) ->
      to_int (be_decode [s0; s1; s2; s3]) < 0 \/
      RS_MAX_STRONG_SUM_LENGTH < to_int (be_decode [s0; s1; s2; s3]) ->
      exists job',
        iter (rs_job_feed ([m0; m1; m2; m3] ++ [l0; l1; l2; l3]
                           ++ [s0; s1; s2; s3] ++ rest) e job0)
        = (RS_CORRUPT, job') /\
        consumed job' = 12 /\ input job' = rest /\
        failed_for_good RS_MAX_STRONG_SUM_LENGTH RS_CORRUPT job').
Proof.
  intros job0. split.
  - intros Hl.
    set (job := rs_job_feed _ e job0).
    destruct (step_magic_app job m0 m1 m2 m3 _ eq_refl eq_refl eq_refl)
      as (job1 & Hstep1 & Hf1 & Hst1 & Hi1 & He1 & Hc1 & _).
    pose proof (step_blocklen_corrupt job1 _ _ _ _ _ Hf1 Hst1 Hi1 Hl)
      as Hstep2.
    eexists. split.
    + apply runs_iter; [discriminate|].
      eapply runs_step; [exact Hstep1|].
      apply runs_stop; [exact Hstep2|discriminate].
    + cbn [consumed input set_final set_input]. rewrite Hc1.
      split_and; auto. apply latched_failed; [reflexivity|discriminate].
  - intros s0 s1 s2 s3 Hl Hs.
    set (job := rs_job_feed _ e job0).
    destruct (step_magic_app job m0 m1 m2 m3 _ eq_refl eq_refl eq_refl)
      as (job1 & Hstep1 & Hf1 & Hst1 & Hi1 & He1 & Hc1 & _).
    destruct (step_blocklen_app job1 _ _ _ _ _ Hf1 Hst1 Hi1 Hl)
      as (job2 & Hstep2 & Hf2 & Hst2 & Hi2 & He2 & Hc2 & _).
    pose proof (step_stronglen_corrupt job2 _ _ _ _ _ Hf2 Hst2 Hi2 Hs)
      as Hstep3.
    eexists. split.
    + apply runs_iter; [discriminate|].
      eapply runs_step; [exact Hstep1|]. eapply runs_step; [exact Hstep2|].
      apply runs_stop; [exact Hstep3|discriminate].
    + cbn [consumed input set_final set_input]. rewrite Hc2, Hc1.
      split_and; auto. apply latched_failed; [reflexivity|discriminate].
Qed.

End Loader.

(** ** The specification's test cases, with a maximum strong-sum length
    of 32 *)

Lemma demo_sig_ok : sig_ok 32 demo_sig.
Proof.
  unfold sig_ok, demo_sig, INT_MIN, INT_MAX. cbn.
  split_and; try lia. repeat constructor; cbn; lia.
Qed.

Lemma loadsig_state_machine_witness :
  exists job',
    load_whole 32 (set_sig_file_bytes rs_loadsig_begin 0)
               (wire_signature demo_sig)
    = (RS_DONE, job') /\
    signature job' = with_size demo_sig (size_hint 0 16).
Proof.
  apply (proj1 (proj2 (loadsig_state_machine 32)) demo_sig 0).
  exact demo_sig_ok.
Defined.

Lemma loadsig_resumable_witness :
  exists job',
    load_bytewise 32 (set_sig_file_bytes rs_loadsig_begin 0)
                  (wire_signature demo_sig)
    = (RS_DONE, job') /\
    signature job' = with_size demo_sig (size_hint 0 16).
Proof.
  apply (proj2 (proj2 (proj2 (loadsig_resumable 32))) demo_sig 0).
  exact demo_sig_ok.
Defined.

(** A block length of 0, and a strong-sum length of 33, each followed by
    four more bytes. *)
Lemma loadsig_corrupt_witness :
  (exists job',
      rs_job_iter 32
        (rs_job_feed ([x72; x73; x01; x36] ++ [x00; x00; x00; x00]
                      ++ [x00; x00; x00; x10]) false
                     (set_sig_file_bytes rs_loadsig_begin 0))
      = (RS_CORRUPT, job') /\
      consumed job' = 8 /\ input job' = [x00; x00; x00; x10] /\
      failed_for_good 32 RS_CORRUPT job') /\
  (exists job',
      rs_job_iter 32
        (rs_job_feed ([x72; x73; x01; x36] ++ [x00; x00; x02; xbc]
                      ++ [x00; x00; x00; x21] ++ [x00; x00; x00; x10]) false
                     (set_sig_file_bytes rs_loadsig_begin 0))
      = (RS_CORRUPT, job') /\
      consumed job' = 12 /\ input job' = [x00; x00; x00; x10] /\
      failed_for_good 32 RS_CORRUPT job').
Proof.
  split.
  - apply (proj1 (loadsig_corrupt 32 0 x72 x73 x01 x36 x00 x00 x00 x00
                                  [x00; x00; x00; x10] false)).
    vm_compute. reflexivity.
  - apply (proj2 (loadsig_corrupt 32 0 x72 x73 x01 x36 x00 x00 x02 xbc
                                  [x00; x00; x00; x10] false)
                 x00 x00 x00 x21).
    + vm_compute. discriminate.
    + right. vm_compute. reflexivity.
Defined.

(** The round trip and the byte-at-a-time load of the specification's
    two-record signature, computed. *)
Example loadsig_demo :
  length (wire_signature demo_sig) = 52%nat /\
  fst (load_whole 32 rs_loadsig_begin (wire_signature demo_sig)) = RS_DONE /\
  signature (snd (load_whole 32 rs_loadsig_begin (wire_signature demo_sig)))
  = demo_sig /\
  load_bytewise 32 rs_loadsig_begin (wire_signature demo_sig)
  = load_whole 32 rs_loadsig_begin (wire_signature demo_sig) /\
  fst (load_whole 32 rs_loadsig_begin (firstn 50 (wire_signature demo_sig)))
  = RS_BLOCKED /\
  fst (load_whole 32 rs_loadsig_begin (firstn 36 (wire_signature demo_sig)))
  = RS_INPUT_ENDED.
Proof. vm_compute. repeat split. Qed.
(* ================================================================== *)
(** * Part III: further properties of [mapptr.c]                       *)
(* ================================================================== *)

(** ** More about the read loop *)

Lemma fill_more fuel : forall os buf roff rsize total os' buf' total' eof,
  0 <= total < rsize -> rsize <= INT_MAX ->
  fill fuel os buf roff rsize total = Some (os', buf', total', eof) ->
  (eof = true -> total' < rsize) /\
  (exists added, added <> [] /\ fd_reads os' = added ++ fd_reads os /\
                 Forall read_sane added).
Proof.
  induction fuel as [|fuel IH]; intros os buf roff rsize total os' buf' total'
    eof Ht Hmax H; [discriminate|].
  cbn [fill] in H.
  destruct (sys_read os buf (roff + total) (rsize - total))
    as [[n os1] buf1] eqn:Hr.
  destruct (sys_read_spec _ _ _ _ _ _ _ Hr ltac:(lia))
    as (Hsrc & Hsk & Hlog & Hcl & Hcase).
  assert (Hn : -1 <= n <= rsize - total /\
               fd_pos os1 = fd_pos os + Z.max 0 n)
    by (destruct Hcase as [(? & ? & _)|(? & ? & _)]; lia).
  assert (Hsane : read_sane {| rd_pos := fd_pos os; rd_count := rsize - total;
                               rd_ret := n |}).
  { unfold read_sane, INT_MAX in *. cbn. lia. }
  assert (Hone : exists added, added <> [] /\
                               fd_reads os1 = added ++ fd_reads os /\
                               Forall read_sane added).
  { eexists [_]. split; [discriminate|]. split; [exact Hlog|].
    constructor; [exact Hsane|constructor]. }
  destruct (Z.ltb_spec n 0) as [Hneg|Hpos].
  - inversion H; subst; clear H. split_and; auto; discriminate.
  - destruct (Z.eqb_spec n 0) as [Hn0|Hn0].
    + inversion H; subst; clear H. split_and; auto; lia.
    + destruct (Z.ltb_spec (total + n) rsize) as [Hmore|Hfull].
      * apply IH in H; [|lia|lia].
        destruct H as (Hshort & added & Hne & Hl & Hf).
        destruct Hone as (added1 & _ & Hl1 & Hf1).
        split; [assumption|].
        exists (added ++ added1). split_and.
        -- destruct added; [contradiction|discriminate].
        -- rewrite Hl, Hl1, app_assoc. reflexivity.
        -- apply Forall_app. split; assumption.
      * inversion H; subst; clear H. split_and; auto; discriminate.
Qed.

(** ** One call, step by step *)

(** A call that has to read, with the run of its read loop exposed. *)
Lemma map_ptr_read os map offset len r map' os' :
  map_ok os map ->
  0 <= offset -> offset + len - window_start_of offset <= INT_MAX ->
  len <> 0 ->
  resident map offset len = false ->
  _hs_map_ptr os map offset len = Return r map' os' ->
  let ws := window_start_of offset in
  let wsz := window_need offset len in
  let rs := read_start_of map offset len in
  exists os1 buf2 buf3 total,
    (p_fd_offset map = rs /\ os1 = os \/
     p_fd_offset map <> rs /\ sys_lseek os rs = (rs, os1)) /\
    ws <= rs < ws + wsz /\
    fill (Z.to_nat (ws + wsz - rs)) os1 buf2 (rs - ws) (ws + wsz - rs) 0
    = Some (os', buf3, total, r_eof r) /\
    (p_size map < wsz -> wsz <= heap_limit os) /\
    p_size map' = Z.max (p_size map) wsz /\
    p map' = Some buf3 /\
    p_len map' = rs - ws + total /\
    tag map' = tag map /\ fd map' = fd map.
Proof.
  intros (Htag & Hoff & Hlen & Hcur & Hnull & Hdata) Ho Hl Hl0 Hres H ws wsz.
  unfold window_need in wsz. fold ws in Hl, wsz.
  pose proof (window_start_le offset Ho) as Hws. fold ws in Hws.
  pose proof (window_start_nonneg offset) as Hws0. fold ws in Hws0.
  assert (Hwsz : window_size_of offset len ws = wsz)
    by (apply window_size_spec; assumption).
  assert (Hrs : read_start_of map offset len
                = if reuses map ws wsz then p_offset map + p_len map else ws)
    by (unfold read_start_of; fold ws; rewrite Hwsz; reflexivity).
  intros rs0. remember rs0 as rs eqn:Ers. subst rs0. rewrite Hrs in Ers.
  clear Hrs.
  unfold _hs_map_ptr in H.
  rewrite Htag, Z.eqb_refl in H. cbn [negb] in H.
  rewrite (proj2 (Z.eqb_neq len 0) Hl0), Hres in H.
  fold ws in H. rewrite Hwsz in H.
  match type of H with
  | (match ?g with _ => _ end = _) => set (grown := g) in H
  end.
  assert (Hg : grown = None \/
               exists q sz, grown = Some (Some q, sz) /\
                            sz = Z.max (p_size map) wsz /\
                            (p_size map < wsz -> wsz <= heap_limit os)).
  { subst grown. destruct (Z.gtb_spec wsz (p_size map)).
    - unfold realloc. destruct (Z.ltb_spec 0 wsz); cbn [andb];
        [|left; reflexivity].
      destruct (Z.leb_spec wsz (heap_limit os)); [right|left; reflexivity].
      eexists; eexists; split; [reflexivity|]. split; [lia|auto].
    - destruct (p map) as [f|] eqn:Hp.
      + right. exists f, (p_size map). split; [reflexivity|].
        split; lia.
      + exfalso. destruct (Hnull eq_refl) as [Hnull' _].
        unfold wsz, MAX_MAP_SIZE in *. lia. }
  destruct Hg as [Hg|(q & sz & Hg & Hsz & Hheap)]; rewrite Hg in H;
    [discriminate|].
  clear Hg grown.
  match type of H with
  | context [if reuses map ws wsz then ?a else ?b] =>
      set (plan := if reuses map ws wsz then a else b) in H
  end.
  assert (Hplan : exists roff rsize buf2,
             plan = (rs, roff, rsize, buf2) /\
             roff = rs - ws /\ rsize = ws + wsz - rs /\
             0 <= roff /\ 0 < rsize).
  { subst plan. destruct (reuses map ws wsz) eqn:Hreuse.
    - unfold reuses in Hreuse. unfold resident in Hres.
      assert (Hr : p_offset map <= ws < p_offset map + p_len map /\
                   p_offset map + p_len map < ws + wsz).
      { unfold wsz in *. lia. }
      rewrite to_int_small by (unfold INT_MIN, INT_MAX in *; lia).
      do 3 eexists. split; [subst rs; reflexivity|].
      subst rs. split_and; lia.
    - do 3 eexists. split; [subst rs; reflexivity|].
      subst rs. unfold wsz, MAX_MAP_SIZE. split_and; lia. }
  destruct Hplan as (roff & rsize & buf2 & Hplan & Hroff & Hrsize & Hroff0
                     & Hrsize0).
  rewrite Hplan in H. cbv beta iota zeta in H. clear Hplan plan.
  destruct (Z.leb_spec rsize 0) as [|_]; [lia|].
  match type of H with
  | (match ?g with _ => _ end = _) => set (sought := g) in H
  end.
  assert (Hs : sought = None \/
               exists os1, sought = Some (os1, rs) /\
                 (p_fd_offset map = rs /\ os1 = os \/
                  p_fd_offset map <> rs /\ sys_lseek os rs = (rs, os1))).
  { subst sought. destruct (Z.eqb_spec (p_fd_offset map) rs) as [E|E];
      cbn [negb].
    - right. exists os. rewrite E. auto.
    - unfold sys_lseek. destruct (fd_seekable os && (0 <=? rs)).
      + rewrite Z.eqb_refl. cbn [negb]. right. eexists.
        split; [reflexivity|]. right. auto.
      + left. destruct (Z.eqb_spec (-1) rs); [lia|reflexivity]. }
  destruct Hs as [Hs|(os1 & Hs & Hseek)];
    rewrite Hs in H; [discriminate|]. clear Hs sought.
  destruct (fill (Z.to_nat rsize) os1 buf2 roff rsize 0)
    as [[[[os2 buf3] total] eof]|] eqn:Hfill; [|discriminate].
  replace ((total =? rsize) && negb (roff + total =? wsz)) with false in H.
  2:{ destruct (Z.eqb_spec total rsize); [|reflexivity].
      destruct (Z.eqb_spec (roff + total) wsz); [reflexivity|lia]. }
  inversion H; subst r map' os'; clear H.
  cbn [r_ptr r_len r_eof r_errno p p_len p_offset p_fd_offset tag p_size fd].
  exists os1, buf2, buf3, total. subst roff rsize.
  split_and; auto; lia.
Qed.

(** Why a call aborts. *)
Lemma map_ptr_abort_cause os map offset len why :
  _hs_map_ptr os map offset len = Abort why ->
  let ws := window_start_of offset in
  let wsz := window_size_of offset len ws in
  match why with
  | AssertFailure => tag map <> HS_MAP_TAG
  | OutOfMemory =>
      p_size map < wsz /\ (wsz <= 0 \/ heap_limit os < wsz)
  | SeekFailure =>
      p_fd_offset map <> read_start_of map offset len /\
      (fd_seekable os = false \/ read_start_of map offset len < 0)
  end /\
  (why <> AssertFailure -> len <> 0 /\ resident map offset len = false).
Proof.
  intros H ws wsz. unfold _hs_map_ptr in H.
  destruct (Z.eqb_spec (tag map) HS_MAP_TAG) as [Ht|Ht]; cbn [negb] in H;
    [|inversion H; split; [assumption|intros E; contradiction]].
  destruct (Z.eqb_spec len 0) as [|Hl0]; [discriminate|].
  destruct (resident map offset len) eqn:Hres; [discriminate|].
  fold ws in H. fold wsz in H.
  match type of H with
  | (match ?g with _ => _ end = _) => destruct g as [[p1 sz]|] eqn:Hg
  end.
  2:{ inversion H; subst why. split; [|auto].
      destruct (Z.gtb_spec wsz (p_size map)); [|discriminate Hg].
      split; [lia|]. unfold realloc in Hg.
      destruct (Z.ltb_spec 0 wsz); [|lia].
      destruct (Z.leb_spec wsz (heap_limit os)); [discriminate Hg|lia]. }
  clear Hg.
  unfold read_start_of. fold ws. fold wsz.
  destruct (reuses map ws wsz); cbv beta iota zeta in H |- *.
  all: match type of H with
       | (if ?c <=? 0 then _ else _) = _ =>
           destruct (Z.leb_spec c 0) as [Hz|Hz]; [discriminate|]
       end.
  all: match type of H with
       | (match ?g with _ => _ end = _) => destruct g as [[os1 c]|] eqn:Hs
       end.
  all: try (match type of H with
            | (match ?f with _ => _ end = _) =>
                destruct f as [[[[os2 buf3] total] eof]|] eqn:Hfill;
                [|discriminate]
            end;
            match type of H with
            | (if ?c then _ else _) = _ => destruct c eqn:Hassert;
                                           [|discriminate]
            end;
            exfalso;
            apply andb_prop in Hassert; destruct Hassert as [A1 A2];
            apply Z.eqb_eq in A1; apply negb_true_iff, Z.eqb_neq in A2; lia).
  all: inversion H; subst why; split; [|auto].
  - destruct (Z.eqb_spec (p_fd_offset map) (p_offset map + p_len map));
      cbn [negb] in Hs; [discriminate Hs|]. split; [assumption|].
    unfold sys_lseek in Hs.
    destruct (fd_seekable os); [|auto]. cbn [andb] in Hs.
    destruct (Z.leb_spec 0 (p_offset map + p_len map)); [|right; lia].
    rewrite Z.eqb_refl in Hs. discriminate Hs.
  - clearbody wsz ws.
    destruct (Z.eqb_spec (p_fd_offset map) ws);
      cbn [negb] in Hs; [discriminate Hs|]. split; [assumption|].
    unfold sys_lseek in Hs.
    destruct (fd_seekable os); [|auto]. cbn [andb] in Hs.
    destruct (Z.leb_spec 0 ws); [|right; lia].
    rewrite Z.eqb_refl in Hs. discriminate Hs.
Qed.

(** ** The window, the allocation and the read log after any calls *)

Lemma steady_init data size seekable heap script fd0 :
  steady (open_fd data size seekable heap script) (_hs_map_file fd0).
Proof.
  split; [apply map_ok_init|]. split; [|constructor].
  unfold window_fits. cbn. split_and; auto; lia.
Qed.

Lemma lseek_reads os pos r os1 :
  sys_lseek os pos = (r, os1) ->
  fd_reads os1 = fd_reads os /\ fd_script os1 = fd_script os /\
  (r = pos -> 0 <= pos -> fd_seekable os = true /\ fd_pos os1 = pos).
Proof.
  unfold sys_lseek. intros H. inversion H; subst; clear H. cbn.
  split_and; auto. intros Hr Hp.
  destruct (fd_seekable os); cbn [andb] in *; [|lia].
  destruct (Z.leb_spec 0 pos); [auto|lia].
Qed.

Lemma window_need_bound offset len :
  0 <= offset ->
  MAX_MAP_SIZE <= window_need offset len <= window_bound len.
Proof.
  intros Ho. pose proof (window_start_le offset Ho).
  unfold window_need, window_bound. lia.
Qed.

Lemma map_ptr_steady os map offset len r map' os' :
  steady os map -> 0 <= offset -> len <= INT_MAX ->
  _hs_map_ptr os map offset len = Return r map' os' ->
  steady os' map' /\
  tag map' = tag map /\ fd map' = fd map /\
  p_size map <= p_size map' <= Z.max (p_size map) (window_bound len) /\
  (0 < len ->
   r_ptr r = NullPtr \/
   r_ptr r = BufPtr (offset - p_offset map') /\
   p map' <> None /\
   0 <= offset - p_offset map' <= p_size map' /\
   offset - p_offset map' + r_len r <= p_len map').
Proof.
  intros (Hok & Hfit & Hlog) Ho Hl H.
  pose proof Hok as (Htag & Hoff & Hlen & Hcur & Hnull & Hdata).
  pose proof Hfit as (Hps & Halloc & Hend).
  pose proof (window_need_bound offset len Ho) as Hnb.
  assert (Hsame : steady os map /\ tag map = tag map /\ fd map = fd map /\
                  p_size map <= p_size map
                  <= Z.max (p_size map) (window_bound len))
    by (unfold steady; split_and; auto; lia).
  destruct (Z.eq_dec len 0) as [->|Hl0].
  { rewrite map_ptr_zero in H by assumption. inversion H; subst; clear H.
    destruct Hsame as (A & B & C & D). split_and; auto; lia. }
  destruct (resident map offset len) eqn:Hres.
  { rewrite map_ptr_resident in H by assumption.
    inversion H; subst; clear H. cbn [r_ptr r_len].
    destruct Hsame as (A & B & C & D). split_and; auto; try lia.
    intros Hpos. right. unfold resident in Hres.
    destruct (p map') as [f|] eqn:Hp.
    - cbn [ptr_add]. split_and; auto; try lia. discriminate.
    - destruct (Hnull eq_refl) as [_ Hz]. lia. }
  destruct (Z_le_gt_dec (offset + len - window_start_of offset) INT_MAX)
    as [Hfits|Hov].
  - destruct (map_ptr_slow _ _ _ _ _ _ _ Hok Ho Hfits Hl0 Hres H)
      as (total & Ht & Hrs & Hwend & Hpo & Hpl & Hpos & Hok' & Hsrc & _
          & Hptr & Hrl & _).
    destruct (map_ptr_read _ _ _ _ _ _ _ Hok Ho Hfits Hl0 Hres H)
      as (os1 & buf2 & buf3 & total2 & Hseek & Hrng & Hfill & _ & Hsz & Hp'
          & Hpl2 & Htag' & Hfd').
    fold (window_need offset len) in Hwend.
    set (ws := window_start_of offset) in *.
    set (wsz := window_need offset len) in *.
    set (rs := read_start_of map offset len) in *.
    pose proof (window_start_le offset Ho) as Hws. fold ws in Hws.
    assert (Hmax : ws + wsz - rs <= INT_MAX).
    { unfold wsz, window_need, INT_MAX, MAX_MAP_SIZE in *. fold ws. lia. }
    apply fill_more in Hfill; [|lia|exact Hmax].
    destruct Hfill as (_ & added & _ & Hadd & Hsane).
    assert (Hr1 : fd_reads os1 = fd_reads os).
    { destruct Hseek as [[_ ->]|[_ Hsk]]; [reflexivity|].
      apply lseek_reads in Hsk. tauto. }
    pose proof Hok' as (_ & _ & _ & Hcur' & _).
    split_and; auto; try lia.
    + split; [assumption|]. split.
      * unfold window_fits. rewrite Hsz, Hp', Hpo, Hpl.
        split_and; try lia. right. split; [discriminate|lia].
      * rewrite Hadd, Hr1. apply Forall_app. auto.
    + intros Hpos'. right. rewrite Hptr, Hpo, Hrl, Hpl, Hsz, Hp'.
      unfold MAX_MAP_SIZE, CHUNK_SIZE in *.
      split_and; auto; try lia. discriminate.
  - destruct (map_ptr_overflow _ _ _ _ _ _ _ Ho Hl ltac:(lia) Hres H)
      as (-> & -> & ->).
    destruct Hsame as (A & B & C & D). cbn [r_ptr]. split_and; auto; lia.
Qed.

Lemma forallb_len_at_most L L' calls :
  L <= L' -> forallb (len_at_most L) calls = true ->
  forallb (len_at_most L') calls = true.
Proof.
  intros HL H. rewrite forallb_forall in *. intros c Hc.
  specialize (H c Hc). unfold len_at_most in *. lia.
Qed.

Lemma run_steady calls : forall os map os' map' L,
  steady os map ->
  forallb call_ok calls = true ->
  forallb (len_at_most L) calls = true ->
  run os map calls = Some (os', map') ->
  steady os' map' /\ same_source os os' /\
  tag map' = tag map /\ fd map' = fd map /\
  p_size map <= p_size map' <= Z.max (p_size map) (window_bound L).
Proof.
  induction calls as [|c calls IH]; intros os map os' map' L Hst Hc HL H.
  - inversion H; subst. split_and; auto using same_source_refl; lia.
  - cbn [run] in H. cbn [forallb] in Hc, HL.
    apply andb_prop in Hc. destruct Hc as [Hc Hcs]. unfold call_ok in Hc.
    apply andb_prop in HL. destruct HL as [HL HLs]. unfold len_at_most in HL.
    destruct (_hs_map_ptr os map (c_offset c) (c_len c))
      as [|r map1 os1|] eqn:Hcall; try discriminate.
    assert (H0 : 0 <= c_offset c) by lia.
    assert (H1 : c_len c <= INT_MAX) by lia.
    destruct (map_ptr_steady _ _ _ _ _ _ _ Hst H0 H1 Hcall)
      as (Hst1 & Ht1 & Hf1 & Hs1 & _).
    destruct Hst as (Hok & _).
    destruct (map_ptr_ok _ _ _ _ _ _ _ Hok H0 H1 Hcall) as (_ & Hsrc1 & _).
    destruct (IH _ _ _ _ L Hst1 Hcs HLs H) as (Hst' & Hsrc' & Ht' & Hf' & Hs').
    split_and; auto; try congruence; try lia.
    + eapply same_source_trans; eassumption.
    + unfold window_bound in *. lia.
Qed.

(** The states a caller can reach from a freshly opened descriptor, once
    more. *)
Lemma run_reach data size seekable heap script fd0 calls os map :
  forallb call_ok calls = true ->
  run (open_fd data size seekable heap script) (_hs_map_file fd0) calls
  = Some (os, map) ->
  steady os map /\ fd_data os = data /\ fd_size os = size /\
  fd_seekable os = seekable /\ heap_limit os = heap /\
  (script_clean script = true -> script_clean (fd_script os) = true).
Proof.
  intros Hc H.
  pose proof (steady_init data size seekable heap script fd0) as Hst0.
  assert (HL : forallb (len_at_most INT_MAX) calls = true).
  { rewrite forallb_forall in *. intros c Hin. specialize (Hc c Hin).
    unfold call_ok, len_at_most in *. lia. }
  destruct (run_steady calls _ _ _ _ _ Hst0 Hc HL H)
    as (Hst & (S1 & S2 & S3 & S4) & _).
  split_and; auto.
  intros Hs. destruct Hst0 as (Hok0 & _).
  exact (run_clean calls _ _ _ _ Hok0 Hc Hs H).
Qed.

Lemma map_ptr_tag_kept os map offset len r map' os' :
  _hs_map_ptr os map offset len = Return r map' os' ->
  tag map' = HS_MAP_TAG.
Proof.
  intros H. pose proof (map_ptr_tag _ _ _ _ _ _ _ H) as Ht.
  assert (Hsame : forall r0 map0 os0,
             Return r0 map0 os0 = Return r map' os' ->
             tag map0 = HS_MAP_TAG -> tag map' = HS_MAP_TAG)
    by (intros r0 map0 os0 E; inversion E; subst; auto).
  unfold _hs_map_ptr in H. rewrite Ht, Z.eqb_refl in H. cbn [negb] in H.
  destruct (len =? 0); [exact (Hsame _ _ _ H Ht)|].
  destruct (resident map offset len); [exact (Hsame _ _ _ H Ht)|].
  set (ws := window_start_of offset) in *.
  set (wsz := window_size_of offset len ws) in *.
  match type of H with
  | (match ?g with _ => _ end = _) => destruct g as [[p1 sz]|]
  end; [|discriminate].
  match type of H with
  | context [if reuses map ws wsz then ?a else ?b] =>
      destruct (if reuses map ws wsz then a else b)
        as [[[rs roff] rsize] buf2]
  end.
  destruct (Z.leb_spec rsize 0); [exact (Hsame _ _ _ H eq_refl)|].
  match type of H with
  | (match ?g with _ => _ end = _) => destruct g as [[os1 c]|]
  end; [|discriminate].
  destruct (fill (Z.to_nat rsize) os1 buf2 roff rsize 0)
    as [[[[os2 buf3] total] eof]|]; [|discriminate].
  match type of H with
  | (if ?c then _ else _) = _ => destruct c; [discriminate|]
  end.
  exact (Hsame _ _ _ H eq_refl).
Qed.

Lemma run_tag calls : forall os map os' map',
  tag map = HS_MAP_TAG ->
  run os map calls = Some (os', map') -> tag map' = HS_MAP_TAG.
Proof.
  induction calls as [|c calls IH]; intros os map os' map' Ht H.
  - inversion H; subst. exact Ht.
  - cbn [run] in H.
    destruct (_hs_map_ptr os map (c_offset c) (c_len c))
      as [|r map1 os1|] eqn:Hcall; try discriminate.
    apply map_ptr_tag_kept in Hcall. eapply IH; eassumption.
Qed.

Lemma run_one os map offset len r map' os' :
  _hs_map_ptr os map offset len = Return r map' os' ->
  run os map [ {| c_offset := offset; c_len := len |} ] = Some (os', map').
Proof. intros H. cbn [run c_offset c_len]. rewrite H. reflexivity. Qed.

Lemma window_start_closed offset :
  0 <= offset ->
  window_start_of offset = CHUNK_SIZE * Z.max 0 (offset / CHUNK_SIZE - 2).
Proof.
  intros Ho. unfold window_start_of.
  destruct (Z.gtb_spec offset (2 * CHUNK_SIZE)).
  - rewrite chunk_mask.
    replace (offset - 2 * CHUNK_SIZE) with (offset + (-2) * CHUNK_SIZE) by lia.
    rewrite Z.div_add by (unfold CHUNK_SIZE; lia).
    assert (2 <= offset / CHUNK_SIZE)
      by (apply Z.div_le_lower_bound; unfold CHUNK_SIZE in *; lia).
    f_equal. lia.
  - assert (offset / CHUNK_SIZE <= 2)
      by (apply Z.div_le_upper_bound; unfold CHUNK_SIZE in *; lia).
    lia.
Qed.

(** ** When a call returns *)

Lemma map_ptr_no_oom os map offset len :
  steady os map -> 0 <= offset -> len <= INT_MAX ->
  window_bound len <= heap_limit os ->
  _hs_map_ptr os map offset len <> Abort OutOfMemory.
Proof.
  intros (Hok & Hfit & _) Ho Hl Hheap H.
  destruct Hfit as (Hps & _).
  apply map_ptr_abort_cause in H. cbv zeta in H.
  destruct H as [[Hsz Hwhy] _].
  destruct (Z_le_gt_dec (offset + len - window_start_of offset) INT_MAX)
    as [Hfits|Hov].
  - rewrite window_size_spec in * by assumption.
    fold (window_need offset len) in *.
    pose proof (window_need_bound offset len Ho).
    unfold MAX_MAP_SIZE in *. lia.
  - pose proof (window_size_overflow offset len Ho Hl ltac:(lia)). lia.
Qed.

Lemma read_start_nonneg os map offset len :
  map_ok os map -> 0 <= read_start_of map offset len.
Proof.
  intros (_ & Hoff & Hlen & _). unfold read_start_of.
  pose proof (window_start_nonneg offset).
  destruct (reuses _ _ _); lia.
Qed.

Lemma map_ptr_no_seek_failure os map offset len :
  map_ok os map -> fd_seekable os = true ->
  _hs_map_ptr os map offset len <> Abort SeekFailure.
Proof.
  intros Hok Hs H. apply map_ptr_abort_cause in H. cbv zeta in H.
  destruct H as [[_ [Hwhy|Hwhy]] _]; [congruence|].
  pose proof (read_start_nonneg os map offset len Hok). lia.
Qed.

Lemma map_ptr_no_assert os map offset len :
  tag map = HS_MAP_TAG -> _hs_map_ptr os map offset len <> Abort AssertFailure.
Proof.
  intros Ht H. apply map_ptr_abort_cause in H. cbv zeta in H.
  destruct H as [Hwhy _]. contradiction.
Qed.

Lemma run_returns L calls : forall os map lo hw,
  steady os map ->
  forallb call_ok calls = true ->
  forallb (len_at_most L) calls = true ->
  window_bound L <= heap_limit os ->
  fd_seekable os = true \/
  sequential os map lo hw /\ forward_only lo hw os map calls = true ->
  first_failure os map calls = None.
Proof.
  induction calls as [|c calls IH]; intros os map lo hw Hst Hc HL Hheap Hcase.
  - reflexivity.
  - cbn [first_failure]. cbn [forallb] in Hc, HL.
    apply andb_prop in Hc. destruct Hc as [Hc Hcs]. unfold call_ok in Hc.
    apply andb_prop in HL. destruct HL as [HL HLs]. unfold len_at_most in HL.
    assert (H0 : 0 <= c_offset c) by lia.
    assert (H1 : c_len c <= INT_MAX) by lia.
    pose proof Hst as (Hok & _).
    pose proof Hok as (Htag & _).
    assert (Hb : window_bound (c_len c) <= heap_limit os)
      by (unfold window_bound in *; lia).
    destruct (_hs_map_ptr os map (c_offset c) (c_len c))
      as [why|r map1 os1|] eqn:Hcall.
    + exfalso. destruct why.
      * exact (map_ptr_no_assert _ _ _ _ Htag Hcall).
      * exact (map_ptr_no_oom _ _ _ _ Hst H0 H1 Hb Hcall).
      * destruct Hcase as [Hs|[Hseq Hf]].
        -- exact (map_ptr_no_seek_failure _ _ _ _ Hok Hs Hcall).
        -- cbn [forward_only] in Hf. apply andb_prop in Hf.
           destruct Hf as [Hb' _].
           assert (H2 : lo <= c_offset c <= hw) by lia.
           destruct (map_ptr_sequential_returns _ _ _ _ _ _ Hok Hseq H2 H1)
             as [(r & map1 & os1 & E)|E]; rewrite E in Hcall; discriminate.
    + destruct (map_ptr_steady _ _ _ _ _ _ _ Hst H0 H1 Hcall) as (Hst1 & _).
      destruct (map_ptr_ok _ _ _ _ _ _ _ Hok H0 H1 Hcall)
        as (_ & (_ & _ & S3 & S4) & _).
      destruct Hcase as [Hs|[Hseq Hf]].
      * apply (IH os1 map1 0 0); auto; [lia|]. left. congruence.
      * cbn [forward_only] in Hf. rewrite Hcall in Hf.
        apply andb_prop in Hf. destruct Hf as [Hb' Hf].
        assert (H2 : lo <= c_offset c <= hw) by lia.
        pose proof (map_ptr_sequential _ _ _ _ _ _ _ _ _ Hok Hseq H2 H1 Hcall)
          as Hseq1.
        eapply IH; eauto. lia.
    + exfalso. exact (_hs_map_ptr_total _ _ _ _ Hcall).
Qed.

Lemma first_failure_run calls : forall os map,
  first_failure os map calls = None ->
  exists os' map', run os map calls = Some (os', map').
Proof.
  induction calls as [|c calls IH]; intros os map H.
  - exists os, map. reflexivity.
  - cbn [first_failure run] in *.
    destruct (_hs_map_ptr os map (c_offset c) (c_len c)); try discriminate.
    auto.
Qed.

(** ** Further properties of the window *)

(** X1 (assertions).  The only assertion of [_hs_map_ptr] that can fail is
    the check of the tag: a call stops on a failed assertion exactly when
    the structure does not carry [HS_MAP_TAG], so the assertion that
    [p_len] equals the window size after a full read holds whatever the
    state and the arguments are; and in the states reached from a fresh
    mapping no call fails an assertion. *)
Theorem map_ptr_assertions :
  (forall os map offset len,
      _hs_map_ptr os map offset len = Abort AssertFailure
      <-> tag map <> HS_MAP_TAG) /\
  (forall data size seekable heap script fd0 calls os map offset len,
      run (open_fd data size seekable heap script) (_hs_map_file fd0) calls
      = Some (os, map) ->
      _hs_map_ptr os map offset len <> Abort AssertFailure).
Proof.
  split.
  - intros os map offset len. split.
    + intros H. apply map_ptr_abort_cause in H. cbv zeta in H. tauto.
    + intros Ht. unfold _hs_map_ptr.
      destruct (Z.eqb_spec (tag map) HS_MAP_TAG); [contradiction|reflexivity].
  - intros data size seekable heap script fd0 calls os map offset len Hrun.
    apply map_ptr_no_assert. eapply run_tag; [|exact Hrun]. reflexivity.
Qed.

Lemma map_ptr_assertions_witness :
  _hs_map_ptr (os_of demo_first) (map_of demo_first) 95 10
  <> Abort AssertFailure.
Proof.
  assert (Hrun : run (demo_os []) (_hs_map_file 3) demo_calls
                 = Some (os_of demo_first, map_of demo_first))
    by (apply (run_one _ _ _ _ (reply_of demo_first));
        apply (outcome_eta demo_first); vm_compute; reflexivity).
  exact (proj2 map_ptr_assertions demo_data 100 false (1024 * 1024) [] 3
               demo_calls _ _ 95 10 Hrun).
Defined.

(** X2 ([_hs_unmap_file]).  In every state reached from a fresh mapping
    the release passes its assertion on the tag and releases everything
    the mapping holds, each allocation once: when no buffer was ever
    allocated ([p_size] is 0) it frees the structure only, and otherwise
    it frees the window buffer and then the structure.  The structure is
    zeroed before it is freed, so it is released without the tag. *)
Theorem unmap_file_releases data size seekable heap script fd0 calls os map :
  forallb call_ok calls = true ->
  run (open_fd data size seekable heap script) (_hs_map_file fd0) calls
  = Some (os, map) ->
  (p_size map = 0 -> _hs_unmap_file map = Some [FreeMap zeroed_map]) /\
  (p_size map <> 0 ->
   exists buf,
     p map = Some buf /\
     _hs_unmap_file map = Some [FreeWindow buf; FreeMap zeroed_map]) /\
  tag zeroed_map <> HS_MAP_TAG.
Proof.
  intros Hc Hrun.
  destruct (run_reach _ _ _ _ _ _ _ _ _ Hc Hrun)
    as (((Ht & _) & (_ & Halloc & _) & _) & _).
  unfold _hs_unmap_file. rewrite Ht, Z.eqb_refl. cbn [negb].
  split_and.
  - intros Hz. destruct Halloc as [[-> _]|[_ Hsz]]; [reflexivity|].
    unfold MAX_MAP_SIZE in Hsz. lia.
  - intros Hnz. destruct Halloc as [[_ Hz]|[Hp _]]; [contradiction|].
    destruct (p map) as [buf|]; [|contradiction].
    exists buf. split; reflexivity.
  - discriminate.
Qed.

Lemma unmap_file_releases_witness :
  (p_size (map_of demo_first) = 0 ->
   _hs_unmap_file (map_of demo_first) = Some [FreeMap zeroed_map]) /\
  (p_size (map_of demo_first) <> 0 ->
   exists buf,
     p (map_of demo_first) = Some buf /\
     _hs_unmap_file (map_of demo_first)
     = Some [FreeWindow buf; FreeMap zeroed_map]) /\
  tag zeroed_map <> HS_MAP_TAG.
Proof.
  assert (Hrun : run (demo_os []) (_hs_map_file 3) demo_calls
                 = Some (os_of demo_first, map_of demo_first))
    by (apply (run_one _ _ _ _ (reply_of demo_first));
        apply (outcome_eta demo_first); vm_compute; reflexivity).
  exact (unmap_file_releases demo_data 100 false (1024 * 1024) [] 3
                             demo_calls _ _ eq_refl Hrun).
Defined.

(** X3 (where the window is put).  A call that has to read places the
    window on a chunk boundary, two chunks before the chunk that holds the
    requested offset (at 0 near the start of the file): the returned
    pointer is [offset - p_offset] bytes into the buffer, the window keeps
    the 64K before the requested offset (everything, when the offset is
    smaller), and less than 96K.  The window holds no more than the larger
    of [MAX_MAP_SIZE] and what the request needs, and exactly that much
    when no read failed and the end of input was not seen. *)
Theorem map_ptr_window_placement
        data size seekable heap script fd0 calls os map offset len
        r map' os' :
  forallb call_ok calls = true ->
  run (open_fd data size seekable heap script) (_hs_map_file fd0) calls
  = Some (os, map) ->
  0 <= offset -> len <> 0 -> len <= LEN_MAX ->
  resident map offset len = false ->
  _hs_map_ptr os map offset len = Return r map' os' ->
  p_offset map' = CHUNK_SIZE * Z.max 0 (offset / CHUNK_SIZE - 2) /\
  r_ptr r = BufPtr (offset - p_offset map') /\
  Z.min offset (2 * CHUNK_SIZE) <= offset - p_offset map' < 3 * CHUNK_SIZE /\
  p_len map' <= Z.max MAX_MAP_SIZE (offset + len - p_offset map') /\
  (script_clean script = true -> r_eof r = false ->
   p_len map' = Z.max MAX_MAP_SIZE (offset + len - p_offset map')).
Proof.
  intros Hc Hrun Ho Hl0 Hl Hres H.
  destruct (run_reach _ _ _ _ _ _ _ _ _ Hc Hrun)
    as ((Hok & _) & _ & _ & _ & _ & Hcl).
  pose proof (window_start_le offset Ho) as Hws.
  assert (Hfits : offset + len - window_start_of offset <= INT_MAX)
    by (unfold LEN_MAX in Hl; lia).
  destruct (map_ptr_slow _ _ _ _ _ _ _ Hok Ho Hfits Hl0 Hres H)
    as (total & Ht & Hrs & Hwend & Hpo & Hpl & _ & _ & _ & _ & Hptr & _ & _
        & _ & _ & Hfull & _).
  rewrite Hpo, Hpl, Hptr.
  split; [apply window_start_closed; assumption|].
  split; [reflexivity|].
  split.
  - split; [|lia]. unfold window_start_of.
    destruct (Z.gtb_spec offset (2 * CHUNK_SIZE)); [|lia].
    rewrite chunk_mask.
    pose proof (Z.mul_div_le (offset - 2 * CHUNK_SIZE) CHUNK_SIZE eq_refl).
    lia.
  - split; [lia|]. intros Hs He. destruct (Hfull (Hcl Hs)) as [_ Hf].
    specialize (Hf He). lia.
Qed.

Lemma map_ptr_window_placement_witness :
  p_offset (map_of big_next) = CHUNK_SIZE * Z.max 0 (299000 / CHUNK_SIZE - 2) /\
  r_ptr (reply_of big_next) = BufPtr (299000 - p_offset (map_of big_next)) /\
  Z.min 299000 (2 * CHUNK_SIZE) <= 299000 - p_offset (map_of big_next)
  < 3 * CHUNK_SIZE /\
  p_len (map_of big_next)
  <= Z.max MAX_MAP_SIZE (299000 + 150000 - p_offset (map_of big_next)) /\
  (script_clean [ReadAtMost 4096; ReadAtMost 1; ReadAtMost 100000] = true ->
   r_eof (reply_of big_next) = false ->
   p_len (map_of big_next)
   = Z.max MAX_MAP_SIZE (299000 + 150000 - p_offset (map_of big_next))).
Proof.
  assert (Hrun : run big_os (_hs_map_file 3) big_calls
                 = Some (fst big_state, snd big_state))
    by (apply run_eta; vm_compute; reflexivity).
  assert (Hcall : _hs_map_ptr (fst big_state) (snd big_state) 299000 150000
                  = Return (reply_of big_next) (map_of big_next)
                           (os_of big_next))
    by (apply outcome_eta; vm_compute; reflexivity).
  assert (Hlen : 150000 <= LEN_MAX)
    by (unfold LEN_MAX, INT_MAX, CHUNK_SIZE; lia).
  assert (Hres : resident (snd big_state) 299000 150000 = false)
    by (vm_compute; reflexivity).
  exact (map_ptr_window_placement
           demo_data 600000 false (1024 * 1024)
           [ReadAtMost 4096; ReadAtMost 1; ReadAtMost 100000] 3 big_calls
           (fst big_state) (snd big_state) 299000 150000
           (reply_of big_next) (map_of big_next) (os_of big_next)
           eq_refl Hrun ltac:(lia) ltac:(lia) Hlen Hres Hcall).
Defined.

(** X4 (the region lies in the allocation).  In the states reached from a
    fresh mapping, a request of positive length never yields a pointer
    formed from the null pointer, and a pointer it returns lies within the
    allocated buffer, with the region handed out inside the valid bytes of
    the window, which lie inside the allocation. *)
Theorem map_ptr_region_allocated
        data size seekable heap script fd0 calls os map offset len
        r map' os' :
  forallb call_ok calls = true ->
  run (open_fd data size seekable heap script) (_hs_map_file fd0) calls
  = Some (os, map) ->
  0 <= offset -> 0 < len <= INT_MAX ->
  _hs_map_ptr os map offset len = Return r map' os' ->
  (forall k, r_ptr r <> WildPtr k) /\
  (forall k, r_ptr r = BufPtr k ->
             p map' <> None /\
             0 <= k <= p_size map' /\
             k + r_len r <= p_len map' <= p_size map').
Proof.
  intros Hc Hrun Ho Hl H.
  destruct (run_reach _ _ _ _ _ _ _ _ _ Hc Hrun) as (Hst & _).
  destruct (map_ptr_steady _ _ _ _ _ _ _ Hst Ho (proj2 Hl) H)
    as ((_ & (Hps & _) & _) & _ & _ & _ & Hptr).
  destruct (Hptr (proj1 Hl)) as [E|(E & Hp & Hk & Hr)]; rewrite E.
  - split; intros k; discriminate.
  - split; [intros k; discriminate|].
    intros k Hk'. inversion Hk'; subst k. split_and; auto; lia.
Qed.

Lemma map_ptr_region_allocated_witness :
  (forall k, r_ptr (reply_of big_next) <> WildPtr k) /\
  (forall k, r_ptr (reply_of big_next) = BufPtr k ->
             p (map_of big_next) <> None /\
             0 <= k <= p_size (map_of big_next) /\
             k + r_len (reply_of big_next) <= p_len (map_of big_next)
             <= p_size (map_of big_next)).
Proof.
  assert (Hrun : run big_os (_hs_map_file 3) big_calls
                 = Some (fst big_state, snd big_state))
    by (apply run_eta; vm_compute; reflexivity).
  assert (Hcall : _hs_map_ptr (fst big_state) (snd big_state) 299000 150000
                  = Return (reply_of big_next) (map_of big_next)
                           (os_of big_next))
    by (apply outcome_eta; vm_compute; reflexivity).
  assert (Hlen : 0 < 150000 <= INT_MAX) by (unfold INT_MAX; lia).
  exact (map_ptr_region_allocated
           demo_data 600000 false (1024 * 1024)
           [ReadAtMost 4096; ReadAtMost 1; ReadAtMost 100000] 3 big_calls
           (fst big_state) (snd big_state) 299000 150000
           (reply_of big_next) (map_of big_next) (os_of big_next)
           eq_refl Hrun ltac:(lia) Hlen Hcall).
Defined.

(** X5 (the size of the buffer).  The buffer is allocated by the first
    call that reads and never shrinks; it is at least [MAX_MAP_SIZE] long
    and, when no request was longer than [L], at most the larger of
    [MAX_MAP_SIZE] and [L] plus three chunks: its size depends on the
    longest request, not on the length of the file or the number of
    calls. *)
Theorem map_ptr_buffer_bounded
        data size seekable heap script fd0 calls L os map :
  forallb call_ok calls = true ->
  forallb (len_at_most L) calls = true ->
  run (open_fd data size seekable heap script) (_hs_map_file fd0) calls
  = Some (os, map) ->
  (p map = None /\ p_size map = 0 \/
   p map <> None /\ MAX_MAP_SIZE <= p_size map <= window_bound L) /\
  (forall offset len r map' os',
      0 <= offset -> len <= INT_MAX ->
      _hs_map_ptr os map offset len = Return r map' os' ->
      p_size map <= p_size map' <= Z.max (p_size map) (window_bound len)).
Proof.
  intros Hc HL Hrun.
  pose proof (steady_init data size seekable heap script fd0) as Hst0.
  destruct (run_steady calls _ _ _ _ L Hst0 Hc HL Hrun)
    as (Hst & _ & _ & _ & Hsz).
  cbn [p_size _hs_map_file] in Hsz.
  pose proof Hst as (_ & (_ & Halloc & _) & _).
  split.
  - destruct Halloc as [[E1 E2]|[E1 E2]]; [left; auto|right].
    split; [assumption|]. unfold window_bound, MAX_MAP_SIZE in *. lia.
  - intros offset len r map' os' Ho Hl H.
    destruct (map_ptr_steady _ _ _ _ _ _ _ Hst Ho Hl H)
      as (_ & _ & _ & Hs & _).
    exact Hs.
Qed.

Lemma map_ptr_buffer_bounded_witness :
  (p (snd big_state) = None /\ p_size (snd big_state) = 0 \/
   p (snd big_state) <> None /\
   MAX_MAP_SIZE <= p_size (snd big_state) <= window_bound 262144) /\
  (forall offset len r map' os',
      0 <= offset -> len <= INT_MAX ->
      _hs_map_ptr (fst big_state) (snd big_state) offset len
      = Return r map' os' ->
      p_size (snd big_state) <= p_size map'
      <= Z.max (p_size (snd big_state)) (window_bound len)).
Proof.
  assert (Hrun : run big_os (_hs_map_file 3) big_calls
                 = Some (fst big_state, snd big_state))
    by (apply run_eta; vm_compute; reflexivity).
  exact (map_ptr_buffer_bounded
           demo_data 600000 false (1024 * 1024)
           [ReadAtMost 4096; ReadAtMost 1; ReadAtMost 100000] 3 big_calls
           262144 (fst big_state) (snd big_state) eq_refl eq_refl Hrun).
Defined.

(** X6 (no abort).  When the allocator can supply the larger of
    [MAX_MAP_SIZE] and the longest request plus three chunks, every call of
    a sequence returns -- there is no failed allocation, seek or assertion
    -- provided the descriptor can seek or the caller keeps to the
    forward-only contract. *)
Theorem map_ptr_never_aborts
        data size seekable heap script fd0 calls L :
  forallb call_ok calls = true ->
  forallb (len_at_most L) calls = true ->
  window_bound L <= heap ->
  seekable = true \/
  forward_only 0 0 (open_fd data size seekable heap script)
               (_hs_map_file fd0) calls = true ->
  first_failure (open_fd data size seekable heap script)
                (_hs_map_file fd0) calls = None /\
  exists os map,
    run (open_fd data size seekable heap script) (_hs_map_file fd0) calls
    = Some (os, map).
Proof.
  intros Hc HL Hheap Hcase.
  pose proof (steady_init data size seekable heap script fd0) as Hst0.
  pose proof (sequential_init data size seekable heap script fd0) as Hseq0.
  assert (Hf : first_failure (open_fd data size seekable heap script)
                             (_hs_map_file fd0) calls = None).
  { apply (run_returns L calls _ _ 0 0); auto.
    destruct Hcase as [Hs|Hf]; [left; exact Hs|right; auto]. }
  split; [exact Hf|]. apply first_failure_run. exact Hf.
Qed.

Lemma map_ptr_never_aborts_witness :
  first_failure disk_os (_hs_map_file 3) disk_calls = None /\
  exists os map, run disk_os (_hs_map_file 3) disk_calls = Some (os, map).
Proof.
  assert (Hheap : window_bound 100 <= 1024 * 1024)
    by (unfold window_bound, MAX_MAP_SIZE, CHUNK_SIZE; lia).
  exact (map_ptr_never_aborts demo_data 600000 true (1024 * 1024)
                              [ReadAtMost 4096] 3 disk_calls 100
                              eq_refl eq_refl Hheap (or_introl eq_refl)).
Defined.

(** X7 (a descriptor that cannot seek).  On a descriptor that cannot seek,
    what a request that is not resident does depends on where its window
    would start.  Before the resident window, or beyond its end: the call
    never returns, the process is aborted for the failed seek (or a failed
    allocation).  Inside the resident window, or exactly at its end: no
    seek is needed, and the call returns without seeking unless the
    allocation fails. *)
Theorem map_ptr_pipe_discipline
        data size heap script fd0 calls os map offset len :
  forallb call_ok calls = true ->
  run (open_fd data size false heap script) (_hs_map_file fd0) calls
  = Some (os, map) ->
  0 <= offset -> len <> 0 -> len <= LEN_MAX ->
  resident map offset len = false ->
  (window_start_of offset < p_offset map \/
   p_offset map + p_len map < window_start_of offset ->
   _hs_map_ptr os map offset len = Abort SeekFailure \/
   _hs_map_ptr os map offset len = Abort OutOfMemory) /\
  (p_offset map <= window_start_of offset <= p_offset map + p_len map ->
   (exists r map' os',
       _hs_map_ptr os map offset len = Return r map' os' /\
       fd_seeks os' = fd_seeks os) \/
   _hs_map_ptr os map offset len = Abort OutOfMemory).
Proof.
  intros Hc Hrun Ho Hl0 Hl Hres.
  destruct (run_reach _ _ _ _ _ _ _ _ _ Hc Hrun)
    as (Hst & _ & _ & Hseek & _).
  pose proof Hst as (Hok & (Hps & _ & Hend) & _).
  pose proof Hok as (Htag & _).
  pose proof (window_start_le offset Ho) as Hws.
  assert (Hfits : offset + len - window_start_of offset <= INT_MAX)
    by (unfold LEN_MAX in Hl; lia).
  pose proof (read_start_nonneg os map offset len Hok) as Hrs.
  assert (Hstart : p_fd_offset map = read_start_of map offset len <->
                   p_offset map <= window_start_of offset
                   <= p_offset map + p_len map).
  { unfold read_start_of. rewrite window_size_spec by assumption.
    unfold reuses, resident in *.
    destruct (Z.geb_spec (window_start_of offset) (p_offset map));
      destruct (Z.ltb_spec (window_start_of offset)
                           (p_offset map + p_len map));
      destruct (Z.geb_spec (window_start_of offset
                            + Z.max MAX_MAP_SIZE
                                (offset + len - window_start_of offset))
                           (p_offset map + p_len map));
      cbn [andb]; lia. }
  destruct (_hs_map_ptr os map offset len) as [why|r map' os'|] eqn:H.
  - split; intros Hw.
    + destruct why; auto.
      exfalso. exact (map_ptr_no_assert _ _ _ _ Htag H).
    + right. destruct why; auto; exfalso.
      * exact (map_ptr_no_assert _ _ _ _ Htag H).
      * apply map_ptr_abort_cause in H. cbv zeta in H.
        destruct H as [[Hne _] _]. apply Hne. apply Hstart. exact Hw.
  - destruct (map_ptr_read _ _ _ _ _ _ _ Hok Ho Hfits Hl0 Hres H)
      as (os1 & _ & _ & _ & Hsk & _).
    assert (Hno : p_fd_offset map = read_start_of map offset len).
    { destruct Hsk as [[E _]|[_ Hsk]]; [exact E|exfalso].
      apply lseek_reads in Hsk. destruct Hsk as (_ & _ & Hsk).
      destruct (Hsk eq_refl Hrs) as [Hsk' _]. congruence. }
    split; intros Hw.
    + exfalso. apply Hstart in Hno. lia.
    + left. exists r, map', os'. split; [reflexivity|].
      destruct (map_ptr_slow _ _ _ _ _ _ _ Hok Ho Hfits Hl0 Hres H)
        as (total & _ & _ & _ & _ & _ & _ & _ & _ & Hseeks & _).
      rewrite Hseeks, Hno, Z.eqb_refl. reflexivity.
  - exfalso. exact (_hs_map_ptr_total _ _ _ _ H).
Qed.

Lemma map_ptr_pipe_discipline_witness :
  demo_skip = Abort SeekFailure \/ demo_skip = Abort OutOfMemory.
Proof.
  assert (Hrun : run (demo_os []) (_hs_map_file 3) demo_calls
                 = Some (os_of demo_first, map_of demo_first))
    by (apply (run_one _ _ _ _ (reply_of demo_first));
        apply (outcome_eta demo_first); vm_compute; reflexivity).
  assert (Hlen : 10 <= LEN_MAX)
    by (unfold LEN_MAX, INT_MAX, CHUNK_SIZE; lia).
  assert (Hres : resident (map_of demo_first) 200000 10 = false)
    by (vm_compute; reflexivity).
  assert (Hout : window_start_of 200000 < p_offset (map_of demo_first) \/
                 p_offset (map_of demo_first) + p_len (map_of demo_first)
                 < window_start_of 200000)
    by (right; vm_compute; reflexivity).
  exact (proj1 (map_ptr_pipe_discipline
                  demo_data 100 (1024 * 1024) [] 3 demo_calls
                  (os_of demo_first) (map_of demo_first)
                  200000 10 eq_refl Hrun ltac:(lia) ltac:(lia)
                  Hlen Hres) Hout).
Defined.

(** X8 (short reads do not show; a shortened length comes with the flag).
    When no read fails, a request of positive length that lies inside the
    source is served in full, however the descriptor cuts its reads short
    and whatever was requested before: the length comes back unchanged
    with a pointer into the buffer.  And when the length does come back
    reduced, the request reached past the end of the source and the
    end-of-input flag is set. *)
Theorem map_ptr_full_length
        data size seekable heap script fd0 calls os map offset len
        r map' os' :
  script_clean script = true ->
  forallb call_ok calls = true ->
  run (open_fd data size seekable heap script) (_hs_map_file fd0) calls
  = Some (os, map) ->
  0 <= offset -> 0 < len <= LEN_MAX ->
  _hs_map_ptr os map offset len = Return r map' os' ->
  r_ptr r = BufPtr (offset - p_offset map') /\
  (offset + len <= size -> r_len r = len) /\
  (r_len r <> len ->
   r_len r < len /\ r_eof r = true /\ size < offset + len).
Proof.
  intros Hs Hc Hrun Ho Hl H.
  destruct (run_reach _ _ _ _ _ _ _ _ _ Hc Hrun)
    as ((Hok & _) & _ & Hsize & _ & _ & Hcl).
  specialize (Hcl Hs).
  pose proof Hok as (Htag & _ & _ & _ & Hnull & _).
  pose proof (window_start_le offset Ho) as Hws.
  destruct (resident map offset len) eqn:Hres.
  - rewrite map_ptr_resident in H by (assumption || lia).
    inversion H; subst; clear H. cbn [r_len r_ptr].
    split_and; auto; [|intros E; contradiction].
    destruct (p map') eqn:Hp; [reflexivity|].
    destruct (Hnull eq_refl) as [_ Hz]. unfold resident in Hres. lia.
  - assert (Hfits : offset + len - window_start_of offset <= INT_MAX)
      by (unfold LEN_MAX in Hl; lia).
    destruct (map_ptr_slow _ _ _ _ _ _ _ Hok Ho Hfits ltac:(lia) Hres H)
      as (total & Ht & Hrs & Hwend & Hpo & _ & _ & _ & _ & _ & Hptr & Hrl & _
          & Heof & _ & Hfull & _).
    destruct (Hfull Hcl) as [_ Hf]. rewrite Hpo, Hptr, Hrl, Hsize in *.
    split; [reflexivity|].
    destruct (r_eof r); [specialize (Heof eq_refl)|specialize (Hf eq_refl)];
      split; intros; try split_and; auto; lia.
Qed.

Lemma map_ptr_full_length_witness :
  r_ptr (reply_of big_next) = BufPtr (299000 - p_offset (map_of big_next)) /\
  r_len (reply_of big_next) = 150000.
Proof.
  assert (Hrun : run big_os (_hs_map_file 3) big_calls
                 = Some (fst big_state, snd big_state))
    by (apply run_eta; vm_compute; reflexivity).
  assert (Hcall : _hs_map_ptr (fst big_state) (snd big_state) 299000 150000
                  = Return (reply_of big_next) (map_of big_next)
                           (os_of big_next))
    by (apply outcome_eta; vm_compute; reflexivity).
  assert (Hlen : 0 < 150000 <= LEN_MAX)
    by (unfold LEN_MAX, INT_MAX, CHUNK_SIZE; lia).
  destruct (map_ptr_full_length
              demo_data 600000 false (1024 * 1024)
              [ReadAtMost 4096; ReadAtMost 1; ReadAtMost 100000] 3 big_calls
              (fst big_state) (snd big_state) 299000 150000
              (reply_of big_next) (map_of big_next) (os_of big_next)
              eq_refl eq_refl Hrun ltac:(lia) Hlen Hcall) as (H1 & H2 & _).
  split; [exact H1|]. apply H2. lia.
Defined.

(** X9 (when the end-of-input flag is raised).  When no read fails, a call
    raises the flag exactly when it has to read and the window it fills --
    not the request -- reaches past the end of the source.  So a request
    that is served in full comes back with the flag set whenever the source
    ends within the window. *)
Theorem map_ptr_eof_window
        data size seekable heap script fd0 calls os map offset len
        r map' os' :
  script_clean script = true ->
  forallb call_ok calls = true ->
  run (open_fd data size seekable heap script) (_hs_map_file fd0) calls
  = Some (os, map) ->
  0 <= offset -> len <> 0 -> len <= LEN_MAX ->
  _hs_map_ptr os map offset len = Return r map' os' ->
  (r_eof r = true <->
   resident map offset len = false /\
   size < window_start_of offset + window_need offset len).
Proof.
  intros Hs Hc Hrun Ho Hl0 Hl H.
  destruct (run_reach _ _ _ _ _ _ _ _ _ Hc Hrun)
    as ((Hok & _) & _ & Hsize & _ & _ & Hcl).
  specialize (Hcl Hs).
  pose proof Hok as (Htag & _).
  pose proof (window_start_le offset Ho) as Hws.
  destruct (resident map offset len) eqn:Hres.
  - rewrite map_ptr_resident in H by assumption.
    inversion H; subst; clear H. cbn [r_eof].
    split; [discriminate|intros [E _]; discriminate E].
  - assert (Hfits : offset + len - window_start_of offset <= INT_MAX)
      by (unfold LEN_MAX in Hl; lia).
    destruct (map_ptr_slow _ _ _ _ _ _ _ Hok Ho Hfits Hl0 Hres H)
      as (total & Ht & Hrs & Hwend & _ & Hpl & _ & _ & _ & _ & _ & _ & _
          & Heof & Hin & Hfull & _).
    destruct (map_ptr_read _ _ _ _ _ _ _ Hok Ho Hfits Hl0 Hres H)
      as (os1 & buf2 & buf3 & total2 & _ & Hrng & Hfill & _ & _ & _ & Hpl2
          & _).
    fold (window_need offset len) in Hwend, Hfull.
    set (ws := window_start_of offset) in *.
    set (wsz := window_need offset len) in *.
    set (rs := read_start_of map offset len) in *.
    assert (Hmax : ws + wsz - rs <= INT_MAX).
    { unfold wsz, window_need, INT_MAX, MAX_MAP_SIZE in *. fold ws. lia. }
    apply fill_more in Hfill; [|lia|exact Hmax].
    destruct Hfill as (Hshort & _).
    destruct (Hfull Hcl) as [_ Hf]. rewrite Hsize in *.
    split.
    + intros E. split; [reflexivity|].
      specialize (Heof E). specialize (Hshort E). lia.
    + intros [_ Hpast]. destruct (r_eof r); [reflexivity|].
      specialize (Hf eq_refl).
      assert (0 < total) by lia. specialize (Hin H0). lia.
Qed.

Lemma map_ptr_eof_window_witness :
  r_eof (reply_of demo_first) = true <->
  resident (_hs_map_file 3) 0 10 = false /\
  100 < window_start_of 0 + window_need 0 10.
Proof.
  assert (Hcall : _hs_map_ptr (demo_os []) (_hs_map_file 3) 0 10
                  = Return (reply_of demo_first) (map_of demo_first)
                           (os_of demo_first))
    by (apply (outcome_eta demo_first); vm_compute; reflexivity).
  assert (Hlen : 10 <= LEN_MAX)
    by (unfold LEN_MAX, INT_MAX, CHUNK_SIZE; lia).
  exact (map_ptr_eof_window demo_data 100 false (1024 * 1024) [] 3 []
                            (demo_os []) (_hs_map_file 3) 0 10
                            (reply_of demo_first) (map_of demo_first)
                            (os_of demo_first)
                            eq_refl eq_refl eq_refl ltac:(lia) ltac:(lia)
                            Hlen Hcall).
Defined.

(** X10 (what was handed out stays addressable).  After a call has
    returned a region, a request of positive length for any part of that
    region is served from the window: it returns the matching pointer
    into the same buffer with its full length and the flag clear, and
    changes neither the window nor the descriptor. *)
Theorem map_ptr_rerequest
        data size seekable heap script fd0 calls os map offset len
        r map' os' k offset2 len2 :
  forallb call_ok calls = true ->
  run (open_fd data size seekable heap script) (_hs_map_file fd0) calls
  = Some (os, map) ->
  0 <= offset -> 0 < len <= INT_MAX ->
  _hs_map_ptr os map offset len = Return r map' os' ->
  r_ptr r = BufPtr k ->
  offset <= offset2 -> 0 < len2 -> offset2 + len2 <= offset + r_len r ->
  _hs_map_ptr os' map' offset2 len2
  = Return {| r_ptr := BufPtr (k + (offset2 - offset)); r_len := len2;
              r_eof := false; r_errno := None |} map' os'.
Proof.
  intros Hc Hrun Ho Hl H Hk Ho2 Hl2 Hin.
  destruct (run_reach _ _ _ _ _ _ _ _ _ Hc Hrun) as (Hst & _).
  destruct (map_ptr_steady _ _ _ _ _ _ _ Hst Ho (proj2 Hl) H)
    as (((Htag' & _) & _) & _ & _ & _ & Hptr).
  destruct (Hptr (proj1 Hl)) as [E|(E & Hp & Hk' & Hr)]; rewrite E in Hk;
    [discriminate|].
  inversion Hk; subst k.
  rewrite map_ptr_resident; [|assumption|lia|unfold resident; lia].
  destruct (p map'); [|contradiction]. cbn [ptr_add].
  do 3 f_equal. lia.
Qed.

Lemma map_ptr_rerequest_witness :
  _hs_map_ptr (os_of big_next) (map_of big_next) 300000 5000
  = Return {| r_ptr := BufPtr (69624 + (300000 - 299000)); r_len := 5000;
              r_eof := false; r_errno := None |}
           (map_of big_next) (os_of big_next).
Proof.
  assert (Hrun : run big_os (_hs_map_file 3) big_calls
                 = Some (fst big_state, snd big_state))
    by (apply run_eta; vm_compute; reflexivity).
  assert (Hcall : _hs_map_ptr (fst big_state) (snd big_state) 299000 150000
                  = Return (reply_of big_next) (map_of big_next)
                           (os_of big_next))
    by (apply outcome_eta; vm_compute; reflexivity).
  assert (Hlen : 0 < 150000 <= INT_MAX) by (unfold INT_MAX; lia).
  assert (Hk : r_ptr (reply_of big_next) = BufPtr 69624)
    by (vm_compute; reflexivity).
  assert (Hin : 300000 + 5000 <= 299000 + r_len (reply_of big_next))
    by (vm_compute; discriminate).
  exact (map_ptr_rerequest
           demo_data 600000 false (1024 * 1024)
           [ReadAtMost 4096; ReadAtMost 1; ReadAtMost 100000] 3 big_calls
           (fst big_state) (snd big_state) 299000 150000
           (reply_of big_next) (map_of big_next) (os_of big_next)
           69624 300000 5000
           eq_refl Hrun ltac:(lia) Hlen Hcall Hk ltac:(lia) ltac:(lia) Hin).
Defined.

(** X11 (what is asked of [read]).  Every [read] the window ever issues
    asks for at least one byte and at most [INT_MAX] bytes -- never for
    zero, so that a [read] returning zero does mean the end of the input
    -- and it is answered with -1 or with no more than was asked for. *)
Theorem map_ptr_read_counts data size seekable heap script fd0 calls os map :
  forallb call_ok calls = true ->
  run (open_fd data size seekable heap script) (_hs_map_file fd0) calls
  = Some (os, map) ->
  Forall (fun e => 0 < rd_count e <= INT_MAX /\ -1 <= rd_ret e <= rd_count e)
         (fd_reads os).
Proof.
  intros Hc Hrun.
  destruct (run_reach _ _ _ _ _ _ _ _ _ Hc Hrun) as ((_ & _ & Hlog) & _).
  exact Hlog.
Qed.

Lemma map_ptr_read_counts_witness :
  Forall (fun e => 0 < rd_count e <= INT_MAX /\ -1 <= rd_ret e <= rd_count e)
         (fd_reads (fst big_state)).
Proof.
  assert (Hrun : run big_os (_hs_map_file 3) big_calls
                 = Some (fst big_state, snd big_state))
    by (apply run_eta; vm_compute; reflexivity).
  exact (map_ptr_read_counts
           demo_data 600000 false (1024 * 1024)
           [ReadAtMost 4096; ReadAtMost 1; ReadAtMost 100000] 3 big_calls
           (fst big_state) (snd big_state) eq_refl Hrun).
Defined.

(** X12 (a request too long for the window size).  When the window a
    request needs does not fit an [int], the computed size comes out
    negative and the call gives up before allocating, seeking or reading:
    it returns the null pointer with the length as it was and the flag
    clear, sets no error code, and leaves window and descriptor as they
    were.  For a request of positive length this is the only way to get
    the null pointer back. *)
Theorem map_ptr_oversize
        data size seekable heap script fd0 calls os map offset len :
  forallb call_ok calls = true ->
  run (open_fd data size seekable heap script) (_hs_map_file fd0) calls
  = Some (os, map) ->
  0 <= offset -> 0 < len <= INT_MAX ->
  (resident map offset len = false ->
   INT_MAX < offset + len - window_start_of offset ->
   _hs_map_ptr os map offset len
   = Return {| r_ptr := NullPtr; r_len := len; r_eof := false;
               r_errno := None |} map os) /\
  (forall r map' os',
      _hs_map_ptr os map offset len = Return r map' os' ->
      r_ptr r = NullPtr ->
      resident map offset len = false /\
      INT_MAX < offset + len - window_start_of offset).
Proof.
  intros Hc Hrun Ho Hl.
  destruct (run_reach _ _ _ _ _ _ _ _ _ Hc Hrun) as (Hst & _).
  pose proof Hst as (Hok & (Hps & _) & _).
  pose proof Hok as (Htag & _ & Hlen & _ & Hnull & _).
  split.
  - intros Hres Hov.
    pose proof (window_size_overflow offset len Ho (proj2 Hl) Hov) as Hneg.
    destruct (_hs_map_ptr os map offset len) as [why|r map' os'|] eqn:H.
    + exfalso. pose proof H as H'.
      apply map_ptr_abort_cause in H. cbv zeta in H.
      apply map_ptr_abort_inv in H'. cbv zeta in H'.
      destruct why.
      * tauto.
      * destruct H as [[Hsz _] _]. lia.
      * destruct H' as [[E _]|[E|(_ & _ & _ & _ & Hpos)]];
          try discriminate E.
        set (ws := window_start_of offset) in *.
        set (wsz := window_size_of offset len ws) in *.
        assert (Hre : reuses map ws wsz = false).
        { unfold reuses. destruct (ws >=? p_offset map) eqn:E1;
            destruct (ws <? p_offset map + p_len map) eqn:E2;
            destruct (ws + wsz >=? p_offset map + p_len map) eqn:E3;
            cbn [andb]; auto. lia. }
        rewrite Hre in Hpos. lia.
    + destruct (map_ptr_overflow _ _ _ _ _ _ _ Ho (proj2 Hl) Hov Hres H)
        as (-> & -> & ->).
      reflexivity.
    + exfalso. exact (_hs_map_ptr_total _ _ _ _ H).
  - intros r map' os' H Hnullptr.
    destruct (resident map offset len) eqn:Hres.
    + exfalso. rewrite map_ptr_resident in H by (assumption || lia).
      inversion H; subst; clear H. cbn [r_ptr] in Hnullptr.
      destruct (p map') eqn:Hp; [discriminate Hnullptr|].
      destruct (Hnull eq_refl) as [_ Hz]. unfold resident in Hres. lia.
    + split; [reflexivity|].
      destruct (Z_le_gt_dec (offset + len - window_start_of offset) INT_MAX)
        as [Hfits|Hov]; [exfalso|lia].
      destruct (map_ptr_slow _ _ _ _ _ _ _ Hok Ho Hfits ltac:(lia) Hres H)
        as (total & _ & _ & _ & _ & _ & _ & _ & _ & _ & Hptr & _).
      congruence.
Qed.

Lemma map_ptr_oversize_witness :
  demo_oversize
  = Return {| r_ptr := NullPtr; r_len := INT_MAX; r_eof := false;
              r_errno := None |} (_hs_map_file 3) (demo_os []).
Proof.
  assert (Hov : INT_MAX < 100 + INT_MAX - window_start_of 100)
    by (vm_compute; reflexivity).
  assert (Hlen : 0 < INT_MAX <= INT_MAX) by (unfold INT_MAX; lia).
  exact (proj1 (map_ptr_oversize demo_data 100 false (1024 * 1024) [] 3 []
                                 (demo_os []) (_hs_map_file 3) 100 INT_MAX
                                 eq_refl eq_refl ltac:(lia) Hlen)
               eq_refl Hov).
Defined.

(* ================================================================== *)
(** * Part IV: further properties of [readsums.c]                      *)
(* ================================================================== *)

Section Books.

Variable RS_MAX_STRONG_SUM_LENGTH : Z.

Local Abbreviation step := (rs_job_step RS_MAX_STRONG_SUM_LENGTH).
Local Abbreviation iter := (rs_job_iter RS_MAX_STRONG_SUM_LENGTH).
Local Abbreviation Runs := (runs RS_MAX_STRONG_SUM_LENGTH).

(** ** The records of the job *)

Lemma booked_final job r : booked (set_final job r) <-> booked job.
Proof. unfold booked, set_final. cbn. reflexivity. Qed.

Lemma booked_input job bs e n : booked (set_input job bs e n) <-> booked job.
Proof. unfold booked, set_input. cbn. reflexivity. Qed.

Lemma booked_feed job bs e : booked (rs_job_feed bs e job) <-> booked job.
Proof. unfold rs_job_feed. apply booked_input. Qed.

Lemma step_booked job r job' :
  step job = (r, job') -> booked job ->
  booked job' /\ sig_file_bytes job' = sig_file_bytes job.
Proof.
  intros H Hb. destruct (final job) as [r0|] eqn:Hf.
  { rewrite (step_final _ _ _ Hf) in H. inversion H; subst. auto. }
  unfold rs_job_step in H. rewrite Hf in H.
  unfold booked in Hb.
  destruct (statefn job) eqn:Hst; cbn [rs_job_statefn] in H.
  - unfold rs_loadsig_s_magic in H.
    destruct (rs_suck_n4 job) as [[res l] job1] eqn:Hs.
    apply suck_n4_cases in Hs.
    destruct Hs as [(b0 & b1 & b2 & b3 & -> & Hi & -> & Hj)
                   |[(-> & -> & He)|(-> & -> & Hi & He)]];
      inversion H; subst r job'; clear H;
      try rewrite booked_final; unfold booked; try rewrite Hj; cbn;
      rewrite ?Hst; auto.
  - unfold rs_loadsig_s_blocklen in H.
    destruct (rs_suck_n4 job) as [[res l] job1] eqn:Hs.
    apply suck_n4_cases in Hs.
    destruct Hs as [(b0 & b1 & b2 & b3 & -> & Hi & -> & Hj)
                   |[(-> & -> & He)|(-> & -> & Hi & He)]].
    + destruct (Z.ltb_spec (to_int (be_decode [b0; b1; b2; b3])) 1);
        inversion H; subst r job'; clear H;
        try rewrite booked_final; unfold booked; rewrite Hj; cbn;
        rewrite ?Hst; auto.
    + inversion H; subst r job'; clear H. unfold booked. rewrite Hst. auto.
    + inversion H; subst r job'; clear H. rewrite booked_final.
      unfold booked. rewrite Hst. auto.
  - unfold rs_loadsig_s_stronglen in H.
    destruct (rs_suck_n4 job) as [[res l] job1] eqn:Hs.
    apply suck_n4_cases in Hs.
    destruct Hs as [(b0 & b1 & b2 & b3 & -> & Hi & -> & Hj)
                   |[(-> & -> & He)|(-> & -> & Hi & He)]].
    + destruct (Z.ltb_spec (to_int (be_decode [b0; b1; b2; b3])) 0);
        [|destruct (Z.gtb_spec (to_int (be_decode [b0; b1; b2; b3]))
                               RS_MAX_STRONG_SUM_LENGTH)];
        cbn [orb rs_signature_init] in H;
        inversion H; subst r job'; clear H;
        try rewrite booked_final; unfold booked, size_hint; rewrite Hj; cbn;
        rewrite ?Hst; tauto.
    + inversion H; subst r job'; clear H. unfold booked. rewrite Hst. auto.
    + inversion H; subst r job'; clear H. rewrite booked_final.
      unfold booked. rewrite Hst. auto.
  - unfold rs_loadsig_s_weak in H.
    destruct (rs_suck_n4 job) as [[res l] job1] eqn:Hs.
    apply suck_n4_cases in Hs.
    destruct Hs as [(b0 & b1 & b2 & b3 & -> & Hi & -> & Hj)
                   |[(-> & -> & He)|(-> & -> & Hi & He)]];
      inversion H; subst r job'; clear H;
      try rewrite booked_final; unfold booked; try rewrite Hj; cbn;
      rewrite ?Hst; auto.
  - unfold rs_loadsig_s_strong in H.
    destruct (rs_scoop_read job (sig_strong_sum_len (signature job)))
      as [[res s] job1] eqn:Hs.
    apply scoop_read_cases in Hs.
    destruct Hs as [(-> & Hi & Hl & Hj)|[(-> & -> & He)|(-> & -> & Hi & He)]];
      inversion H; subst r job'; clear H;
      try rewrite booked_final; unfold booked; try rewrite Hj; cbn;
      rewrite ?Hst; auto.
    destruct Hb as (B1 & B2 & B3 & B4 & B5 & B6).
    rewrite length_app. cbn [length]. split_and; auto. lia.
Qed.

Lemma runs_booked job r job' :
  Runs job r job' -> booked job ->
  booked job' /\ sig_file_bytes job' = sig_file_bytes job.
Proof.
  induction 1 as [job r job' Hstep Hr|job job1 r job' Hstep Hruns IH];
    intros Hb.
  - exact (step_booked _ _ _ Hstep Hb).
  - destruct (step_booked _ _ _ Hstep Hb) as [Hb1 Hs1].
    destruct (IH Hb1) as [Hb' Hs']. split; [assumption|congruence].
Qed.

Lemma load_whole_booked n bytes r job' :
  load_whole RS_MAX_STRONG_SUM_LENGTH
             (set_sig_file_bytes rs_loadsig_begin n) bytes = (r, job') ->
  booked job' /\ sig_file_bytes job' = n.
Proof.
  unfold load_whole. intros H.
  set (job0 := rs_job_feed bytes true
                           (set_sig_file_bytes rs_loadsig_begin n)) in *.
  pose proof (iter_runs RS_MAX_STRONG_SUM_LENGTH job0 ltac:(discriminate))
    as Hruns.
  rewrite H in Hruns. cbn [fst snd] in Hruns.
  apply runs_booked in Hruns; [exact Hruns|]. reflexivity.
Qed.

(** ** Where the input may end *)

Lemma step_header_end job :
  final job = None -> statefn job <> S_WEAK -> statefn job <> S_STRONG ->
  input job = [] -> eof_in job = true ->
  step job = (RS_INPUT_ENDED, set_final job RS_INPUT_ENDED).
Proof.
  intros Hf Hw Hs Hi He. unfold rs_job_step. rewrite Hf.
  destruct (statefn job); try contradiction; cbn [rs_job_statefn];
    unfold rs_loadsig_s_magic, rs_loadsig_s_blocklen, rs_loadsig_s_stronglen,
      rs_suck_n4, rs_scoop_read; rewrite Hi, He; reflexivity.
Qed.

Lemma step_strong_end job :
  final job = None -> statefn job = S_STRONG ->
  input job = [] -> eof_in job = true ->
  sig_strong_sum_len (signature job) <> 0 ->
  step job = (RS_INPUT_ENDED, set_final job RS_INPUT_ENDED).
Proof.
  intros Hf Hst Hi He Hl. unfold rs_job_step. rewrite Hf, Hst.
  cbn [rs_job_statefn]. unfold rs_loadsig_s_strong, rs_scoop_read.
  rewrite Hi, He. cbn [length].
  destruct (Z.leb_spec 0 (sig_strong_sum_len (signature job)));
    destruct (Z.leb_spec (sig_strong_sum_len (signature job)) (Z.of_nat 0));
    cbn [andb]; try reflexivity.
  lia.
Qed.

Lemma runs_faithful_ended all job r job' :
  Runs job r job' ->
  final job = None ->
  faithful RS_MAX_STRONG_SUM_LENGTH all job ->
  r = RS_INPUT_ENDED ->
  all = parsed job' /\ statefn job' <> S_WEAK /\ input job' = [].
Proof.
  induction 1 as [job r job' Hstep Hr|job job1 r job' Hstep Hruns IH];
    intros Hf Hfa ->.
  - apply step_inv in Hstep; [|exact Hf].
    destruct Hstep as [(E & _)|[(E & _)|[(_ & Hst & Hi & He & ->)|[(E & _)
                      |(E & _)]]]]; try discriminate.
    destruct Hfa as [Hp Hv]. rewrite Hi, app_nil_r in Hp.
    split_and; auto.
  - apply IH; auto.
    + apply (step_potential _ _ _ Hf Hstep).
    + eapply step_faithful; eassumption.
Qed.

(** A stream that loads as done, followed by more input: the load goes on
    from the state in which it was done. *)
Lemma runs_done_more job r job' :
  Runs job r job' -> final job = None -> r = RS_DONE ->
  exists jobl,
    job' = set_final jobl RS_DONE /\ final jobl = None /\
    statefn jobl = S_WEAK /\ input jobl = [] /\
    forall bs e r2 jf, Runs (rs_job_feed bs e jobl) r2 jf ->
                       Runs (rs_job_feed bs e job) r2 jf.
Proof.
  induction 1 as [job r job' Hstep Hr|job job1 r job' Hstep Hruns IH];
    intros Hf ->.
  - apply step_inv in Hstep; [|exact Hf].
    destruct Hstep as [(E & _)|[(_ & Hst & Hi & He & ->)|[(E & _)|[(E & _)
                      |(E & _)]]]]; try discriminate.
    exists job. split_and; auto.
  - destruct (step_potential _ _ _ Hf Hstep) as [_ Hf1].
    destruct (IH Hf1 eq_refl) as (jobl & E & Hfl & Hst & Hi & Hmore).
    exists jobl. split_and; auto.
    intros bs e r2 jf H2. eapply runs_step.
    + apply step_feed; [exact Hstep|auto].
    + apply Hmore. exact H2.
Qed.

(** ** The length of a stream *)

Lemma wire_length sig sl :
  Forall (fun b => Z.of_nat (length (snd b)) = sl) (sig_blocks sig) ->
  Z.of_nat (length (wire_signature sig))
  = 12 + (4 + sl) * Z.of_nat (length (sig_blocks sig)).
Proof.
  intros H. unfold wire_signature. rewrite !length_app.
  change (length (n4 (sig_magic sig))) with 4%nat.
  change (length (n4 (sig_block_len sig))) with 4%nat.
  change (length (n4 (sig_strong_sum_len sig))) with 4%nat.
  induction H as [|[w s] blocks Hs Hall IH].
  - cbn [wire_blocks flat_map length]. lia.
  - cbn [wire_blocks flat_map fst snd length] in *.
    fold (wire_blocks blocks) in *. rewrite !length_app.
    change (length (n4 w)) with 4%nat. nia.
Qed.

(** ** Further properties of the loader *)

(** X13 (the records of the job agree with the table).  Once the header
    has been read -- in particular after every load that ends with
    [RS_DONE] -- and whatever the stream and the pieces it came in, the
    magic, block length and strong-sum length kept in the job are those of
    the signature, [stats.block_len] is the block length, and
    [stats.sig_blocks] is the number of records in the table. *)
Theorem loadsig_bookkeeping n pieces r job' :
  load_pieces RS_MAX_STRONG_SUM_LENGTH
              (set_sig_file_bytes rs_loadsig_begin n) pieces = (r, job') ->
  r = RS_DONE \/ statefn job' = S_WEAK \/ statefn job' = S_STRONG ->
  sig_magic (signature job') = magic job' /\
  sig_block_len (signature job') = block_len job' /\
  stats_block_len job' = block_len job' /\
  sig_strong_sum_len (signature job') = strong_sum_len job' /\
  stats_sig_blocks job' = Z.of_nat (length (sig_blocks (signature job'))).
Proof.
  intros H Hst.
  rewrite load_pieces_whole in H by discriminate.
  assert (Hst' : statefn job' = S_WEAK \/ statefn job' = S_STRONG).
  { destruct Hst as [->|Hst]; [|exact Hst].
    apply load_whole_done in H. tauto. }
  apply load_whole_booked in H. destruct H as [Hb _].
  unfold booked in Hb.
  destruct Hst' as [E|E]; rewrite E in Hb; tauto.
Qed.

(** X14 (the pre-sizing estimate).  When the caller sets [sig_file_bytes]
    to the length of the signature stream, the number of blocks that
    [rs_loadsig_s_stronglen] estimates from it, stores in its [int] and
    passes to [rs_signature_init] is, for every stream that loads with
    [RS_DONE], the number of records the load puts in the table narrowed
    to an [int]: exactly that number whenever it is at most [INT_MAX]. *)
Theorem loadsig_size_hint_exact bytes job' :
  load_whole RS_MAX_STRONG_SUM_LENGTH
             (set_sig_file_bytes rs_loadsig_begin
                                 (Z.of_nat (length bytes))) bytes
  = (RS_DONE, job') ->
  sig_size (signature job')
  = to_int (Z.of_nat (length (sig_blocks (signature job')))) /\
  (Z.of_nat (length (sig_blocks (signature job'))) <= INT_MAX ->
   sig_size (signature job')
   = Z.of_nat (length (sig_blocks (signature job')))).
Proof.
  intros H.
  destruct (load_whole_done _ _ _ _ H) as (Hb & (_ & Hsl & Hall) & Hst & _).
  destruct (load_whole_booked _ _ _ _ H) as [Hbk Hn].
  unfold booked in Hbk. rewrite Hst in Hbk.
  destruct Hbk as (_ & _ & Hs & Hsz & _).
  pose proof (wire_length _ _ Hall) as Hlen. rewrite <- Hb in Hlen.
  rewrite Hsz, Hn, <- Hs, Hlen. unfold size_hint.
  set (sl := sig_strong_sum_len (signature job')) in *.
  set (k := Z.of_nat (length (sig_blocks (signature job')))).
  assert (0 <= k) by (unfold k; lia).
  destruct (Z.eqb_spec (12 + (4 + sl) * k) 0); [nia|].
  replace (12 + (4 + sl) * k - 12) with (k * (4 + sl)) by lia.
  rewrite Z.quot_mul by lia.
  split; [reflexivity|].
  intros Hk. apply to_int_small. unfold INT_MIN. lia.
Qed.

(** X15 (where the input may end).  Only the weak-checksum state turns the
    end of the input into success; every other state passes it on.  So a
    step reports [RS_INPUT_ENDED] exactly when the input has ended with
    nothing left while the job waits for the magic, the block length, the
    strong-sum length, or a strong checksum of non-zero length; a load
    that ends with [RS_INPUT_ENDED] has read exactly the fields the job
    holds; the empty stream and the stream of a table followed by a lone
    weak checksum end so, the latter with the table loaded. *)
Theorem loadsig_input_ended :
  (forall job r job',
      final job = None ->
      step job = (r, job') ->
      (r = RS_INPUT_ENDED <->
       statefn job <> S_WEAK /\ input job = [] /\ eof_in job = true /\
       (statefn job = S_STRONG ->
        sig_strong_sum_len (signature job) <> 0))) /\
  (forall n bytes job',
      load_whole RS_MAX_STRONG_SUM_LENGTH
                 (set_sig_file_bytes rs_loadsig_begin n) bytes
      = (RS_INPUT_ENDED, job') ->
      bytes = parsed job' /\ statefn job' <> S_WEAK /\ input job' = []) /\
  (forall n,
      fst (load_whole RS_MAX_STRONG_SUM_LENGTH
                      (set_sig_file_bytes rs_loadsig_begin n) [])
      = RS_INPUT_ENDED) /\
  (forall n sig w,
      sig_ok RS_MAX_STRONG_SUM_LENGTH sig ->
      0 < sig_strong_sum_len sig ->
      exists job',
        load_whole RS_MAX_STRONG_SUM_LENGTH
                   (set_sig_file_bytes rs_loadsig_begin n)
                   (wire_signature sig ++ n4 w)
        = (RS_INPUT_ENDED, job') /\
        statefn job' = S_STRONG /\
        sig_blocks (signature job') = sig_blocks sig).
Proof.
  split_and.
  - intros job r job' Hf H. split.
    + intros ->. pose proof H as H'. apply step_inv in H'; [|exact Hf].
      destruct H' as [(E & _)|[(E & _)|[(_ & Hst & Hi & He & _)|[(E & _)
                     |(E & _)]]]]; try discriminate.
      split_and; auto. intros Hs Hz.
      destruct (step_strong_app RS_MAX_STRONG_SUM_LENGTH job [] []
                                Hf Hs Hi)
        as (job2 & Hstep & _); [cbn; lia|].
      rewrite Hstep in H. discriminate H.
    + intros (Hw & Hi & He & Hs).
      destruct (statefn job) eqn:Hst; try contradiction.
      1-3: rewrite step_header_end in H
          by (auto; rewrite Hst; discriminate);
        inversion H; reflexivity.
      rewrite step_strong_end in H by auto. inversion H; reflexivity.
  - intros n bytes job' H. unfold load_whole in H.
    set (job0 := rs_job_feed bytes true
                             (set_sig_file_bytes rs_loadsig_begin n)) in *.
    pose proof (iter_runs RS_MAX_STRONG_SUM_LENGTH job0 ltac:(discriminate))
      as Hruns.
    rewrite H in Hruns. cbn [fst snd] in Hruns.
    apply (runs_faithful_ended bytes _ _ _ Hruns); auto.
    split; [reflexivity|exact I].
  - intros n. reflexivity.
  - intros n sig w Hok Hsl.
    destruct (load_whole_wire RS_MAX_STRONG_SUM_LENGTH sig n Hok)
      as (jobd & Hload & Hsig & _).
    unfold load_whole in *.
    set (job0 := set_sig_file_bytes rs_loadsig_begin n) in *.
    pose proof (iter_runs RS_MAX_STRONG_SUM_LENGTH
                          (rs_job_feed (wire_signature sig) true job0)
                          ltac:(discriminate)) as Hruns.
    rewrite Hload in Hruns. cbn [fst snd] in Hruns.
    destruct (runs_done_more _ _ _ Hruns eq_refl eq_refl)
      as (jobl & E & Hfl & Hst & Hi & Hmore).
    assert (Hsigl : signature jobl = signature jobd)
      by (rewrite E; reflexivity).
    destruct (n4_cons w) as (b0 & b1 & b2 & b3 & Hn4).
    set (joba := rs_job_feed (n4 w) true jobl).
    assert (Hia : input joba = [b0; b1; b2; b3])
      by (unfold joba; cbn; rewrite Hi, Hn4; reflexivity).
    destruct (step_weak_app RS_MAX_STRONG_SUM_LENGTH joba _ _ _ _ _
                            Hfl Hst Hia)
      as (job2 & Hstep2 & Hf2 & Hst2 & Hi2 & He2 & _ & Hsig2 & _).
    assert (Hsl2 : sig_strong_sum_len (signature job2) <> 0).
    { rewrite Hsig2. unfold joba. cbn [rs_job_feed set_input signature].
      rewrite Hsigl, Hsig. cbn. lia. }
    exists (set_final job2 RS_INPUT_ENDED). split.
    + rewrite <- (feed_feed (wire_signature sig) true (n4 w) true job0).
      apply runs_iter; [discriminate|].
      apply Hmore. eapply runs_step; [exact Hstep2|].
      apply runs_stop; [|discriminate].
      apply step_strong_end; auto.
    + cbn [set_final statefn signature]. split; [exact Hst2|].
      rewrite Hsig2. unfold joba. cbn [rs_job_feed set_input signature].
      rewrite Hsigl, Hsig. reflexivity.
Qed.

End Books.

(** ** The test signature, with a maximum strong-sum length of 32 *)

Lemma loadsig_bookkeeping_witness :
  sig_magic (signature (snd demo_loaded)) = magic (snd demo_loaded) /\
  sig_block_len (signature (snd demo_loaded)) = block_len (snd demo_loaded) /\
  stats_block_len (snd demo_loaded) = block_len (snd demo_loaded) /\
  sig_strong_sum_len (signature (snd demo_loaded))
  = strong_sum_len (snd demo_loaded) /\
  stats_sig_blocks (snd demo_loaded)
  = Z.of_nat (length (sig_blocks (signature (snd demo_loaded)))).
Proof.
  assert (H1 : load_pieces 32 (set_sig_file_bytes rs_loadsig_begin 52)
                           demo_pieces
               = (fst demo_loaded, snd demo_loaded))
    by (vm_compute; reflexivity).
  assert (H2 : fst demo_loaded = RS_DONE) by (vm_compute; reflexivity).
  exact (loadsig_bookkeeping 32 52 demo_pieces
                             (fst demo_loaded) (snd demo_loaded)
                             H1 (or_introl H2)).
Defined.

Lemma loadsig_size_hint_exact_witness :
  sig_size (signature (snd demo_whole))
  = to_int (Z.of_nat (length (sig_blocks (signature (snd demo_whole))))) /\
  (Z.of_nat (length (sig_blocks (signature (snd demo_whole)))) <= INT_MAX ->
   sig_size (signature (snd demo_whole))
   = Z.of_nat (length (sig_blocks (signature (snd demo_whole))))).
Proof.
  assert (H1 : load_whole 32
                 (set_sig_file_bytes rs_loadsig_begin
                    (Z.of_nat (length (wire_signature demo_sig))))
                 (wire_signature demo_sig)
               = (RS_DONE, snd demo_whole))
    by (vm_compute; reflexivity).
  exact (loadsig_size_hint_exact 32 (wire_signature demo_sig)
                                 (snd demo_whole) H1).
Defined.

Lemma loadsig_input_ended_witness :
  exists job',
    load_whole 32 (set_sig_file_bytes rs_loadsig_begin 0)
               (wire_signature demo_sig ++ n4 7)
    = (RS_INPUT_ENDED, job') /\
    statefn job' = S_STRONG /\
    sig_blocks (signature job') = sig_blocks demo_sig.
Proof.
  assert (H1 : 0 < sig_strong_sum_len demo_sig) by reflexivity.
  exact (proj2 (proj2 (proj2 (loadsig_input_ended 32)))
               0 demo_sig 7 demo_sig_ok H1).
Defined.
